(** * SMPyBandits: collision models and change-point detection tests

    A shallow embedding of

    - [Environment/CollisionModels.py]: the four collision models that
      resolve one round of a multi-player bandit game, and
    - the statistical tests of the notebook
      [Experiments_of_statistical_tests_for_piecewise_stationary_bandit.py]:
      [Monitored], [CUSUM], [PHT], [GaussianGLR], [BernoulliGLR] and
      their threshold functions.

    The collision models mutate numpy arrays and call methods of opaque
    player and arm objects: they are embedded in a state-and-exception
    monad whose state holds the three arrays, the pseudo-random
    generator, the [lru_cache] of [random_distances] and the log of the
    calls made on arms and players.

    The tests are numerical code on [float64]: they are embedded on the
    real numbers, extended with the special values that the code
    produces structurally (the mean of an empty slice is [nan], the
    logarithm of zero is [-inf]); rounding and overflow are not modelled. *)

From Stdlib Require Import List Arith ZArith QArith Bool Lia.
From Stdlib Require Import Reals Lra.
Import ListNotations.

Local Close Scope R_scope.
Local Close Scope Q_scope.
Local Open Scope nat_scope.

(** ** Python lists and numpy arrays *)

(** [l[i] = x] on an index that exists; the callers check the range. *)
Fixpoint list_update {A : Type} (l : list A) (i : nat) (x : A) : list A :=
  match l, i with
  | [], _ => []
  | _ :: l', O => x :: l'
  | y :: l', S i' => y :: list_update l' i' x
  end.

(** [enumerate(l)] *)
Definition enumerate {A : Type} (l : list A) : list (nat * A) :=
  combine (seq 0 (length l)) l.

(** [np.sum(choices == arm)] *)
Definition occupancy (choices : list nat) (arm : nat) : nat :=
  count_occ Nat.eq_dec choices arm.

(** [np.nonzero(choices == arm)[0]], the indices from [start] on. *)
Fixpoint nonzero_eq_from (start : nat) (choices : list nat) (arm : nat) : list nat :=
  match choices with
  | [] => []
  | c :: cs =>
      if Nat.eqb c arm
      then start :: nonzero_eq_from (S start) cs arm
      else nonzero_eq_from (S start) cs arm
  end.

Definition nonzero_eq (choices : list nat) (arm : nat) : list nat :=
  nonzero_eq_from 0 choices arm.

(** [np.sum] of an integer array *)
Definition sumZ (l : list Z) : Z := fold_right Z.add 0%Z l.

(** ** The state of a round and the exceptions *)

Inductive Exn : Type :=
| IndexError
| ValueError.

(** An arm is opaque: [draw(t)] consumes one word of the generator. *)
Definition Arm : Type := nat -> nat -> Q.

(** A player is opaque too; what the models test is [hasattr(player, 'handleCollision')]. *)
Record Player : Type := mkPlayer { hasHandleCollision : bool }.

(** The calls that a collision model makes on the arms and the players. *)
Inductive Event : Type :=
| EvDraw (arm t : nat) (r : Q)
| EvGetReward (player arm : nat) (r : Q)
| EvHandleCollision (player arm : nat).

Record State : Type := mkState {
  rewards : list Q;              (* one entry per player *)
  pulls : list (list Z);         (* players x arms *)
  collisions : list Z;           (* one entry per arm *)
  rng : list nat;                (* the words the generator will give *)
  cache : list (nat * list Q);   (* lru_cache of random_distances *)
  calls : list Event             (* oldest first *)
}.

(** A computation ends normally with a value, or on an exception; in both
    cases the arrays are in the state where it stopped. *)
Inductive Result (A : Type) : Type :=
| Ok (a : A) (s : State)
| Raise (e : Exn) (s : State).
Arguments Ok {A} a s.
Arguments Raise {A} e s.

Definition M (A : Type) : Type := State -> Result A.

Definition ret {A : Type} (a : A) : M A := fun s => Ok a s.

Definition bind {A B : Type} (m : M A) (k : A -> M B) : M B :=
  fun s => match m s with
           | Ok a s' => k a s'
           | Raise e s' => Raise e s'
           end.

Definition raise {A : Type} (e : Exn) : M A := fun s => Raise e s.

Declare Scope py_scope.
Delimit Scope py_scope with py.
Notation "x <- c ;; k" := (bind c (fun x => k))
  (at level 61, c at next level, right associativity) : py_scope.
Notation "c ;;; k" := (bind c (fun _ => k))
  (at level 61, right associativity) : py_scope.
Local Open Scope py_scope.

(** [for x in l: body(x)] *)
Fixpoint forM_ {A : Type} (l : list A) (body : A -> M unit) : M unit :=
  match l with
  | [] => ret tt
  | x :: l' => body x ;;; forM_ l' body
  end.

(** The state in which a computation stops, normally or not. *)
Definition final {A : Type} (r : Result A) : State :=
  match r with
  | Ok _ s => s
  | Raise _ s => s
  end.

(** *** Primitive operations *)

(** [l[i]] *)
Definition getitem {A : Type} (l : list A) (i : nat) : M A :=
  match nth_error l i with
  | Some x => ret x
  | None => raise IndexError
  end.

(** [rewards[i] = v] *)
Definition set_reward (i : nat) (v : Q) : M unit :=
  fun s =>
    if Nat.ltb i (length (rewards s))
    then Ok tt (mkState (list_update (rewards s) i v) (pulls s) (collisions s)
                        (rng s) (cache s) (calls s))
    else Raise IndexError s.

(** [rewards[i]] *)
Definition get_reward (i : nat) : M Q :=
  fun s => getitem (rewards s) i s.

(** [pulls[i, arm] += 1] *)
Definition incr_pulls (i arm : nat) : M unit :=
  fun s =>
    match nth_error (pulls s) i with
    | Some row =>
        match nth_error row arm with
        | Some n =>
            Ok tt (mkState (rewards s)
                           (list_update (pulls s) i (list_update row arm (n + 1)%Z))
                           (collisions s) (rng s) (cache s) (calls s))
        | None => Raise IndexError s
        end
    | None => Raise IndexError s
    end.

(** [collisions[arm] += k] *)
Definition incr_collisions (arm : nat) (k : Z) : M unit :=
  fun s =>
    match nth_error (collisions s) arm with
    | Some n =>
        Ok tt (mkState (rewards s) (pulls s)
                       (list_update (collisions s) arm (n + k)%Z)
                       (rng s) (cache s) (calls s))
    | None => Raise IndexError s
    end.

(** The next word of the generator (an exhausted tape gives zeros). *)
Definition next_word : M nat :=
  fun s => Ok (hd 0 (rng s))
              (mkState (rewards s) (pulls s) (collisions s)
                       (tl (rng s)) (cache s) (calls s)).

(** A call on an arm or on a player is added to the log. *)
Definition log (e : Event) : M unit :=
  fun s => Ok tt (mkState (rewards s) (pulls s) (collisions s)
                          (rng s) (cache s) (calls s ++ [e])).

(** [arms[arm].draw(t)] *)
Definition arm_draw (arms : list Arm) (arm t : nat) : M Q :=
  a <- getitem arms arm ;;
  w <- next_word ;;
  log (EvDraw arm t (a t w)) ;;;
  ret (a t w).

(** [np.random.choice(a)] for a one-dimensional array [a] *)
Definition random_choice (a : list nat) : M nat :=
  match a with
  | [] => raise ValueError
  | _ :: _ => w <- next_word ;; ret (nth (w mod length a) a 0)
  end.

(** The two ways a player learns of a collision:
[[
    if hasattr(player, 'handleCollision'):
        player.handleCollision(arm)
    else:
        player.getReward(arm, 0)
]] *)
Definition signal_collision (player : Player) (j arm : nat) : M unit :=
  if hasHandleCollision player
  then log (EvHandleCollision j arm)
  else log (EvGetReward j arm 0).

(** ** The collision models *)

(** [onlyUniqUserGetsReward(t, arms, players, choices, rewards, pulls, collisions)] *)
Definition onlyUniqUserGetsReward (t : nat) (arms : list Arm)
    (players : list Player) (choices : list nat) : M unit :=
  let nbCollisions :=
    map (fun arm => (Z.of_nat (occupancy choices arm) - 1)%Z) (seq 0 (length arms)) in
  forM_ (enumerate players) (fun ip =>
    let '(i, player) := ip in
    c <- getitem choices i ;;
    n <- getitem nbCollisions c ;;
    if (n <? 1)%Z then
      r <- arm_draw arms c t ;;
      set_reward i r ;;;
      r' <- get_reward i ;;
      log (EvGetReward i c r') ;;;
      incr_pulls i c
    else
      incr_collisions c 1 ;;;
      signal_collision player i c).

(** [noCollision(t, arms, players, choices, rewards, pulls, collisions)] *)
Definition noCollision (t : nat) (arms : list Arm)
    (players : list Player) (choices : list nat) : M unit :=
  forM_ (enumerate players) (fun ip =>
    let '(i, player) := ip in
    c <- getitem choices i ;;
    r <- arm_draw arms c t ;;
    set_reward i r ;;;
    r' <- get_reward i ;;
    log (EvGetReward i c r') ;;;
    incr_pulls i c).

(** The end of the body of the loop on the arms, shared by the two models
    below: player [i] pulls the arm, the others who chose it collide. *)
Definition pull_and_signal (t : nat) (arms : list Arm) (players : list Player)
    (arm : nat) (players_who_chose_it : list nat) (i : nat) : M unit :=
  r <- arm_draw arms arm t ;;
  set_reward i r ;;;
  _ <- getitem players i ;;
  r' <- get_reward i ;;
  log (EvGetReward i arm r') ;;;
  incr_pulls i arm ;;;
  forM_ players_who_chose_it (fun j =>
    if Nat.eqb i j then ret tt
    else
      player <- getitem players j ;;
      signal_collision player j arm).

(** [rewardIsSharedUniformly(t, arms, players, choices, rewards, pulls, collisions)] *)
Definition rewardIsSharedUniformly (t : nat) (arms : list Arm)
    (players : list Player) (choices : list nat) : M unit :=
  forM_ (seq 0 (length arms)) (fun arm =>
    let players_who_chose_it := nonzero_eq choices arm in
    if Nat.ltb 0 (length players_who_chose_it) then
      incr_collisions arm (Z.of_nat (length players_who_chose_it) - 1)%Z ;;;
      i <- random_choice players_who_chose_it ;;
      pull_and_signal t arms players arm players_who_chose_it i
    else ret tt).

(** *** The distances of [closerUserGetsReward] *)

(** The argument [distances]: [None], ['uniform'], ['random'] or an array
    (an array is read as numpy before 1.25 reads it, see
    [closerUserGetsReward]). *)
Inductive DistancesArg : Type :=
| DistancesNone
| DistancesUniform
| DistancesRandom
| DistancesArray (d : list Q).

(** [np.linspace(0, 1, n + 1, endpoint=False)[1:]]: the values [k / (n + 1)]
    for [k] from 1 to [n]. *)
Definition uniform_distances (n : nat) : list Q :=
  map (fun k => Qmake (Z.of_nat k) (Pos.of_nat (n + 1))) (seq 1 n).

(** A word of the generator as a number of [[0, 1)]. *)
Definition word_to_unit (w : nat) : Q :=
  Qmake (Z.of_nat w mod 9007199254740992)%Z 9007199254740992.

(** [np.random.random_sample(n)] *)
Fixpoint random_sample (n : nat) : M (list Q) :=
  match n with
  | O => ret []
  | S n' =>
      w <- next_word ;;
      l <- random_sample n' ;;
      ret (word_to_unit w :: l)
  end.

Fixpoint cache_lookup (key : nat) (c : list (nat * list Q)) : option (list Q) :=
  match c with
  | [] => None
  | (k, v) :: c' => if Nat.eqb k key then Some v else cache_lookup key c'
  end.

Definition cache_store (key : nat) (v : list Q) : M unit :=
  fun s => Ok tt (mkState (rewards s) (pulls s) (collisions s)
                          (rng s) ((key, v) :: cache s) (calls s)).

(** [random_distances(nbPlayers)], under [lru_cache(maxsize=None)] *)
Definition random_distances (nbPlayers : nat) : M (list Q) :=
  fun s =>
    match cache_lookup nbPlayers (cache s) with
    | Some distances => Ok distances s
    | None =>
        (distances <- random_sample nbPlayers ;;
         cache_store nbPlayers distances ;;;
         ret distances) s
    end.

(** [distances[players_who_chose_it]] *)
Fixpoint take {A : Type} (l : list A) (indices : list nat) : M (list A) :=
  match indices with
  | [] => ret []
  | i :: indices' =>
      x <- getitem l i ;;
      xs <- take l indices' ;;
      ret (x :: xs)
  end.

Definition Qmin2 (x y : Q) : Q := if Qle_bool x y then x else y.

(** [np.min(a)] *)
Definition np_min (a : list Q) : M Q :=
  match a with
  | [] => raise ValueError
  | x :: a' => ret (fold_left Qmin2 a' x)
  end.

(** [np.count_nonzero(a == v)] *)
Definition count_eq (a : list Q) (v : Q) : nat :=
  length (filter (fun x => Qeq_bool x v) a).

(** The first index of [a] that holds [v], as [np.argmin(a)] gives for
    [v = np.min(a)]. *)
Fixpoint index_of (a : list Q) (v : Q) : nat :=
  match a with
  | [] => 0
  | x :: a' => if Qeq_bool x v then 0 else S (index_of a' v)
  end.

(** [closerUserGetsReward(t, arms, players, choices, rewards, pulls, collisions, distances)].

    When several players who chose the arm are at the minimal distance,
    the source calls [np.random.choice(np.argwhere(distancesChosen ==
    smaller_distance))]: [np.argwhere] gives an array of shape [(k, 1)],
    and [np.random.choice] raises [ValueError] ("a must be
    1-dimensional") on an array that is not one-dimensional.

    The first test of the source is [distances is None or distances ==
    'uniform']. For [None] and for the two strings it is a comparison of
    Python. For an array, [distances == 'uniform'] is a comparison of
    numpy: before numpy 1.25 it is [False] (with a [FutureWarning]) and
    the array is used as it is, which is the reading of the branch
    [DistancesArray] here; from numpy 1.25 on it is made entry by entry,
    and the [if] raises [ValueError] on an array of two entries or more,
    before the loop on the arms. *)
Definition closerUserGetsReward (t : nat) (arms : list Arm)
    (players : list Player) (choices : list nat) (distances : DistancesArg) : M unit :=
  distances <-
    match distances with
    | DistancesNone | DistancesUniform => ret (uniform_distances (length players))
    | DistancesRandom => random_distances (length players)
    | DistancesArray d => ret d
    end ;;
  forM_ (seq 0 (length arms)) (fun arm =>
    let players_who_chose_it := nonzero_eq choices arm in
    if Nat.ltb 0 (length players_who_chose_it) then
      incr_collisions arm (Z.of_nat (length players_who_chose_it) - 1)%Z ;;;
      distancesChosen <- take distances players_who_chose_it ;;
      smaller_distance <- np_min distancesChosen ;;
      i <- (if Nat.eqb (count_eq distancesChosen smaller_distance) 1
            then getitem players_who_chose_it (index_of distancesChosen smaller_distance)
            else raise ValueError) ;;
      pull_and_signal t arms players arm players_who_chose_it i
    else ret tt).

(** *** What a round did *)

(** Player [p] was granted [arm] with the reward [r]: the arm was drawn at
    time [t], the draw gave [r], and [r] was handed to [p] by [getReward]. *)
Definition granted_value (new_calls : list Event) (p arm t : nat) (r : Q) : Prop :=
  exists pre post,
    new_calls = pre ++ EvDraw arm t r :: EvGetReward p arm r :: post.

(** Player [p] was granted [arm]. *)
Definition granted (new_calls : list Event) (p arm : nat) : Prop :=
  exists t r, granted_value new_calls p arm t r.

(** The event by which [player], of index [j], learns of a collision. *)
Definition collision_event (player : Player) (j arm : nat) : Event :=
  if hasHandleCollision player
  then EvHandleCollision j arm
  else EvGetReward j arm 0.

(** The players of a round know of a collision on [arm]. *)
Definition signalled (players : list Player) (new_calls : list Event) (j arm : nat) : Prop :=
  exists player,
    nth_error players j = Some player /\
    In (collision_event player j arm) new_calls.

(** Entry [[i, arm]] of the matrix of pulls. *)
Definition pulls_at (s : State) (i arm : nat) : option Z :=
  match nth_error (pulls s) i with
  | Some row => nth_error row arm
  | None => None
  end.

(** The shapes that the simulation gives to a round. *)
Record well_formed (arms : list Arm) (players : list Player)
    (choices : list nat) (s : State) : Prop := mkWf {
  wf_choices : length choices = length players;
  wf_rewards : length (rewards s) = length players;
  wf_pulls : length (pulls s) = length players;
  wf_rows : forall row, In row (pulls s) -> length row = length arms;
  wf_collisions : length (collisions s) = length arms;
  wf_range : forall c, In c choices -> c < length arms
}.

(** The increase of the collisions that [onlyUniqUserGetsReward] makes on an arm. *)
Definition uniq_charge (choices : list nat) (arm : nat) : Z :=
  if Nat.leb 2 (occupancy choices arm)
  then Z.of_nat (occupancy choices arm)
  else 0%Z.

(** [max(occupancy(arm) - 1, 0)] *)
Definition excess (choices : list nat) (arm : nat) : Z :=
  Z.max (Z.of_nat (occupancy choices arm) - 1) 0.

(** The sum of [f arm] for [arm in range(nbArms)]. *)
Definition sum_over_arms (f : nat -> Z) (nbArms : nat) : Z :=
  sumZ (map f (seq 0 nbArms)).

(** No two players are at the same distance. *)
Definition pairwise_distinct (d : list Q) : Prop :=
  forall i j x y, nth_error d i = Some x -> nth_error d j = Some y ->
    i <> j -> ~ (x == y)%Q.

(** ** Numbers of the statistical tests *)

Local Open Scope R_scope.

(** A [float64]: a real number or one of the special values. *)
Inductive fval : Type :=
| Fin (x : R)
| PInf
| NInf
| NaN.

Definition Rltb (x y : R) : bool := if Rlt_dec x y then true else false.
Definition Reqb (x y : R) : bool := if Req_dec_T x y then true else false.

(** [a < b]: false as soon as one side is [nan]. *)
Definition flt (a b : fval) : bool :=
  match a, b with
  | NaN, _ | _, NaN => false
  | Fin x, Fin y => Rltb x y
  | Fin _, PInf => true
  | Fin _, NInf => false
  | PInf, _ => false
  | NInf, NInf => false
  | NInf, _ => true
  end.

(** [a == b] *)
Definition feq (a b : fval) : bool :=
  match a, b with
  | Fin x, Fin y => Reqb x y
  | PInf, PInf => true
  | NInf, NInf => true
  | _, _ => false
  end.

(** [a > b] and [a >= b] *)
Definition fgt (a b : fval) : bool := flt b a.
Definition fge (a b : fval) : bool := flt b a || feq a b.

(** [a * b] *)
Definition fmul (a b : fval) : fval :=
  match a, b with
  | NaN, _ | _, NaN => NaN
  | Fin x, Fin y => Fin (x * y)
  | Fin x, PInf | PInf, Fin x =>
      if Rltb 0 x then PInf else if Rltb x 0 then NInf else NaN
  | Fin x, NInf | NInf, Fin x =>
      if Rltb 0 x then NInf else if Rltb x 0 then PInf else NaN
  | PInf, PInf | NInf, NInf => PInf
  | PInf, NInf | NInf, PInf => NInf
  end.

(** [1 / a] for a numpy scalar [a] (the sign of a zero is not modelled) *)
Definition finv (a : fval) : fval :=
  match a with
  | Fin x => if Reqb x 0 then PInf else Fin (/ x)
  | PInf | NInf => Fin 0
  | NaN => NaN
  end.

(** [np.log(x)] *)
Definition np_log (x : R) : fval :=
  if Rltb 0 x then Fin (ln x) else if Reqb x 0 then NInf else NaN.

(** [np.sqrt(a)] *)
Definition np_sqrt (a : fval) : fval :=
  match a with
  | Fin x => if Rltb x 0 then NaN else Fin (sqrt x)
  | PInf => PInf
  | NInf | NaN => NaN
  end.

(** [np.isinf(a)] *)
Definition np_isinf (a : fval) : bool :=
  match a with
  | PInf | NInf => true
  | _ => false
  end.

(** The builtin [min(a, b)]: [b] when [b < a], else [a]. *)
Definition py_min (a b : fval) : fval := if flt b a then b else a.

(** The builtin [max(0, x)] where [x] may be [nan]: [x] when [x > 0], else 0. *)
Definition py_max0 (x : option R) : R :=
  match x with
  | Some v => if Rltb 0 v then v else 0
  | None => 0
  end.

(** [np.sum(a)] *)
Definition np_sum (a : list R) : R := fold_right Rplus 0 a.

(** [np.mean(a)]: [nan] ([None]) on an empty array. *)
Definition np_mean (a : list R) : option R :=
  match a with
  | [] => None
  | _ :: _ => Some (np_sum a / INR (length a))
  end.

(** [a[i:j]] for [0 <= i] and [0 <= j] *)
Definition slice {A : Type} (a : list A) (i j : nat) : list A :=
  firstn (j - i) (skipn i a).

(** [a[-w:]] for [0 <= w]: the whole of [a] when [w] is 0. *)
Definition last_slice {A : Type} (a : list A) (w : nat) : list A :=
  if Nat.eqb w 0 then a else skipn (length a - w) a.

(** [scipy.special.comb(N, k)] for integers: 0 outside [0 <= k <= N]. *)
Fixpoint binom (n k : nat) : nat :=
  match n, k with
  | _, O => 1
  | O, S _ => 0
  | S n', S k' => (binom n' k' + binom n' (S k'))%nat
  end.

Definition comb (N : nat) (k : Z) : R :=
  if ((0 <=? k) && (k <=? Z.of_nat N))%Z then INR (binom N (Z.to_nat k)) else 0.

(** [int(np.floor(x))] and [int(np.ceil(x))] *)
Definition floor (x : R) : Z := Int_part x.
Definition ceil (x : R) : Z := (- Int_part (- x))%Z.

(** ** The statistical tests *)

Definition NB_ARMS : nat := 1.
Definition WINDOW_SIZE : nat := 80.
Definition EPSILON : R := 1 / 2.
Definition LAMBDA : R := 1.
Definition MIN_NUMBER_OF_OBSERVATION_BETWEEN_CHANGE_POINT : nat := 100.
Definition MAX_NB_RANDOM_EVENTS : nat := 1.

(** [Monitored(all_data, t, window_size, threshold_b)] *)
Definition Monitored (all_data : list R) (t : nat)
    (window_size : nat) (threshold_b : option fval) : bool :=
  let data := firstn t all_data in
  if Nat.ltb (length data) window_size then false
  else
    let horizon := length all_data in
    let threshold_b :=
      match threshold_b with
      | Some b => b
      | None =>
          np_sqrt (fmul (Fin (INR window_size / 2))
                        (np_log (2 * INR NB_ARMS * INR horizon ^ 2)))
      end in
    let last_w_data := last_slice data window_size in
    let sum_first_half := np_sum (firstn (window_size / 2) last_w_data) in
    let sum_second_half := np_sum (skipn (window_size / 2) last_w_data) in
    fgt (Fin (Rabs (sum_first_half - sum_second_half))) threshold_b.

(** [compute_h__CUSUM(horizon, verbose, M, max_nb_random_events, nbArms, epsilon, lmbda)];
    [None] is the [ZeroDivisionError] of a division of Python floats.

    The numbers are real numbers here. In [float64], [comb(M, .)]
    overflows to [inf] for [M] of about 1030 and more and
    [(2 * epsilon) ** M] underflows to 0 for a large [M]; their product
    is then [inf] or [nan], and the code returns 0 or [nan]. This is not
    modelled: the definition is that of the code for the [M] where
    neither happens, as [M = 1], the only one that [CUSUM] and [PHT]
    give it. *)
Definition compute_h__CUSUM (horizon : nat) (verbose : nat) (M : nat)
    (max_nb_random_events : nat) (nbArms : nat) (epsilon : R) (lmbda : R)
    : option fval :=
  let T := Nat.max 1 horizon in
  let UpsilonT := Nat.max 1 max_nb_random_events in
  let K := Nat.max 1 nbArms in
  if Reqb ((1 - epsilon) ^ 2) 0 then None
  else
    let C1_minus :=
      np_log (((4 * epsilon) / (1 - epsilon) ^ 2)
              * comb M (floor (2 * epsilon * INR M)) * (2 * epsilon) ^ M + 1) in
    if Reqb ((1 + epsilon) ^ 2) 0 then None
    else
      let C1_plus :=
        np_log (((4 * epsilon) / (1 + epsilon) ^ 2)
                * comb M (ceil (2 * epsilon * INR M)) * (2 * epsilon) ^ M + 1) in
      let C1 := py_min C1_minus C1_plus in
      let C1 := if feq C1 (Fin 0) then Fin 1 else C1 in
      let h := fmul (finv C1) (np_log (INR T / INR UpsilonT)) in
      Some h.

(** The threshold of [CUSUM] and of [PHT]:
[[
    if threshold_h is None:
        threshold_h = compute_h__CUSUM(horizon, M, 1, epsilon=epsilon)
]]
    The second positional parameter of [compute_h__CUSUM] is [verbose]
    and the third is [M]. *)
Definition default_threshold_h (horizon : nat) (epsilon : R) (M : nat)
    (threshold_h : option fval) : option fval :=
  match threshold_h with
  | Some h => Some h
  | None =>
      compute_h__CUSUM horizon M 1 MAX_NB_RANDOM_EVENTS 1 epsilon LAMBDA
  end.

(** The statistics [gp] and [gm] after one more sample. *)
Definition update_g (g : R) (s : option R) : R :=
  py_max0 (match s with Some v => Some (g + v) | None => None end).

(** [a - y - epsilon] where [a] may be [nan] *)
Definition minus_minus (a : option R) (y epsilon : R) : option R :=
  match a with Some v => Some (v - y - epsilon) | None => None end.

(** [y - a - epsilon] where [a] may be [nan] *)
Definition rminus_minus (y : R) (a : option R) (epsilon : R) : option R :=
  match a with Some v => Some (y - v - epsilon) | None => None end.

(** The loop of [CUSUM] from index [k] on; the result is the answer and
    the last values of [gp] and [gm]. *)
Fixpoint CUSUM_loop (u0hat : option R) (epsilon : R) (M : nat) (threshold_h : fval)
    (k : nat) (gp gm : R) (rest : list R) : bool * (R * R) :=
  match rest with
  | [] => (false, (gp, gm))
  | y_k :: rest' =>
      if Nat.leb k M then
        CUSUM_loop u0hat epsilon M threshold_h (S k) gp gm rest'
      else
        let sp := minus_minus u0hat y_k epsilon in
        let sm := rminus_minus y_k u0hat epsilon in
        let gp' := update_g gp sp in
        let gm' := update_g gm sm in
        if fge (Fin (Rmax gp' gm')) threshold_h then (true, (gp', gm'))
        else CUSUM_loop u0hat epsilon M threshold_h (S k) gp' gm' rest'
  end.

(** The body of [CUSUM]; [None] when the threshold raises. *)
Definition CUSUM_run (all_data : list R) (t : nat) (epsilon : R) (M : nat)
    (threshold_h : option fval) : option (bool * (R * R)) :=
  let data := firstn t all_data in
  let horizon := length all_data in
  match default_threshold_h horizon epsilon M threshold_h with
  | None => None
  | Some threshold_h =>
      let u0hat := np_mean (firstn M data) in
      Some (CUSUM_loop u0hat epsilon M threshold_h 0 0 0 data)
  end.

(** [CUSUM(all_data, t, epsilon, M, threshold_h)] *)
Definition CUSUM (all_data : list R) (t : nat) (epsilon : R) (M : nat)
    (threshold_h : option fval) : option bool :=
  option_map fst (CUSUM_run all_data t epsilon M threshold_h).

(** The loop of [PHT] from index [k] on. *)
Fixpoint PHT_loop (data : list R) (epsilon : R) (threshold_h : fval)
    (k : nat) (gp gm : R) (rest : list R) : bool * (R * R) :=
  match rest with
  | [] => (false, (gp, gm))
  | y_k :: rest' =>
      let y_k_hat := np_mean (firstn k data) in
      let sp := minus_minus y_k_hat y_k epsilon in
      let sm := rminus_minus y_k y_k_hat epsilon in
      let gp' := update_g gp sp in
      let gm' := update_g gm sm in
      if fge (Fin (Rmax gp' gm')) threshold_h then (true, (gp', gm'))
      else PHT_loop data epsilon threshold_h (S k) gp' gm' rest'
  end.

(** The body of [PHT]; [None] when the threshold raises. *)
Definition PHT_run (all_data : list R) (t : nat) (epsilon : R) (M : nat)
    (threshold_h : option fval) : option (bool * (R * R)) :=
  let data := firstn t all_data in
  let horizon := length all_data in
  match default_threshold_h horizon epsilon M threshold_h with
  | None => None
  | Some threshold_h => Some (PHT_loop data epsilon threshold_h 0 0 0 data)
  end.

(** [PHT(all_data, t, epsilon, M, threshold_h)] *)
Definition PHT (all_data : list R) (t : nat) (epsilon : R) (M : nat)
    (threshold_h : option fval) : option bool :=
  option_map fst (PHT_run all_data t epsilon M threshold_h).

(** [compute_c__GLR(t0, t, horizon)] *)
Definition compute_c__GLR (t0 t horizon : nat) : fval :=
  let T := Nat.max 1 horizon in
  let delta := 1 / INR T in
  let t_m_t0 := INR (Nat.max (t - t0) (t0 - t)) in
  let c := fmul (Fin ((1 + 1 / (t_m_t0 + 1)) * 2))
                (np_log ((2 * t_m_t0 * sqrt (t_m_t0 + 2)) / delta)) in
  if flt c (Fin 0) && np_isinf c then PInf else c.

(** [klGauss(x, y, sig2x=0.25)] *)
Definition klGauss (x y : R) : R := (x - y) ^ 2 / (2 * (1 / 4)).

Definition eps : R := 1 / 1000000.

(** [klBern(x, y)]; after the truncation to [[eps, 1 - eps]] the
    logarithms are those of positive numbers. *)
Definition klBern (x y : R) : R :=
  let x := Rmin (Rmax x eps) (1 - eps) in
  let y := Rmin (Rmax y eps) (1 - eps) in
  x * ln (x / y) + (1 - x) * ln ((1 - x) / (1 - y)).

(** [mu = lambda a, b: np.mean(data[a : b+1])] *)
Definition mu (data : list R) (a b : nat) : option R :=
  np_mean (slice data a (b + 1)).

(** The statistic of the split at [s]; [None] when a mean is [nan]. *)
Definition glr_statistic (kl : R -> R -> R) (data : list R) (t s : nat) : option R :=
  match mu data (s + 1) t, mu data 0 s with
  | Some m1, Some m0 =>
      Some ((INR (s - 0 + 1) * INR (t - s) / INR (t - 0 + 1)) * kl m1 m0)
  | _, _ => None
  end.

(** The loop [for s in range(t0, t - 1)] of the two GLR tests, on the
    splits [splits]. *)
Fixpoint GLR_loop (kl : R -> R -> R) (data : list R) (t : nat)
    (threshold_h : fval) (splits : list nat) : bool :=
  match splits with
  | [] => false
  | s :: splits' =>
      match glr_statistic kl data t s with
      | Some glr =>
          if fge (Fin glr) threshold_h then true
          else GLR_loop kl data t threshold_h splits'
      | None => GLR_loop kl data t threshold_h splits'
      end
  end.

(** The body that [GaussianGLR] and [BernoulliGLR] have in common, for
    the divergence [kl]. *)
Definition GLR (kl : R -> R -> R) (all_data : list R) (t : nat)
    (threshold_h : option fval) : bool :=
  let data := firstn t all_data in
  let t0 := 0%nat in
  let horizon := length all_data in
  let threshold_h :=
    match threshold_h with
    | Some h => h
    | None => compute_c__GLR 0 t horizon
    end in
  GLR_loop kl data t threshold_h (seq t0 (t - 1 - t0)).

(** [GaussianGLR(all_data, t, threshold_h)] *)
Definition GaussianGLR (all_data : list R) (t : nat) (threshold_h : option fval) : bool :=
  GLR klGauss all_data t threshold_h.

(** [BernoulliGLR(all_data, t, threshold_h)] *)
Definition BernoulliGLR (all_data : list R) (t : nat) (threshold_h : option fval) : bool :=
  GLR klBern all_data t threshold_h.

(** The sum of [f i] for [i < n]. *)
Fixpoint sum_range (f : nat -> R) (n : nat) : R :=
  match n with
  | O => 0
  | S n' => sum_range f n' + f n'
  end.

(** The sum of the [n] samples from index [a] on. *)
Definition sum_between (obs : list R) (a n : nat) : R :=
  sum_range (fun i => nth (a + i) obs 0) n.

(** The mean of the samples of index [a] to [b], both included. *)
Definition mean_between (obs : list R) (a b : nat) : R :=
  sum_between obs a (b + 1 - a) / INR (b + 1 - a).

(** The statistic of the split at [s], at time [t]: the samples of index
    [0] to [s] against those of index [s + 1] to [t - 1]. *)
Definition glr_spec (kl : R -> R -> R) (obs : list R) (t s : nat) : R :=
  (INR (s + 1) * INR (t - s) / INR (t + 1))
  * kl (mean_between obs (s + 1) (t - 1)) (mean_between obs 0 s).

(** The truncation of [klBern]. *)
Definition clamp (x : R) : R := Rmin (Rmax x eps) (1 - eps).

(** ** The measures of a test *)

(** A test as a measure calls it, [CDAlgorithm(data, t)], at a time that
    may be negative; [None] when the call raises. *)
Definition CDAlgorithm : Type := list R -> Z -> option bool.

(** The change point given to a measure: an [int], or a [float] that is
    a fraction of the horizon. *)
Inductive ChangePoint : Type :=
| TauInt (tau : Z)
| TauFloat (tau : R).

(** [int(x)]: the truncation towards zero *)
Definition py_int (x : R) : Z := if Rltb x 0 then ceil x else floor x.

(** [if isinstance(tau, float): tau = int(tau * horizon)] *)
Definition tau_of (tau : ChangePoint) (horizon : nat) : Z :=
  match tau with
  | TauInt z => z
  | TauFloat x => py_int (x * INR horizon)
  end.

(** [range(a, b)] *)
Definition range (a b : Z) : list Z :=
  map (fun i => (a + Z.of_nat i)%Z) (seq 0 (Z.to_nat (b - a))).

(** The loop of [detection_delay] on the times [ts]. *)
Fixpoint detection_delay_loop (CD : CDAlgorithm) (data : list R)
    (tau horizon : Z) (ts : list Z) : option Z :=
  match ts with
  | [] => Some (horizon - tau)%Z
  | t :: ts' =>
      match CD data t with
      | None => None
      | Some true => Some (t - tau)%Z
      | Some false => detection_delay_loop CD data tau horizon ts'
      end
  end.

(** [detection_delay(data, tau, CDAlgorithm)] *)
Definition detection_delay (data : list R) (tau : ChangePoint)
    (CD : CDAlgorithm) : option Z :=
  let horizon := length data in
  let tau := tau_of tau horizon in
  detection_delay_loop CD data tau (Z.of_nat horizon)
    (range tau (Z.of_nat horizon + 1)).

(** The loop of [false_alarm] on the times [ts]. *)
Fixpoint false_alarm_loop (CD : CDAlgorithm) (data : list R)
    (ts : list Z) : option bool :=
  match ts with
  | [] => Some false
  | t :: ts' =>
      match CD data t with
      | None => None
      | Some true => Some true
      | Some false => false_alarm_loop CD data ts'
      end
  end.

(** [false_alarm(data, tau, CDAlgorithm)] *)
Definition false_alarm (data : list R) (tau : ChangePoint)
    (CD : CDAlgorithm) : option bool :=
  let horizon := length data in
  let tau := tau_of tau horizon in
  false_alarm_loop CD data (range 0 tau).

(** The loop of [missed_detection] on the times [ts]. *)
Fixpoint missed_detection_loop (CD : CDAlgorithm) (data : list R)
    (ts : list Z) : option bool :=
  match ts with
  | [] => Some true
  | t :: ts' =>
      match CD data t with
      | None => None
      | Some true => Some false
      | Some false => missed_detection_loop CD data ts'
      end
  end.

(** [missed_detection(data, tau, CDAlgorithm)] *)
Definition missed_detection (data : list R) (tau : ChangePoint)
    (CD : CDAlgorithm) : option bool :=
  let horizon := length data in
  let tau := tau_of tau horizon in
  missed_detection_loop CD data (range tau (Z.of_nat horizon + 1)).

(** The first of the times [ts] at which the test does not answer no,
    with what it does there. *)
Fixpoint first_answer (CD : CDAlgorithm) (data : list R) (ts : list Z)
    : option (Z * option bool) :=
  match ts with
  | [] => None
  | t :: ts' =>
      match CD data t with
      | Some false => first_answer CD data ts'
      | r => Some (t, r)
      end
  end.

(** ** Piece-wise stationary problems *)

(** The exceptions of the functions that have no state. *)
Inductive Exception : Type :=
| E_IndexError
| E_ValueError
| E_ZeroDivisionError.

(** What a call gives: a value, or an exception. *)
Inductive outcome (A : Type) : Type :=
| Returns (a : A)
| Raises (e : Exception).
Arguments Returns {A} a.
Arguments Raises {A} e.

(** The dictionary that [problem(horizon)] returns. *)
Record Problem : Type := mkProblem {
  listOfMeans : list (list R);
  changePoints : list Z
}.

(** [np.max(a)] of a list of integers; [ValueError] on the empty list. *)
Definition np_max (a : list Z) : outcome Z :=
  match a with
  | [] => Raises E_ValueError
  | x :: a' => Returns (fold_left Z.max a' x)
  end.

(** The loop [for t in range(horizon)] of [getFullHistoryOfMeans] for
    the arm [armId], on the times [ts], from the value [nbChangePoint]
    of the counter: the entries of the row of the arm. *)
Fixpoint means_of_arm (listOfMeans : list (list R)) (changePoints : list Z)
    (armId : nat) (nbChangePoint : nat) (ts : list nat) : outcome (list R) :=
  match ts with
  | [] => Returns []
  | t :: ts' =>
      let nbChangePoint :=
        if (Z.of_nat nbChangePoint <? Z.of_nat (length changePoints) - 1)%Z
           && (nth (nbChangePoint + 1) changePoints 0 <=? Z.of_nat t)%Z
        then (nbChangePoint + 1)%nat else nbChangePoint in
      match nth_error listOfMeans nbChangePoint with
      | None => Raises E_IndexError
      | Some means =>
          match nth_error means armId with
          | None => Raises E_IndexError
          | Some m =>
              match means_of_arm listOfMeans changePoints armId nbChangePoint ts' with
              | Raises e => Raises e
              | Returns row => Returns (m :: row)
              end
          end
      end
  end.

(** The loop [for armId in range(nbArms)], on the arms [armIds]. *)
Fixpoint means_of_arms (listOfMeans : list (list R)) (changePoints : list Z)
    (horizon : nat) (armIds : list nat) : outcome (list (list R)) :=
  match armIds with
  | [] => Returns []
  | armId :: armIds' =>
      match means_of_arm listOfMeans changePoints armId 0 (seq 0 horizon) with
      | Raises e => Raises e
      | Returns row =>
          match means_of_arms listOfMeans changePoints horizon armIds' with
          | Raises e => Raises e
          | Returns rows => Returns (row :: rows)
          end
      end
  end.

(** [getFullHistoryOfMeans(problem, horizon)]; [np.ones] refuses a
    negative horizon. *)
Definition getFullHistoryOfMeans (problem : option Z -> Problem)
    (horizon : option Z) : outcome (list (list R)) :=
  let pb := problem horizon in
  match listOfMeans pb with
  | [] => Raises E_IndexError
  | means0 :: _ =>
      let nbArms := length means0 in
      match (match horizon with
             | None => np_max (changePoints pb)
             | Some h => Returns h
             end) with
      | Raises e => Raises e
      | Returns horizon =>
          if (horizon <? 0)%Z then Raises E_ValueError
          else means_of_arms (listOfMeans pb) (changePoints pb)
                 (Z.to_nat horizon) (seq 0 nbArms)
      end
  end.

(** [toy_problem_piecewise(firstMean, secondMean, tau)] *)
Definition toy_problem_piecewise (firstMean secondMean : R) (tau : Z)
    : option Z -> Problem :=
  fun _ => mkProblem [[firstMean]; [secondMean]] [0%Z; tau].

(** The entry of the row [armId] at the time [t]. *)
Definition mean_at (meansOfArms : list (list R)) (armId t : nat) : option R :=
  match nth_error meansOfArms armId with
  | Some row => nth_error row t
  | None => None
  end.

(** The counter is at [nb] at the time [t]: the change point [nb] is
    passed (the first one counts as passed) and the next one is not. *)
Definition segment_of (changePoints : list Z) (nb : nat) (t : Z) : Prop :=
  (nb = 0%nat \/ ((nb < length changePoints)%nat /\ (nth nb changePoints 0 <= t)%Z)) /\
  ((nb + 1 < length changePoints)%nat -> (t < nth (nb + 1) changePoints 0)%Z).

(** ** Arrays of [float64] *)

(** [a / b]; a zero denominator is that of an integer, of positive sign. *)
Definition fdiv (a b : fval) : fval :=
  match a, b with
  | NaN, _ | _, NaN => NaN
  | Fin x, Fin y =>
      if Reqb y 0
      then (if Rltb 0 x then PInf else if Rltb x 0 then NInf else NaN)
      else Fin (x / y)
  | Fin _, PInf | Fin _, NInf => Fin 0
  | PInf, Fin y => if Rltb y 0 then NInf else PInf
  | NInf, Fin y => if Rltb y 0 then PInf else NInf
  | PInf, PInf | PInf, NInf | NInf, PInf | NInf, NInf => NaN
  end.

(** [a + b] *)
Definition fadd (a b : fval) : fval :=
  match a, b with
  | NaN, _ | _, NaN => NaN
  | Fin x, Fin y => Fin (x + y)
  | PInf, NInf | NInf, PInf => NaN
  | PInf, _ | _, PInf => PInf
  | NInf, _ | _, NInf => NInf
  end.

(** The operation [f] entry by entry on two arrays of the same length. *)
Definition map2 {A B C : Type} (f : A -> B -> C) (a : list A) (b : list B) : list C :=
  map (fun p => f (fst p) (snd p)) (combine a b).

(** A binary operation of numpy on two arrays of one dimension: entry
    by entry, an array of one entry being repeated, and [ValueError]
    for two lengths that do not agree. *)
Definition broadcast {A B C : Type} (f : A -> B -> C) (a : list A) (b : list B)
    : outcome (list C) :=
  if Nat.eqb (length a) (length b) then Returns (map2 f a b)
  else
    match a, b with
    | [x], _ => Returns (map (f x) b)
    | _, [y] => Returns (map (fun x => f x y) a)
    | _, _ => Raises E_ValueError
    end.

(** [a[mask] = v] for an array of booleans [mask]: [IndexError] when
    the lengths differ. *)
Definition set_where {A : Type} (mask : list bool) (v : A) (a : list A)
    : outcome (list A) :=
  if Nat.eqb (length mask) (length a)
  then Returns (map2 (fun (m : bool) x => if m then v else x) mask a)
  else Raises E_IndexError.

(** ** The policy UCB-alpha *)

Module UCBalpha.

(** The attributes of the policy that its indexes read. *)
Record policy : Type := mkPolicy {
  alpha : R;
  t : Z;
  pulls : list Z;
  rewards : list R
}.

(** [computeIndex(self, arm)], with [sqrt] and [log] of [math], which
    raise [ValueError] out of their domains. *)
Definition computeIndex (self : policy) (arm : nat) : outcome fval :=
  match nth_error (pulls self) arm with
  | None => Raises E_IndexError
  | Some n =>
      if (n <? 1)%Z then Returns PInf
      else
        match nth_error (rewards self) arm with
        | None => Raises E_IndexError
        | Some r =>
            if (t self <=? 0)%Z then Raises E_ValueError
            else
              let x := (alpha self * ln (IZR (t self))) / IZR (2 * n) in
              if Rltb x 0 then Raises E_ValueError
              else Returns (Fin (r / IZR n + sqrt x))
        end
  end.

(** [computeAllIndex(self)], with [np.sqrt] and [np.log]: the value
    given to [self.index]. *)
Definition computeAllIndex (self : policy) : outcome (list fval) :=
  match broadcast fdiv (map Fin (rewards self))
          (map (fun n => Fin (IZR n)) (pulls self)) with
  | Raises e => Raises e
  | Returns means =>
      let bonus :=
        map (fun n => np_sqrt (fdiv (fmul (Fin (alpha self)) (np_log (IZR (t self))))
                                    (Fin (IZR (2 * n)))))
            (pulls self) in
      match broadcast fadd means bonus with
      | Raises e => Raises e
      | Returns indexes =>
          set_where (map (fun n => (n <? 1)%Z) (pulls self)) PInf indexes
      end
  end.

End UCBalpha.

(** ** The accumulators of a simulation *)

(** The index [i] of an array of length [len], as numpy reads it: a
    negative index counts from the end. *)
Definition np_index (len : nat) (i : Z) : option nat :=
  if ((0 <=? i) && (i <? Z.of_nat len))%Z then Some (Z.to_nat i)
  else if ((- Z.of_nat len <=? i) && (i <? 0))%Z
       then Some (Z.to_nat (Z.of_nat len + i))
       else None.

(** [np.zeros(n)]; [ValueError] for a negative [n]. *)
Definition np_zeros {A : Type} (zero : A) (n : Z) : outcome (list A) :=
  if (n <? 0)%Z then Raises E_ValueError else Returns (repeat zero (Z.to_nat n)).

Module ResultClass.

(** The attributes of a [Result]. *)
Record result : Type := mkResult {
  delta_t_save : Z;
  choices : list Z;
  rewards : list R;
  rewardsSquared : list R;
  pulls : list Z
}.

(** [Result(nbArms, horizon, delta_t_save)]; [int(horizon / delta_t_save)]
    is the quotient truncated towards zero. *)
Definition __init__ (nbArms horizon delta_t_save : Z) : outcome result :=
  if (delta_t_save =? 0)%Z then Raises E_ZeroDivisionError
  else
    let duration := Z.quot horizon delta_t_save in
    match np_zeros 0%Z duration with
    | Raises e => Raises e
    | Returns choices =>
        match np_zeros 0 duration with
        | Raises e => Raises e
        | Returns rewards =>
            match np_zeros 0 duration with
            | Raises e => Raises e
            | Returns rewardsSquared =>
                match np_zeros 0%Z nbArms with
                | Raises e => Raises e
                | Returns pulls =>
                    Returns (mkResult delta_t_save choices rewards rewardsSquared pulls)
                end
            end
        end
    end.

(** [store(self, time, choice, reward)]: the object after the call, and
    the exception if the call raised one. *)
Definition store (self : result) (time choice : Z) (reward : R)
    : result * option Exception :=
  if (delta_t_save self =? 0)%Z then (self, Some E_ZeroDivisionError)
  else
    let time := Z.quot time (delta_t_save self) in
    match np_index (length (choices self)) time with
    | None => (self, Some E_IndexError)
    | Some k =>
        let self := mkResult (delta_t_save self)
                      (list_update (choices self) k choice)
                      (rewards self) (rewardsSquared self) (pulls self) in
        match np_index (length (rewards self)) time with
        | None => (self, Some E_IndexError)
        | Some k =>
            let self := mkResult (delta_t_save self) (choices self)
                          (list_update (rewards self) k reward)
                          (rewardsSquared self) (pulls self) in
            match np_index (length (rewardsSquared self)) time with
            | None => (self, Some E_IndexError)
            | Some k =>
                let self := mkResult (delta_t_save self) (choices self)
                              (rewards self)
                              (list_update (rewardsSquared self) k (reward ^ 2))
                              (pulls self) in
                match np_index (length (pulls self)) choice with
                | None => (self, Some E_IndexError)
                | Some a =>
                    (mkResult (delta_t_save self) (choices self) (rewards self)
                       (rewardsSquared self)
                       (list_update (pulls self) a (nth a (pulls self) 0 + 1)%Z),
                     None)
                end
            end
        end
    end.

(** A sequence of calls of [store], which stops at the first exception. *)
Fixpoint store_all (self : result) (calls : list (Z * Z * R))
    : result * option Exception :=
  match calls with
  | [] => (self, None)
  | (time, choice, reward) :: calls' =>
      match store self time choice reward with
      | (self', None) => store_all self' calls'
      | (self', Some e) => (self', Some e)
      end
  end.

End ResultClass.

(** The number of the calls whose choice is the arm [a] of [nbArms]. *)
Definition stores_of (nbArms : nat) (a : nat) (calls : list (Z * Z * R)) : Z :=
  Z.of_nat (length (filter (fun c =>
     match np_index nbArms (snd (fst c)) with
     | Some a' => Nat.eqb a' a
     | None => false
     end) calls)).

(** The shape of a [Result], and the squares that it keeps. *)
Definition result_inv (duration nbArms : nat) (delta : Z)
    (self : ResultClass.result) : Prop :=
  ResultClass.delta_t_save self = delta /\
  length (ResultClass.choices self) = duration /\
  length (ResultClass.rewards self) = duration /\
  length (ResultClass.rewardsSquared self) = duration /\
  length (ResultClass.pulls self) = nbArms /\
  forall i x, nth_error (ResultClass.rewards self) i = Some x ->
    nth_error (ResultClass.rewardsSquared self) i = Some (x ^ 2).

Local Close Scope R_scope.

(** ** Relations between the states of a run *)

(** Every run of [m] ends, normally or not, in a state related by [rel]
    to the state it started in. *)
Definition keeps (rel : State -> State -> Prop) {A : Type} (m : M A) : Prop :=
  forall s, rel s (final (m s)).

(** A computation is quiet when it leaves the rewards and the pulls as
    they are and adds no draw to the log of calls. *)
Definition no_draw (new_calls : list Event) : Prop :=
  forall arm t r, ~ In (EvDraw arm t r) new_calls.

(** From [s] to [s'] the rewards and the pulls are the same and no draw
    was added to the calls. *)
Definition quiet_step (s s' : State) : Prop :=
  rewards s' = rewards s /\ pulls s' = pulls s /\
  exists new_calls, calls s' = calls s ++ new_calls /\ no_draw new_calls.

(** Every run of [m] is quiet. *)
Definition quiet {A : Type} (m : M A) : Prop := keeps quiet_step m.

(** From [s] to [s'] the calls of the round were added, and a player who
    was not granted the arm it chose has its reward and its row of the
    pulls as before. *)
Definition framed_step (choices : list nat) (s s' : State) : Prop :=
  exists new_calls,
    calls s' = calls s ++ new_calls /\
    forall p,
      (forall arm, nth_error choices p = Some arm -> ~ granted new_calls p arm) ->
      nth_error (rewards s') p = nth_error (rewards s) p /\
      nth_error (pulls s') p = nth_error (pulls s) p.

(** ** One step of [onlyUniqUserGetsReward] *)

(** The body of the loop of [onlyUniqUserGetsReward] on the players. *)
Definition uniq_body (t : nat) (arms : list Arm) (choices : list nat)
    (ip : nat * Player) : M unit :=
  let nbCollisions :=
    map (fun arm => (Z.of_nat (occupancy choices arm) - 1)%Z) (seq 0 (length arms)) in
  let '(i, player) := ip in
  c <- getitem choices i ;;
  n <- getitem nbCollisions c ;;
  if (n <? 1)%Z then
    r <- arm_draw arms c t ;;
    set_reward i r ;;;
    r' <- get_reward i ;;
    log (EvGetReward i c r') ;;;
    incr_pulls i c
  else
    incr_collisions c 1 ;;;
    signal_collision player i c.

(** The number of players, among the first [k], who are not alone on the
    arm they chose. *)
Definition colliders (choices : list nat) (k : nat) : nat :=
  length (filter (fun c => Nat.leb 2 (occupancy choices c)) (firstn k choices)).

(** The arrays of [s] have the sizes of the round. *)
Record shaped (nbPlayers nbArms : nat) (s : State) : Prop := mkShaped {
  sh_rewards : length (rewards s) = nbPlayers;
  sh_pulls : length (pulls s) = nbPlayers;
  sh_rows : forall row, In row (pulls s) -> length row = nbArms;
  sh_collisions : length (collisions s) = nbArms
}.

(** What [onlyUniqUserGetsReward] has done to each player once the first
    [k] players are resolved. *)
Definition uniq_outcome (t : nat) (choices : list nat) (s0 s : State)
    (new_calls : list Event) (k : nat) : Prop :=
  forall i c, nth_error choices i = Some c ->
    if Nat.ltb i k && Nat.eqb (occupancy choices c) 1 then
      exists r row x,
        nth_error (rewards s) i = Some r /\
        granted_value new_calls i c t r /\
        nth_error (pulls s0) i = Some row /\
        nth_error row c = Some x /\
        nth_error (pulls s) i = Some (list_update row c (x + 1)%Z)
    else
      nth_error (rewards s) i = nth_error (rewards s0) i /\
      nth_error (pulls s) i = nth_error (pulls s0) i.

(** What a step of [onlyUniqUserGetsReward] keeps true. *)
Definition uniq_inv (t : nat) (choices : list nat) (nbPlayers nbArms : nat)
    (s0 : State) (k : nat) (s : State) : Prop :=
  shaped nbPlayers nbArms s /\
  sumZ (collisions s) = (sumZ (collisions s0) + Z.of_nat (colliders choices k))%Z /\
  exists new_calls,
    calls s = calls s0 ++ new_calls /\ uniq_outcome t choices s0 s new_calls k.

(** The number of players, among the first [k], who are alone on the arm
    they chose: the number of draws made when the turn of player [k]
    comes. *)
Definition loners (choices : list nat) (k : nat) : nat :=
  length (filter (fun c => Nat.eqb (occupancy choices c) 1) (firstn k choices)).

(** The draws of [onlyUniqUserGetsReward] once the first [k] players are
    resolved: the generator has given one word per player who is alone
    on its arm, and such a player of rank [i] has the draw of the arm it
    chose, made with the word of index [loners choices i]. *)
Definition uniq_draws (t : nat) (arms : list Arm) (choices : list nat)
    (s0 s : State) (new_calls : list Event) (k : nat) : Prop :=
  rng s = skipn (loners choices k) (rng s0) /\
  forall i c, i < k -> nth_error choices i = Some c -> occupancy choices c = 1 ->
    exists a,
      nth_error arms c = Some a /\
      nth_error (rewards s) i = Some (a t (nth (loners choices i) (rng s0) 0)) /\
      granted_value new_calls i c t (a t (nth (loners choices i) (rng s0) 0)).

(** ** One step of [rewardIsSharedUniformly] and of [closerUserGetsReward] *)

(** The events by which the players of [who], but [i], learn of a collision. *)
Fixpoint signals (players : list Player) (who : list nat) (i arm : nat) : list Event :=
  match who with
  | [] => []
  | j :: who' =>
      if Nat.eqb i j then signals players who' i arm
      else
        match nth_error players j with
        | Some player => collision_event player j arm :: signals players who' i arm
        | None => []
        end
  end.

(** What a step on one arm keeps true, for the count of the collisions. *)
Definition arms_inv (choices : list nat) (nbPlayers nbArms : nat) (s0 : State)
    (k : nat) (s : State) : Prop :=
  shaped nbPlayers nbArms s /\
  sumZ (collisions s) = (sumZ (collisions s0) + sum_over_arms (excess choices) k)%Z.

(** ** The closest player *)

(** The distances of the players of [who]. *)
Definition distances_of (d : list Q) (who : list nat) : list Q :=
  map (fun j => nth j d 0%Q) who.

(** [np.min] of a non-empty array. *)
Definition min_of (a : list Q) : Q := fold_left Qmin2 (tl a) (hd 0%Q a).

(** The player of [who] that [closerUserGetsReward] lets pull. *)
Definition closest (d : list Q) (who : list nat) : nat :=
  nth (index_of (distances_of d who) (min_of (distances_of d who))) who 0.

(** No two values of [l] are equal as rational numbers. *)
Fixpoint all_distinct (l : list Q) : Prop :=
  match l with
  | [] => True
  | x :: l' => (forall y, In y l' -> ~ (x == y)%Q) /\ all_distinct l'
  end.

(** The body of the loop of [closerUserGetsReward], once the distances are known. *)
Definition closer_body (t : nat) (arms : list Arm) (players : list Player)
    (choices : list nat) (distances : list Q) (arm : nat) : M unit :=
  let players_who_chose_it := nonzero_eq choices arm in
  if Nat.ltb 0 (length players_who_chose_it) then
    incr_collisions arm (Z.of_nat (length players_who_chose_it) - 1)%Z ;;;
    distancesChosen <- take distances players_who_chose_it ;;
    smaller_distance <- np_min distancesChosen ;;
    i <- (if Nat.eqb (count_eq distancesChosen smaller_distance) 1
          then getitem players_who_chose_it (index_of distancesChosen smaller_distance)
          else raise ValueError) ;;
    pull_and_signal t arms players arm players_who_chose_it i
  else ret tt.

(** What [closerUserGetsReward] has done once the arms below [k] are
    resolved, with the distances [d]. *)
Definition closer_outcome (t : nat) (players : list Player) (choices : list nat)
    (d : list Q) (s0 s : State) (new_calls : list Event) (k : nat) : Prop :=
  (forall j c, nth_error choices j = Some c -> k <= c ->
     nth_error (rewards s) j = nth_error (rewards s0) j /\
     nth_error (pulls s) j = nth_error (pulls s0) j) /\
  (forall arm, arm < k -> 1 <= occupancy choices arm ->
     exists i,
       nth_error choices i = Some arm /\
       (forall j, nth_error choices j = Some arm -> (nth i d 0 <= nth j d 0)%Q) /\
       (exists r, nth_error (rewards s) i = Some r /\
                  granted_value new_calls i arm t r) /\
       (exists row x,
          nth_error (pulls s0) i = Some row /\
          nth_error row arm = Some x /\
          nth_error (pulls s) i = Some (list_update row arm (x + 1)%Z)) /\
       (forall j, j <> i -> nth_error choices j = Some arm ->
          signalled players new_calls j arm /\
          nth_error (rewards s) j = nth_error (rewards s0) j /\
          nth_error (pulls s) j = nth_error (pulls s0) j)).

(** What a step of [closerUserGetsReward] keeps true. *)
Definition closer_inv (t : nat) (players : list Player) (choices : list nat)
    (d : list Q) (nbArms : nat) (s0 : State) (k : nat) (s : State) : Prop :=
  shaped (length players) nbArms s /\
  exists new_calls,
    calls s = calls s0 ++ new_calls /\
    closer_outcome t players choices d s0 s new_calls k.

(** ** An example round *)

(** An arm whose draw is a tenth of the word of the generator, and a
    round of two players who both choose arm 0. *)
Definition example_arm : Arm := fun _ w => Qmake (Z.of_nat w) 10.

Definition example_players : list Player := [mkPlayer true; mkPlayer false].

Definition example_state : State :=
  mkState [0%Q; 0%Q] [[0%Z; 0%Z]; [0%Z; 0%Z]] [0%Z; 0%Z] [3; 4; 5] [] [].

(** ** One step of [noCollision] *)

(** The body of the loop of [noCollision] on the players. *)
Definition nocoll_body (t : nat) (arms : list Arm) (choices : list nat)
    (ip : nat * Player) : M unit :=
  let '(i, player) := ip in
  c <- getitem choices i ;;
  r <- arm_draw arms c t ;;
  set_reward i r ;;;
  r' <- get_reward i ;;
  log (EvGetReward i c r') ;;;
  incr_pulls i c.

(** What [noCollision] has done to each player once the first [k] players
    are resolved: player [i] drew with the word of index [i] of the
    generator. *)
Definition nocoll_outcome (t : nat) (arms : list Arm) (choices : list nat)
    (s0 s : State) (new_calls : list Event) (k : nat) : Prop :=
  forall i c, nth_error choices i = Some c ->
    if Nat.ltb i k then
      exists a row x,
        nth_error arms c = Some a /\
        nth_error (rewards s) i = Some (a t (nth i (rng s0) 0)) /\
        granted_value new_calls i c t (a t (nth i (rng s0) 0)) /\
        nth_error (pulls s0) i = Some row /\
        nth_error row c = Some x /\
        nth_error (pulls s) i = Some (list_update row c (x + 1)%Z)
    else
      nth_error (rewards s) i = nth_error (rewards s0) i /\
      nth_error (pulls s) i = nth_error (pulls s0) i.

(** What a step of [noCollision] keeps true. *)
Definition nocoll_inv (t : nat) (arms : list Arm) (choices : list nat)
    (nbPlayers : nat) (s0 : State) (k : nat) (s : State) : Prop :=
  shaped nbPlayers (length arms) s /\
  collisions s = collisions s0 /\
  rng s = skipn k (rng s0) /\
  exists new_calls,
    calls s = calls s0 ++ new_calls /\ nocoll_outcome t arms choices s0 s new_calls k.

(** ** The outcome of [rewardIsSharedUniformly] *)

(** The body of the loop of [rewardIsSharedUniformly] on the arms. *)
Definition shared_body (t : nat) (arms : list Arm) (players : list Player)
    (choices : list nat) (arm : nat) : M unit :=
  let players_who_chose_it := nonzero_eq choices arm in
  if Nat.ltb 0 (length players_who_chose_it) then
    incr_collisions arm (Z.of_nat (length players_who_chose_it) - 1)%Z ;;;
    i <- random_choice players_who_chose_it ;;
    pull_and_signal t arms players arm players_who_chose_it i
  else ret tt.

(** A call of the round is about an arm below [k], and a call on a player
    names the arm that the player chose. *)
Definition call_on_own_arm (choices : list nat) (k : nat) (e : Event) : Prop :=
  match e with
  | EvDraw arm _ _ => arm < k
  | EvGetReward p arm _ => nth_error choices p = Some arm /\ arm < k
  | EvHandleCollision p arm => nth_error choices p = Some arm /\ arm < k
  end.

(** What [rewardIsSharedUniformly] has done once the arms below [k] are
    resolved. *)
Definition shared_outcome (t : nat) (players : list Player) (choices : list nat)
    (s0 s : State) (new_calls : list Event) (k : nat) : Prop :=
  (forall j, (forall c, nth_error choices j = Some c -> k <= c) ->
     nth_error (rewards s) j = nth_error (rewards s0) j /\
     nth_error (pulls s) j = nth_error (pulls s0) j) /\
  (forall arm, arm < k -> 1 <= occupancy choices arm ->
     exists i,
       nth_error choices i = Some arm /\
       (exists r, nth_error (rewards s) i = Some r /\
                  granted_value new_calls i arm t r) /\
       (exists row x,
          nth_error (pulls s0) i = Some row /\
          nth_error row arm = Some x /\
          nth_error (pulls s) i = Some (list_update row arm (x + 1)%Z)) /\
       (forall j, j <> i -> nth_error choices j = Some arm ->
          signalled players new_calls j arm /\
          nth_error (rewards s) j = nth_error (rewards s0) j /\
          nth_error (pulls s) j = nth_error (pulls s0) j)) /\
  Forall (call_on_own_arm choices k) new_calls /\
  (forall arm,
     nth_error (collisions s) arm =
     if Nat.ltb arm k
     then option_map (fun y => (y + excess choices arm)%Z) (nth_error (collisions s0) arm)
     else nth_error (collisions s0) arm).

(** What a step of [rewardIsSharedUniformly] keeps true. *)
Definition shared_inv (t : nat) (players : list Player) (choices : list nat)
    (nbArms : nat) (s0 : State) (k : nat) (s : State) : Prop :=
  shaped (length players) nbArms s /\
  exists new_calls,
    calls s = calls s0 ++ new_calls /\
    shared_outcome t players choices s0 s new_calls k.

(** ** The words of the generator *)

(** The next [n] words of a tape (an exhausted tape gives zeros). *)
Definition words (n : nat) (tape : list nat) : list nat :=
  map (fun i => nth i tape 0) (seq 0 n).

(** ** The collisions that [onlyUniqUserGetsReward] counts, arm by arm *)

(** What [onlyUniqUserGetsReward] has done to the collisions and to the
    players who are not alone, once the first [k] players are resolved. *)
Definition uniq_collisions (players : list Player) (choices : list nat)
    (s0 s : State) (new_calls : list Event) (k : nat) : Prop :=
  (forall arm,
     nth_error (collisions s) arm =
     option_map
       (fun y => if Nat.leb 2 (occupancy choices arm)
                 then (y + Z.of_nat (occupancy (firstn k choices) arm))%Z
                 else y)
       (nth_error (collisions s0) arm)) /\
  (forall i c, i < k -> nth_error choices i = Some c ->
     2 <= occupancy choices c -> signalled players new_calls i c).

(** ** The draws of a round *)

(** Every draw of [new_calls] is a draw of the arm it names: its value
    is what this arm of [arms] gives, at the time of the draw, with some
    word of the generator. *)
Definition drawn_from (arms : list Arm) (new_calls : list Event) : Prop :=
  forall c t r, In (EvDraw c t r) new_calls ->
    exists a w, nth_error arms c = Some a /\ r = a t w.

(** From [s] to [s'] calls were added, and the draws among them are
    draws of [arms]. *)
Definition sound_step (arms : list Arm) (s s' : State) : Prop :=
  exists new_calls, calls s' = calls s ++ new_calls /\ drawn_from arms new_calls.

(** The distances that [random_distances(2)] draws in the example round,
    and the state it leaves. *)
Definition example_random_distances : list Q := map word_to_unit [3; 4].

Definition example_state_drawn : State :=
  mkState [0%Q; 0%Q] [[0%Z; 0%Z]; [0%Z; 0%Z]] [0%Z; 0%Z] [5]
          [(2, example_random_distances)] [].

(** * Properties of the collision models *)

(** ** Lists *)

Lemma list_update_length {A : Type} (l : list A) (i : nat) (x : A) :
  length (list_update l i x) = length l.
Proof.
  revert i; induction l as [|y l IH]; intros [|i]; simpl; auto.
Qed.

Lemma nth_error_list_update_eq {A : Type} (l : list A) (i : nat) (x : A) :
  i < length l -> nth_error (list_update l i x) i = Some x.
Proof.
  revert i; induction l as [|y l IH]; intros [|i] H; simpl in *; try lia; auto.
  apply IH; lia.
Qed.

Lemma nth_error_list_update_neq {A : Type} (l : list A) (i j : nat) (x : A) :
  i <> j -> nth_error (list_update l i x) j = nth_error l j.
Proof.
  revert i j; induction l as [|y l IH]; intros [|i] [|j] H; simpl; auto; try lia.
Qed.

Lemma In_list_update {A : Type} (l : list A) (i : nat) (x y : A) :
  In y (list_update l i x) -> y = x \/ In y l.
Proof.
  revert i; induction l as [|z l IH]; intros [|i] H; simpl in *; auto.
  - destruct H; auto.
  - destruct H as [H|H]; auto. destruct (IH _ H); auto.
Qed.

Lemma sumZ_list_update (l : list Z) (i : nat) (n m : Z) :
  nth_error l i = Some n -> sumZ (list_update l i m) = (sumZ l - n + m)%Z.
Proof.
  revert i; induction l as [|y l IH]; intros [|i] H; simpl in *; try discriminate.
  - inversion H; subst. lia.
  - rewrite (IH _ H). lia.
Qed.

(** ** Computations that stop in a related state *)

Lemma final_bind {A B : Type} (m : M A) (k : A -> M B) (s : State) :
  final (bind m k s) = match m s with
                       | Ok a s' => final (k a s')
                       | Raise _ s' => s'
                       end.
Proof. unfold bind. destruct (m s); reflexivity. Qed.

Section Related.
Variable rel : State -> State -> Prop.
Hypothesis rel_refl : forall s, rel s s.
Hypothesis rel_trans : forall s1 s2 s3, rel s1 s2 -> rel s2 s3 -> rel s1 s3.

Lemma keeps_ret {A : Type} (a : A) : keeps rel (ret a).
Proof. intro s. apply rel_refl. Qed.

Lemma keeps_raise {A : Type} (e : Exn) : keeps rel (@raise A e).
Proof. intro s. apply rel_refl. Qed.

Lemma keeps_bind {A B : Type} (m : M A) (k : A -> M B) :
  keeps rel m -> (forall a, keeps rel (k a)) -> keeps rel (bind m k).
Proof.
  intros Hm Hk s. rewrite final_bind. specialize (Hm s).
  destruct (m s) as [a s'|e s']; simpl in Hm; auto.
  eapply rel_trans; [exact Hm | apply Hk].
Qed.

Lemma keeps_getitem {A B : Type} (l : list A) (i : nat) (k : A -> M B) :
  (forall a, nth_error l i = Some a -> keeps rel (k a)) ->
  keeps rel (bind (getitem l i) k).
Proof.
  intros Hk s. unfold bind, getitem.
  destruct (nth_error l i) as [a|] eqn:E; simpl.
  - apply (Hk a eq_refl).
  - apply rel_refl.
Qed.

Lemma keeps_forM_ {A : Type} (l : list A) (body : A -> M unit) :
  (forall x, In x l -> keeps rel (body x)) -> keeps rel (forM_ l body).
Proof.
  induction l as [|x l IH]; intros H; simpl.
  - apply keeps_ret.
  - apply keeps_bind; [apply H; left; reflexivity|].
    intros _. apply IH. intros y Hy. apply H. right; exact Hy.
Qed.
End Related.

Lemma quiet_step_refl (s : State) : quiet_step s s.
Proof.
  repeat split. exists []. rewrite app_nil_r. split; [reflexivity|].
  intros arm t r H; inversion H.
Qed.

Lemma quiet_step_trans (s1 s2 s3 : State) :
  quiet_step s1 s2 -> quiet_step s2 s3 -> quiet_step s1 s3.
Proof.
  intros (R1 & P1 & n1 & C1 & D1) (R2 & P2 & n2 & C2 & D2).
  repeat split; try congruence.
  exists (n1 ++ n2). split.
  - rewrite C2, C1, app_assoc. reflexivity.
  - intros arm t r H. apply in_app_or in H. destruct H as [H|H].
    + exact (D1 _ _ _ H).
    + exact (D2 _ _ _ H).
Qed.

Lemma quiet_log_getReward (i arm : nat) (r : Q) : quiet (log (EvGetReward i arm r)).
Proof.
  intro s. simpl. repeat split. eexists; split; [reflexivity|].
  intros a t r' [H|[]]; discriminate.
Qed.

Lemma quiet_log_handleCollision (i arm : nat) : quiet (log (EvHandleCollision i arm)).
Proof.
  intro s. simpl. repeat split. eexists; split; [reflexivity|].
  intros a t r' [H|[]]; discriminate.
Qed.

Lemma quiet_signal_collision (player : Player) (j arm : nat) :
  quiet (signal_collision player j arm).
Proof.
  unfold signal_collision. destruct (hasHandleCollision player).
  - apply quiet_log_handleCollision.
  - apply quiet_log_getReward.
Qed.

Lemma quiet_incr_collisions (arm : nat) (k : Z) : quiet (incr_collisions arm k).
Proof.
  intro s. unfold incr_collisions.
  destruct (nth_error (collisions s) arm); simpl; apply quiet_step_refl || idtac.
  repeat split. exists []. rewrite app_nil_r. split; [reflexivity|].
  intros a t r H; inversion H.
Qed.

Lemma quiet_next_word : quiet next_word.
Proof.
  intro s. simpl. repeat split. exists []. rewrite app_nil_r. split; [reflexivity|].
  intros a t r H; inversion H.
Qed.

Lemma quiet_random_choice (a : list nat) : quiet (random_choice a).
Proof.
  destruct a as [|x a]; simpl.
  - apply keeps_raise, quiet_step_refl.
  - apply keeps_bind.
    + exact quiet_step_trans.
    + apply quiet_next_word.
    + intros w. apply keeps_ret, quiet_step_refl.
Qed.

Lemma quiet_take {A : Type} (l : list A) (indices : list nat) : quiet (take l indices).
Proof.
  induction indices as [|i indices IH]; simpl.
  - apply keeps_ret, quiet_step_refl.
  - apply keeps_getitem; [exact quiet_step_refl|]. intros x _.
    apply keeps_bind; [exact quiet_step_trans | exact IH |].
    intros xs. apply keeps_ret, quiet_step_refl.
Qed.

Lemma quiet_np_min (a : list Q) : quiet (np_min a).
Proof.
  destruct a; simpl.
  - apply keeps_raise, quiet_step_refl.
  - apply keeps_ret, quiet_step_refl.
Qed.

Lemma quiet_random_sample (n : nat) : quiet (random_sample n).
Proof.
  induction n as [|n IH]; simpl.
  - apply keeps_ret, quiet_step_refl.
  - apply keeps_bind; [exact quiet_step_trans | apply quiet_next_word |].
    intros w. apply keeps_bind; [exact quiet_step_trans | exact IH |].
    intros l. apply keeps_ret, quiet_step_refl.
Qed.

Lemma quiet_random_distances (n : nat) : quiet (random_distances n).
Proof.
  intro s. unfold random_distances.
  destruct (cache_lookup n (cache s)); [apply quiet_step_refl|].
  revert s. apply keeps_bind; [exact quiet_step_trans | apply quiet_random_sample |].
  intros d. apply keeps_bind; [exact quiet_step_trans | | ].
  - intro s. simpl. repeat split. exists []. rewrite app_nil_r.
    split; [reflexivity|]. intros a t r H; inversion H.
  - intros _. apply keeps_ret, quiet_step_refl.
Qed.

(** ** The players who are not granted an arm *)

Lemma granted_app_l (n1 n2 : list Event) (p arm : nat) :
  granted n1 p arm -> granted (n1 ++ n2) p arm.
Proof.
  intros (t & r & pre & post & E). exists t, r, pre, (post ++ n2).
  rewrite E, <- app_assoc. reflexivity.
Qed.

Lemma granted_app_r (n1 n2 : list Event) (p arm : nat) :
  granted n2 p arm -> granted (n1 ++ n2) p arm.
Proof.
  intros (t & r & pre & post & E). exists t, r, (n1 ++ pre), post.
  rewrite E, <- app_assoc. reflexivity.
Qed.

Lemma framed_step_refl (choices : list nat) (s : State) : framed_step choices s s.
Proof. exists []. rewrite app_nil_r. auto. Qed.

Lemma framed_step_trans (choices : list nat) (s1 s2 s3 : State) :
  framed_step choices s1 s2 -> framed_step choices s2 s3 -> framed_step choices s1 s3.
Proof.
  intros (n1 & C1 & F1) (n2 & C2 & F2). exists (n1 ++ n2). split.
  - rewrite C2, C1, app_assoc. reflexivity.
  - intros p Hp.
    destruct (F1 p) as [R1 P1].
    { intros arm Ha G. apply (Hp arm Ha). apply granted_app_l, G. }
    destruct (F2 p) as [R2 P2].
    { intros arm Ha G. apply (Hp arm Ha). apply granted_app_r, G. }
    split; congruence.
Qed.

Lemma quiet_step_framed (choices : list nat) (s s' : State) :
  quiet_step s s' -> framed_step choices s s'.
Proof.
  intros (R & P & n & C & _). exists n. split; [exact C|].
  intros p _. rewrite R, P. auto.
Qed.

Lemma quiet_framed {A : Type} (choices : list nat) (m : M A) :
  quiet m -> keeps (framed_step choices) m.
Proof. intros H s. apply quiet_step_framed, H. Qed.

(** The state after a grant to player [i], whatever follows quietly. *)
Lemma framed_step_grant (choices : list nat) (s s' : State)
    (i arm t : nat) (r : Q) (post : list Event) :
  nth_error choices i = Some arm ->
  calls s' = calls s ++ EvDraw arm t r :: EvGetReward i arm r :: post ->
  (forall p, p <> i ->
     nth_error (rewards s') p = nth_error (rewards s) p /\
     nth_error (pulls s') p = nth_error (pulls s) p) ->
  framed_step choices s s'.
Proof.
  intros Hc Hcalls Hother. eexists. split; [exact Hcalls|].
  intros p Hp. destruct (Nat.eq_dec p i) as [->|Hne]; [|auto].
  exfalso. apply (Hp arm Hc). exists t, r, [], post. reflexivity.
Qed.

Lemma framed_step_silent (choices : list nat) (s s' : State) (new_calls : list Event) :
  rewards s' = rewards s -> pulls s' = pulls s ->
  calls s' = calls s ++ new_calls ->
  framed_step choices s s'.
Proof.
  intros R P C. exists new_calls. split; [exact C|].
  intros p _. rewrite R, P. auto.
Qed.

(** The grant of [onlyUniqUserGetsReward]. *)
Lemma framed_uniq_grant (choices : list nat) (arms : list Arm) (i c t : nat) :
  nth_error choices i = Some c ->
  keeps (framed_step choices)
    (r <- arm_draw arms c t ;;
     set_reward i r ;;;
     r' <- get_reward i ;;
     log (EvGetReward i c r') ;;;
     incr_pulls i c).
Proof.
  intros Hc s.
  unfold bind, arm_draw, getitem, next_word, log, ret, raise, set_reward,
    get_reward, incr_pulls, bind, getitem, ret, raise; simpl.
  destruct (nth_error arms c) as [a|]; simpl; [|apply framed_step_refl].
  destruct (Nat.ltb i (length (rewards s))) eqn:Hi; simpl.
  2:{ eapply framed_step_silent; simpl; reflexivity. }
  apply Nat.ltb_lt in Hi.
  rewrite nth_error_list_update_eq by exact Hi. simpl.
  destruct (nth_error (pulls s) i) as [row|] eqn:Hrow; simpl.
  2:{ eapply framed_step_grant with (post := []); simpl; eauto.
      - rewrite <- app_assoc. reflexivity.
      - intros p Hp. rewrite nth_error_list_update_neq by auto. auto. }
  destruct (nth_error row c) as [n|] eqn:Hn; simpl.
  2:{ eapply framed_step_grant with (post := []); simpl; eauto.
      - rewrite <- app_assoc. reflexivity.
      - intros p Hp. rewrite nth_error_list_update_neq by auto. auto. }
  eapply framed_step_grant with (post := []); simpl; eauto.
  - rewrite <- app_assoc. reflexivity.
  - intros p Hp. rewrite !nth_error_list_update_neq by auto. auto.
Qed.

Lemma framed_onlyUniq (t : nat) (arms : list Arm) (players : list Player)
    (choices : list nat) :
  keeps (framed_step choices) (onlyUniqUserGetsReward t arms players choices).
Proof.
  unfold onlyUniqUserGetsReward.
  apply keeps_forM_;
    [apply framed_step_refl | apply framed_step_trans |].
  intros [i player] _.
  apply keeps_getitem; [apply framed_step_refl|]. intros c Hc.
  apply keeps_getitem; [apply framed_step_refl|]. intros n _.
  destruct (n <? 1)%Z.
  - apply framed_uniq_grant, Hc.
  - apply quiet_framed.
    apply keeps_bind; [exact quiet_step_trans | apply quiet_incr_collisions |].
    intros _. apply quiet_signal_collision.
Qed.

Lemma In_nonzero_eq_from (start : nat) (choices : list nat) (arm i : nat) :
  In i (nonzero_eq_from start choices arm) <->
  start <= i /\ nth_error choices (i - start) = Some arm.
Proof.
  revert start; induction choices as [|c cs IH]; intros start; simpl.
  - split; [intros []|]. intros [_ H]. destruct (i - start); discriminate.
  - destruct (Nat.eqb_spec c arm) as [->|Hne]; simpl; rewrite IH; split.
    + intros [<-|[H1 H2]].
      * rewrite Nat.sub_diag. auto.
      * split; [lia|]. replace (i - start) with (S (i - S start)) by lia. exact H2.
    + intros [H1 H2]. destruct (Nat.eq_dec start i) as [->|Hd]; [auto|right].
      split; [lia|]. replace (i - start) with (S (i - S start)) in H2 by lia. exact H2.
    + intros [H1 H2]. split; [lia|].
      replace (i - start) with (S (i - S start)) by lia. exact H2.
    + intros [H1 H2]. destruct (Nat.eq_dec start i) as [->|Hd].
      * rewrite Nat.sub_diag in H2. simpl in H2. congruence.
      * split; [lia|]. replace (i - start) with (S (i - S start)) in H2 by lia. exact H2.
Qed.

Lemma In_nonzero_eq (choices : list nat) (arm i : nat) :
  In i (nonzero_eq choices arm) <-> nth_error choices i = Some arm.
Proof.
  unfold nonzero_eq. rewrite In_nonzero_eq_from, Nat.sub_0_r.
  split; [intros [_ H]; exact H | intros H; split; [lia | exact H]].
Qed.

Lemma nonzero_eq_lt (choices : list nat) (arm i : nat) :
  In i (nonzero_eq choices arm) -> i < length choices.
Proof.
  rewrite In_nonzero_eq. intros H. apply nth_error_Some. congruence.
Qed.

Lemma keeps_random_choice (rel : State -> State -> Prop) {B : Type}
    (a : list nat) (k : nat -> M B) :
  (forall s, rel s s) ->
  (forall s1 s2 s3, rel s1 s2 -> rel s2 s3 -> rel s1 s3) ->
  (forall s s', quiet_step s s' -> rel s s') ->
  (forall i, In i a -> keeps rel (k i)) ->
  keeps rel (bind (random_choice a) k).
Proof.
  intros Hrefl Htrans Hq Hk s. unfold random_choice.
  destruct a as [|x a']; [apply Hrefl|].
  set (l := x :: a'). fold l in Hk.
  assert (Hl : length l <> 0) by (unfold l; simpl; discriminate).
  unfold bind, next_word, ret. cbv beta iota.
  eapply Htrans; [|apply Hk].
  - apply Hq. repeat split. exists []. simpl. rewrite app_nil_r.
    split; [reflexivity|]. intros arm t r H; inversion H.
  - apply nth_In. apply Nat.mod_upper_bound. exact Hl.
Qed.

Lemma quiet_signal_others (players : list Player) (who : list nat) (i arm : nat) :
  quiet (forM_ who (fun j =>
    if Nat.eqb i j then ret tt
    else player <- getitem players j ;; signal_collision player j arm)).
Proof.
  apply keeps_forM_; [exact quiet_step_refl | exact quiet_step_trans |].
  intros j _. destruct (Nat.eqb i j).
  - apply keeps_ret, quiet_step_refl.
  - apply keeps_getitem; [exact quiet_step_refl|].
    intros player _. apply quiet_signal_collision.
Qed.

Lemma arm_draw_eq (arms : list Arm) (arm t : nat) (s : State) :
  arm_draw arms arm t s =
  match nth_error arms arm with
  | Some a =>
      Ok (a t (hd 0 (rng s)))
         (mkState (rewards s) (pulls s) (collisions s) (tl (rng s)) (cache s)
                  (calls s ++ [EvDraw arm t (a t (hd 0 (rng s)))]))
  | None => Raise IndexError s
  end.
Proof.
  unfold arm_draw, bind, getitem, next_word, log, ret, raise.
  destruct (nth_error arms arm); reflexivity.
Qed.

(** The grant of [rewardIsSharedUniformly] and of [closerUserGetsReward]. *)
Lemma framed_pull_and_signal (choices : list nat) (t : nat) (arms : list Arm)
    (players : list Player) (arm : nat) (who : list nat) (i : nat) :
  nth_error choices i = Some arm ->
  i < length players ->
  keeps (framed_step choices) (pull_and_signal t arms players arm who i).
Proof.
  intros Hc Hlt s. unfold pull_and_signal.
  destruct (nth_error players i) as [pl|] eqn:Hpl.
  2:{ apply nth_error_None in Hpl. lia. }
  rewrite final_bind, arm_draw_eq.
  destruct (nth_error arms arm) as [a|]; [|apply framed_step_refl].
  rewrite final_bind. unfold set_reward at 1.
  cbn [rewards pulls collisions rng cache calls].
  destruct (Nat.ltb i (length (rewards s))) eqn:Hi.
  2:{ eapply framed_step_silent; reflexivity. }
  apply Nat.ltb_lt in Hi.
  rewrite final_bind. unfold getitem at 1. rewrite Hpl. unfold ret at 1.
  rewrite final_bind. unfold get_reward at 1, getitem at 1.
  cbn [rewards pulls collisions rng cache calls].
  rewrite nth_error_list_update_eq by exact Hi. unfold ret at 1.
  rewrite final_bind. unfold log at 1.
  rewrite final_bind. unfold incr_pulls at 1.
  cbn [rewards pulls collisions rng cache calls].
  destruct (nth_error (pulls s) i) as [row|] eqn:Hrow.
  2:{ eapply framed_step_grant with (post := []); eauto.
      - cbn [calls]. rewrite <- app_assoc. reflexivity.
      - intros p Hp. cbn [rewards pulls].
        rewrite nth_error_list_update_neq by auto. auto. }
  destruct (nth_error row arm) as [n|] eqn:Hn.
  2:{ eapply framed_step_grant with (post := []); eauto.
      - cbn [calls]. rewrite <- app_assoc. reflexivity.
      - intros p Hp. cbn [rewards pulls].
        rewrite nth_error_list_update_neq by auto. auto. }
  match goal with
  | |- framed_step _ _ (final (forM_ _ _ ?s4)) =>
      destruct (quiet_signal_others players who i arm s4) as (R & P & post & C & _)
  end.
  eapply framed_step_grant with (post := post); eauto.
  - rewrite C. cbn [calls]. rewrite <- !app_assoc. reflexivity.
  - intros p Hp. rewrite R, P. cbn [rewards pulls].
    rewrite !nth_error_list_update_neq by auto. auto.
Qed.

Lemma framed_rewardIsSharedUniformly (t : nat) (arms : list Arm)
    (players : list Player) (choices : list nat) :
  length choices = length players ->
  keeps (framed_step choices) (rewardIsSharedUniformly t arms players choices).
Proof.
  intros Hlen. unfold rewardIsSharedUniformly.
  apply keeps_forM_; [apply framed_step_refl | apply framed_step_trans |].
  intros arm _. cbv zeta.
  destruct (Nat.ltb 0 (length (nonzero_eq choices arm)));
    [|apply keeps_ret, framed_step_refl].
  apply keeps_bind;
    [apply framed_step_trans | apply quiet_framed, quiet_incr_collisions |].
  intros _.
  apply keeps_random_choice;
    [apply framed_step_refl | apply framed_step_trans | apply quiet_step_framed |].
  intros i Hi. apply framed_pull_and_signal.
  - apply In_nonzero_eq, Hi.
  - rewrite <- Hlen. eapply nonzero_eq_lt, Hi.
Qed.

Lemma framed_closerUserGetsReward (t : nat) (arms : list Arm)
    (players : list Player) (choices : list nat) (distances : DistancesArg) :
  length choices = length players ->
  keeps (framed_step choices) (closerUserGetsReward t arms players choices distances).
Proof.
  intros Hlen. unfold closerUserGetsReward.
  apply keeps_bind; [apply framed_step_trans | |].
  { apply quiet_framed. destruct distances.
    - apply keeps_ret, quiet_step_refl.
    - apply keeps_ret, quiet_step_refl.
    - apply quiet_random_distances.
    - apply keeps_ret, quiet_step_refl. }
  intros d.
  apply keeps_forM_; [apply framed_step_refl | apply framed_step_trans |].
  intros arm _. cbv zeta.
  destruct (Nat.ltb 0 (length (nonzero_eq choices arm)));
    [|apply keeps_ret, framed_step_refl].
  apply keeps_bind;
    [apply framed_step_trans | apply quiet_framed, quiet_incr_collisions |].
  intros _.
  apply keeps_bind; [apply framed_step_trans | apply quiet_framed, quiet_take |].
  intros dc.
  apply keeps_bind; [apply framed_step_trans | apply quiet_framed, quiet_np_min |].
  intros m.
  destruct (Nat.eqb (count_eq dc m) 1).
  - apply keeps_getitem; [apply framed_step_refl|]. intros i Hi.
    apply nth_error_In in Hi. apply framed_pull_and_signal.
    + apply In_nonzero_eq, Hi.
    + rewrite <- Hlen. eapply nonzero_eq_lt, Hi.
  - intro s. apply framed_step_refl.
Qed.

Lemma onlyUniq_unfold (t : nat) (arms : list Arm) (players : list Player)
    (choices : list nat) :
  onlyUniqUserGetsReward t arms players choices =
  forM_ (enumerate players) (uniq_body t arms choices).
Proof. reflexivity. Qed.

Lemma nth_error_nbCollisions (choices : list nat) (nbArms c : nat) :
  c < nbArms ->
  nth_error (map (fun arm => (Z.of_nat (occupancy choices arm) - 1)%Z) (seq 0 nbArms)) c
  = Some (Z.of_nat (occupancy choices c) - 1)%Z.
Proof.
  intros H. rewrite nth_error_map, nth_error_seq.
  destruct (Nat.ltb_spec c nbArms); [reflexivity | lia].
Qed.

Lemma uniq_body_alone (t : nat) (arms : list Arm) (choices : list nat)
    (i : nat) (player : Player) (s : State) (c : nat) (a : Arm) (row : list Z) (x : Z) :
  nth_error choices i = Some c ->
  nth_error arms c = Some a ->
  occupancy choices c <= 1 ->
  i < length (rewards s) ->
  nth_error (pulls s) i = Some row ->
  nth_error row c = Some x ->
  uniq_body t arms choices (i, player) s =
  Ok tt (mkState (list_update (rewards s) i (a t (hd 0 (rng s))))
                 (list_update (pulls s) i (list_update row c (x + 1)%Z))
                 (collisions s) (tl (rng s)) (cache s)
                 (calls s ++ [EvDraw c t (a t (hd 0 (rng s)));
                              EvGetReward i c (a t (hd 0 (rng s)))])).
Proof.
  intros Hc Ha Hocc Hi Hrow Hx.
  assert (Hlt : c < length arms) by (apply nth_error_Some; congruence).
  unfold uniq_body. unfold bind at 1. unfold getitem at 1. rewrite Hc. unfold ret at 1.
  unfold bind at 1. unfold getitem at 1.
  rewrite nth_error_nbCollisions by exact Hlt. unfold ret at 1.
  destruct (Z.ltb_spec (Z.of_nat (occupancy choices c) - 1) 1) as [_|Hge]; [|lia].
  unfold bind at 1. rewrite arm_draw_eq, Ha.
  unfold bind at 1. unfold set_reward at 1.
  cbn [rewards pulls collisions rng cache calls].
  apply Nat.ltb_lt in Hi. rewrite Hi. apply Nat.ltb_lt in Hi.
  unfold bind at 1. unfold get_reward at 1, getitem at 1.
  cbn [rewards pulls collisions rng cache calls].
  rewrite nth_error_list_update_eq by exact Hi. unfold ret at 1.
  unfold bind at 1. unfold log at 1.
  unfold incr_pulls. cbn [rewards pulls collisions rng cache calls].
  rewrite Hrow, Hx. rewrite <- app_assoc. reflexivity.
Qed.

Lemma uniq_body_collide (t : nat) (arms : list Arm) (choices : list nat)
    (i : nat) (player : Player) (s : State) (c : nat) (y : Z) :
  nth_error choices i = Some c ->
  c < length arms ->
  2 <= occupancy choices c ->
  nth_error (collisions s) c = Some y ->
  uniq_body t arms choices (i, player) s =
  Ok tt (mkState (rewards s) (pulls s)
                 (list_update (collisions s) c (y + 1)%Z)
                 (rng s) (cache s)
                 (calls s ++ [collision_event player i c])).
Proof.
  intros Hc Hlt Hocc Hy.
  unfold uniq_body. unfold bind at 1. unfold getitem at 1. rewrite Hc. unfold ret at 1.
  unfold bind at 1. unfold getitem at 1.
  rewrite nth_error_nbCollisions by exact Hlt. unfold ret at 1.
  destruct (Z.ltb_spec (Z.of_nat (occupancy choices c) - 1) 1) as [Hl|_]; [lia|].
  unfold bind at 1. unfold incr_collisions at 1. rewrite Hy.
  unfold signal_collision, collision_event, log.
  destruct (hasHandleCollision player); reflexivity.
Qed.

Lemma nth_error_enumerate_from {A : Type} (l : list A) (start j i : nat) (x : A) :
  nth_error (combine (seq start (length l)) l) j = Some (i, x) ->
  i = start + j /\ nth_error l j = Some x.
Proof.
  revert start j; induction l as [|y l IH]; intros start [|j] H; simpl in *;
    try discriminate.
  - inversion H; subst. split; [lia | reflexivity].
  - apply IH in H. destruct H. split; [lia | assumption].
Qed.

Lemma enumerate_split {A : Type} (l : list A) (pre post : list (nat * A)) (i : nat) (x : A) :
  enumerate l = pre ++ (i, x) :: post ->
  i = length pre /\ nth_error l i = Some x.
Proof.
  intros H.
  assert (E : nth_error (enumerate l) (length pre) = Some (i, x)).
  { rewrite H, nth_error_app2, Nat.sub_diag by lia. reflexivity. }
  apply nth_error_enumerate_from in E. destruct E as [E1 E2].
  simpl in E1. subst i. auto.
Qed.

Lemma enumerate_length {A : Type} (l : list A) : length (enumerate l) = length l.
Proof.
  unfold enumerate. rewrite length_combine, length_seq. apply Nat.min_id.
Qed.

Lemma firstn_snoc {A : Type} (l : list A) (k : nat) (x : A) :
  nth_error l k = Some x -> firstn (S k) l = firstn k l ++ [x].
Proof.
  revert k; induction l as [|y l IH]; intros [|k] H; simpl in *; try discriminate.
  - inversion H; reflexivity.
  - rewrite (IH _ H). reflexivity.
Qed.

Lemma colliders_S (choices : list nat) (k c : nat) :
  nth_error choices k = Some c ->
  colliders choices (S k) =
  colliders choices k + (if Nat.leb 2 (occupancy choices c) then 1 else 0).
Proof.
  intros H. unfold colliders. rewrite (firstn_snoc _ _ _ H), filter_app, length_app.
  cbn [filter]. destruct (Nat.leb 2 (occupancy choices c)); reflexivity.
Qed.

Lemma occupancy_pos (choices : list nat) (i c : nat) :
  nth_error choices i = Some c -> 1 <= occupancy choices c.
Proof.
  intros H. apply nth_error_In in H. unfold occupancy.
  apply (count_occ_In Nat.eq_dec) in H. lia.
Qed.

Lemma granted_value_app_l (n1 n2 : list Event) (p arm t : nat) (r : Q) :
  granted_value n1 p arm t r -> granted_value (n1 ++ n2) p arm t r.
Proof.
  intros (pre & post & E). exists pre, (post ++ n2).
  rewrite E, <- app_assoc. reflexivity.
Qed.

Lemma uniq_step (t : nat) (arms : list Arm) (players : list Player)
    (choices : list nat) (s0 s : State) (k : nat) (player : Player) :
  well_formed arms players choices s0 ->
  k < length players ->
  uniq_inv t choices (length players) (length arms) s0 k s ->
  exists s', uniq_body t arms choices (k, player) s = Ok tt s' /\
             uniq_inv t choices (length players) (length arms) s0 (S k) s'.
Proof.
  intros Hwf Hk (Hsh & Hsum & new & Hcalls & Hout).
  destruct Hwf as [W1 W2 W3 W4 W5 W6].
  destruct Hsh as [S1 S2 S3 S4].
  destruct (nth_error choices k) as [c|] eqn:Hc.
  2:{ apply nth_error_None in Hc. lia. }
  assert (Hlt : c < length arms) by (apply W6; eapply nth_error_In; eauto).
  assert (Hpos := occupancy_pos _ _ _ Hc).
  destruct (nth_error arms c) as [a|] eqn:Ha.
  2:{ apply nth_error_None in Ha. lia. }
  pose proof (Hout k c Hc) as Hk0.
  rewrite Nat.ltb_irrefl in Hk0. simpl in Hk0. destruct Hk0 as [Hr0 Hp0].
  destruct (nth_error (pulls s0) k) as [row|] eqn:Hrow.
  2:{ apply nth_error_None in Hrow. lia. }
  assert (Hrowlen : length row = length arms).
  { apply W4. eapply nth_error_In; eauto. }
  destruct (nth_error row c) as [x|] eqn:Hx.
  2:{ apply nth_error_None in Hx. lia. }
  destruct (nth_error (collisions s) c) as [y|] eqn:Hy.
  2:{ apply nth_error_None in Hy. lia. }
  destruct (le_lt_dec (occupancy choices c) 1) as [Hone|Hmany].
  - (* alone on the arm *)
    eexists. split.
    { eapply uniq_body_alone; eauto. lia. }
    split; [|split].
    + constructor; simpl.
      * rewrite list_update_length. exact S1.
      * rewrite list_update_length. exact S2.
      * intros row' Hin. apply In_list_update in Hin. destruct Hin as [->|Hin].
        -- rewrite list_update_length. exact Hrowlen.
        -- apply S3, Hin.
      * exact S4.
    + simpl. rewrite Hsum, (colliders_S _ _ _ Hc).
      destruct (Nat.leb_spec 2 (occupancy choices c)); [lia|]. lia.
    + eexists. split.
      { simpl. rewrite Hcalls, <- app_assoc. reflexivity. }
      intros i c' Hc'. simpl.
      destruct (Nat.eq_dec i k) as [->|Hne].
      * rewrite Hc in Hc'. inversion Hc'; subst c'.
        replace (Nat.ltb k (S k)) with true by (symmetry; apply Nat.ltb_lt; lia).
        replace (Nat.eqb (occupancy choices c) 1) with true
          by (symmetry; apply Nat.eqb_eq; lia).
        simpl. exists (a t (hd 0 (rng s))), row, x.
        rewrite !nth_error_list_update_eq by lia.
        repeat split; auto.
        exists new, []. reflexivity.
      * rewrite !nth_error_list_update_neq by auto.
        specialize (Hout i c' Hc').
        replace (Nat.ltb i (S k)) with (Nat.ltb i k).
        2:{ destruct (Nat.ltb_spec i k), (Nat.ltb_spec i (S k)); auto; lia. }
        destruct (Nat.ltb i k && Nat.eqb (occupancy choices c') 1); [|exact Hout].
        destruct Hout as (r & row' & x' & H1 & H2 & H3 & H4 & H5).
        exists r, row', x'. repeat split; auto.
        apply granted_value_app_l, H2.
  - (* several players on the arm *)
    eexists. split.
    { eapply uniq_body_collide; eauto. }
    split; [|split].
    + constructor; simpl; auto. rewrite list_update_length. exact S4.
    + simpl. rewrite (sumZ_list_update _ _ _ _ Hy), Hsum, (colliders_S _ _ _ Hc).
      destruct (Nat.leb_spec 2 (occupancy choices c)); lia.
    + eexists. split.
      { simpl. rewrite Hcalls, <- app_assoc. reflexivity. }
      intros i c' Hc'. simpl.
      specialize (Hout i c' Hc').
      destruct (Nat.eq_dec i k) as [->|Hne].
      * rewrite Hc in Hc'. inversion Hc'; subst c'.
        replace (Nat.eqb (occupancy choices c) 1) with false
          by (symmetry; apply Nat.eqb_neq; lia).
        rewrite andb_false_r. rewrite Nat.ltb_irrefl in Hout. exact Hout.
      * replace (Nat.ltb i (S k)) with (Nat.ltb i k).
        2:{ destruct (Nat.ltb_spec i k), (Nat.ltb_spec i (S k)); auto; lia. }
        destruct (Nat.ltb i k && Nat.eqb (occupancy choices c') 1); [|exact Hout].
        destruct Hout as (r & row' & x' & H1 & H2 & H3 & H4 & H5).
        exists r, row', x'. repeat split; auto.
        apply granted_value_app_l, H2.
Qed.

Lemma well_formed_shaped (arms : list Arm) (players : list Player)
    (choices : list nat) (s : State) :
  well_formed arms players choices s -> shaped (length players) (length arms) s.
Proof. intros [W1 W2 W3 W4 W5 W6]. constructor; auto. Qed.

Lemma forM__cons {A : Type} (x : A) (l : list A) (body : A -> M unit)
    (s s' : State) :
  body x s = Ok tt s' -> forM_ (x :: l) body s = forM_ l body s'.
Proof. intros H. simpl. unfold bind. rewrite H. reflexivity. Qed.

Lemma uniq_loop (t : nat) (arms : list Arm) (players : list Player)
    (choices : list nat) (s0 : State) :
  well_formed arms players choices s0 ->
  forall post pre s,
    enumerate players = pre ++ post ->
    uniq_inv t choices (length players) (length arms) s0 (length pre) s ->
    exists s', forM_ post (uniq_body t arms choices) s = Ok tt s' /\
               uniq_inv t choices (length players) (length arms) s0 (length players) s'.
Proof.
  intros Hwf. induction post as [|[i pl] post IH]; intros pre s Hsplit Hinv.
  - exists s. split; [reflexivity|].
    rewrite app_nil_r in Hsplit. rewrite <- Hsplit, enumerate_length in Hinv.
    exact Hinv.
  - destruct (enumerate_split _ _ _ _ _ Hsplit) as [-> Hpl].
    assert (Hlt : length pre < length players) by (apply nth_error_Some; congruence).
    destruct (uniq_step t arms players choices s0 s (length pre) pl Hwf Hlt Hinv)
      as (s1 & Hrun & Hinv1).
    destruct (IH (pre ++ [(length pre, pl)]) s1) as (s' & Hrun' & Hinv').
    + rewrite <- app_assoc. exact Hsplit.
    + rewrite length_app, Nat.add_1_r. exact Hinv1.
    + exists s'. split; [|exact Hinv'].
      rewrite (forM__cons _ _ _ _ _ Hrun). exact Hrun'.
Qed.

Lemma onlyUniq_run (t : nat) (arms : list Arm) (players : list Player)
    (choices : list nat) (s0 : State) :
  well_formed arms players choices s0 ->
  exists s', onlyUniqUserGetsReward t arms players choices s0 = Ok tt s' /\
             uniq_inv t choices (length players) (length arms) s0 (length players) s'.
Proof.
  intros Hwf. rewrite onlyUniq_unfold.
  apply (uniq_loop t arms players choices s0 Hwf (enumerate players) [] s0).
  - reflexivity.
  - split; [apply (well_formed_shaped _ _ _ _ Hwf)|]. split.
    + unfold colliders. simpl. lia.
    + exists []. split; [rewrite app_nil_r; reflexivity|].
      intros i c Hc. simpl. auto.
Qed.

(** ** The draws of [onlyUniqUserGetsReward] *)

Lemma hd_skipn_nth {A : Type} (l : list A) (k : nat) (d : A) :
  hd d (skipn k l) = nth k l d.
Proof.
  revert l; induction k as [|k IH]; intros [|x l]; simpl; auto.
Qed.

Lemma tl_skipn {A : Type} (l : list A) (k : nat) :
  tl (skipn k l) = skipn (S k) l.
Proof.
  revert l; induction k as [|k IH]; intros [|x l]; simpl; auto.
Qed.

Lemma loners_S (choices : list nat) (k c : nat) :
  nth_error choices k = Some c ->
  loners choices (S k) =
  loners choices k + (if Nat.eqb (occupancy choices c) 1 then 1 else 0).
Proof.
  intros H. unfold loners. rewrite (firstn_snoc _ _ _ H), filter_app, length_app.
  cbn [filter]. destruct (Nat.eqb (occupancy choices c) 1); reflexivity.
Qed.

Lemma uniq_step_draws (t : nat) (arms : list Arm) (players : list Player)
    (choices : list nat) (s0 s : State) (k : nat) (player : Player)
    (new_calls : list Event) :
  well_formed arms players choices s0 ->
  k < length players ->
  uniq_inv t choices (length players) (length arms) s0 k s ->
  calls s = calls s0 ++ new_calls ->
  uniq_draws t arms choices s0 s new_calls k ->
  exists s' new_calls',
    uniq_body t arms choices (k, player) s = Ok tt s' /\
    uniq_inv t choices (length players) (length arms) s0 (S k) s' /\
    calls s' = calls s0 ++ new_calls' /\
    uniq_draws t arms choices s0 s' new_calls' (S k).
Proof.
  intros Hwf Hk Hinv Hcalls (Hrng & Hdraws).
  destruct (uniq_step t arms players choices s0 s k player Hwf Hk Hinv)
    as (s' & Hrun & Hinv').
  exists s'.
  destruct Hwf as [W1 W2 W3 W4 W5 W6].
  destruct Hinv as ([S1 S2 S3 S4] & _ & new0 & Hcalls0 & Hout).
  destruct (nth_error choices k) as [c|] eqn:Hc.
  2:{ apply nth_error_None in Hc. lia. }
  assert (Hlt : c < length arms) by (apply W6; eapply nth_error_In; eauto).
  assert (Hpos := occupancy_pos _ _ _ Hc).
  destruct (nth_error arms c) as [a|] eqn:Ha.
  2:{ apply nth_error_None in Ha. lia. }
  pose proof (Hout k c Hc) as Hk0.
  rewrite Nat.ltb_irrefl in Hk0. simpl in Hk0. destruct Hk0 as [_ Hp0].
  destruct (nth_error (pulls s0) k) as [row|] eqn:Hrow.
  2:{ apply nth_error_None in Hrow. lia. }
  destruct (nth_error row c) as [x|] eqn:Hx.
  2:{ apply nth_error_None in Hx.
      rewrite (W4 row) in Hx by (eapply nth_error_In; eauto). lia. }
  destruct (nth_error (collisions s) c) as [y|] eqn:Hy.
  2:{ apply nth_error_None in Hy. lia. }
  pose proof (loners_S _ _ _ Hc) as HS.
  destruct (le_lt_dec (occupancy choices c) 1) as [Hone|Hmany].
  - (* alone on the arm: one word of the generator is used *)
    assert (Hocc : occupancy choices c = 1) by lia.
    rewrite Hocc in HS. cbn [Nat.eqb] in HS.
    assert (Hword : hd 0 (rng s) = nth (loners choices k) (rng s0) 0).
    { rewrite Hrng. apply hd_skipn_nth. }
    pose proof Hrun as Hrun0.
    rewrite (uniq_body_alone t arms choices k player s c a row x) in Hrun
      by (auto; lia).
    inversion Hrun as [Es']. clear Hrun. subst s'.
    eexists. split; [exact Hrun0|]. split; [exact Hinv'|].
    split.
    { cbn [calls]. rewrite Hcalls, <- app_assoc. reflexivity. }
    split; cbn [rng rewards].
    + rewrite Hrng, tl_skipn, HS. f_equal. lia.
    + intros i c' Hi Hc' Hocc'. rewrite Hword.
      destruct (Nat.eq_dec i k) as [->|Hne].
      * rewrite Hc in Hc'. inversion Hc'; subst c'.
        exists a. split; [exact Ha|]. split.
        -- apply nth_error_list_update_eq. lia.
        -- exists new_calls, []. reflexivity.
      * rewrite nth_error_list_update_neq by auto.
        destruct (Hdraws i c') as (a' & Ha' & Hr' & Hg'); [lia | auto | auto |].
        exists a'. split; [exact Ha'|]. split; [exact Hr'|].
        apply granted_value_app_l, Hg'.
  - (* several players on the arm: no draw *)
    replace (Nat.eqb (occupancy choices c) 1) with false in HS
      by (symmetry; apply Nat.eqb_neq; lia).
    pose proof Hrun as Hrun0.
    rewrite (uniq_body_collide t arms choices k player s c y) in Hrun by auto.
    inversion Hrun as [Es']. clear Hrun. subst s'.
    eexists. split; [exact Hrun0|]. split; [exact Hinv'|].
    split.
    { cbn [calls]. rewrite Hcalls, <- app_assoc. reflexivity. }
    split; cbn [rng rewards].
    + rewrite Hrng, HS. f_equal. lia.
    + intros i c' Hi Hc' Hocc'.
      assert (i <> k) by (intros ->; rewrite Hc in Hc'; inversion Hc'; subst; lia).
      destruct (Hdraws i c') as (a' & Ha' & Hr' & Hg'); [lia | auto | auto |].
      exists a'. split; [exact Ha'|]. split; [exact Hr'|].
      apply granted_value_app_l, Hg'.
Qed.

Lemma uniq_loop_draws (t : nat) (arms : list Arm) (players : list Player)
    (choices : list nat) (s0 : State) :
  well_formed arms players choices s0 ->
  forall post pre s new_calls,
    enumerate players = pre ++ post ->
    uniq_inv t choices (length players) (length arms) s0 (length pre) s ->
    calls s = calls s0 ++ new_calls ->
    uniq_draws t arms choices s0 s new_calls (length pre) ->
    exists s' new_calls',
      forM_ post (uniq_body t arms choices) s = Ok tt s' /\
      uniq_inv t choices (length players) (length arms) s0 (length players) s' /\
      calls s' = calls s0 ++ new_calls' /\
      uniq_draws t arms choices s0 s' new_calls' (length players).
Proof.
  intros Hwf. induction post as [|[i pl] post IH]; intros pre s new Hsplit Hinv Hcalls Hdr.
  - exists s, new. split; [reflexivity|].
    rewrite app_nil_r in Hsplit. rewrite <- Hsplit, enumerate_length in Hinv, Hdr.
    split; [exact Hinv|]. split; [exact Hcalls | exact Hdr].
  - destruct (enumerate_split _ _ _ _ _ Hsplit) as [-> Hpl].
    assert (Hlt : length pre < length players) by (apply nth_error_Some; congruence).
    destruct (uniq_step_draws t arms players choices s0 s (length pre) pl new
                Hwf Hlt Hinv Hcalls Hdr)
      as (s1 & new1 & Hrun & Hinv1 & Hcalls1 & Hdr1).
    destruct (IH (pre ++ [(length pre, pl)]) s1 new1)
      as (s' & new' & Hrun' & Hinv' & Hc' & Hdr').
    + rewrite <- app_assoc. exact Hsplit.
    + rewrite length_app, Nat.add_1_r. exact Hinv1.
    + exact Hcalls1.
    + rewrite length_app, Nat.add_1_r. exact Hdr1.
    + exists s', new'. split; [|split; [|split]]; try assumption.
      rewrite (forM__cons _ _ _ _ _ Hrun). exact Hrun'.
Qed.

Lemma onlyUniq_run_draws (t : nat) (arms : list Arm) (players : list Player)
    (choices : list nat) (s0 : State) :
  well_formed arms players choices s0 ->
  exists s' new_calls,
    onlyUniqUserGetsReward t arms players choices s0 = Ok tt s' /\
    uniq_inv t choices (length players) (length arms) s0 (length players) s' /\
    calls s' = calls s0 ++ new_calls /\
    uniq_draws t arms choices s0 s' new_calls (length players).
Proof.
  intros Hwf. rewrite onlyUniq_unfold.
  apply (uniq_loop_draws t arms players choices s0 Hwf (enumerate players) [] s0 []).
  - reflexivity.
  - split; [apply (well_formed_shaped _ _ _ _ Hwf)|]. split.
    + unfold colliders. simpl. lia.
    + exists []. split; [rewrite app_nil_r; reflexivity|].
      intros i c Hc. simpl. auto.
  - rewrite app_nil_r. reflexivity.
  - split; [reflexivity|]. intros i c Hi. cbn [length] in Hi. lia.
Qed.

(** ** Counting by arm *)

Lemma sumZ_app (l1 l2 : list Z) : sumZ (l1 ++ l2) = (sumZ l1 + sumZ l2)%Z.
Proof. induction l1 as [|x l1 IH]; simpl; [reflexivity | rewrite IH; lia]. Qed.

Lemma sum_over_arms_S (f : nat -> Z) (K : nat) :
  sum_over_arms f (S K) = (sum_over_arms f K + f K)%Z.
Proof.
  unfold sum_over_arms. rewrite seq_S, map_app, sumZ_app. simpl. lia.
Qed.

Lemma sum_over_arms_ext (f g : nat -> Z) (K : nat) :
  (forall a, a < K -> f a = g a) -> sum_over_arms f K = sum_over_arms g K.
Proof.
  induction K as [|K IH]; intros H; [reflexivity|].
  rewrite !sum_over_arms_S, IH, H by auto. reflexivity.
Qed.

Lemma sum_over_arms_plus (f g : nat -> Z) (K : nat) :
  sum_over_arms (fun a => (f a + g a)%Z) K = (sum_over_arms f K + sum_over_arms g K)%Z.
Proof.
  induction K as [|K IH]; [reflexivity|]. rewrite !sum_over_arms_S, IH. lia.
Qed.

Lemma sum_over_arms_zero (K : nat) : sum_over_arms (fun _ => 0%Z) K = 0%Z.
Proof. induction K as [|K IH]; [reflexivity|]. rewrite sum_over_arms_S, IH. lia. Qed.

Lemma sum_over_arms_single (f : nat -> Z) (c K : nat) :
  sum_over_arms (fun a => if Nat.eqb c a then f a else 0%Z) K
  = if Nat.ltb c K then f c else 0%Z.
Proof.
  induction K as [|K IH]; [reflexivity|].
  rewrite sum_over_arms_S, IH.
  destruct (Nat.ltb_spec c K), (Nat.ltb_spec c (S K)), (Nat.eqb_spec c K);
    subst; try lia.
Qed.

Lemma sum_by_arm (f : nat -> Z) (l : list nat) (K : nat) :
  (forall c, In c l -> c < K) ->
  sumZ (map f l) = sum_over_arms (fun a => (Z.of_nat (occupancy l a) * f a)%Z) K.
Proof.
  induction l as [|c l IH]; intros H.
  - cbn [map sumZ fold_right]. symmetry.
    erewrite sum_over_arms_ext; [apply sum_over_arms_zero|].
    intros a _. reflexivity.
  - simpl map. simpl sumZ. rewrite IH by (intros; apply H; right; assumption).
    rewrite (sum_over_arms_ext
               (fun a => (Z.of_nat (occupancy (c :: l) a) * f a)%Z)
               (fun a => ((if Nat.eqb c a then f a else 0) +
                          Z.of_nat (occupancy l a) * f a)%Z)).
    + rewrite sum_over_arms_plus, sum_over_arms_single.
      destruct (Nat.ltb_spec c K) as [_|Hge]; [lia|].
      specialize (H c (or_introl eq_refl)). lia.
    + intros a _. unfold occupancy. simpl.
      destruct (Nat.eq_dec c a) as [->|Hne].
      * rewrite Nat.eqb_refl. lia.
      * destruct (Nat.eqb_spec c a); [contradiction | lia].
Qed.

Lemma colliders_total (choices : list nat) (K : nat) :
  (forall c, In c choices -> c < K) ->
  Z.of_nat (colliders choices (length choices)) = sum_over_arms (uniq_charge choices) K.
Proof.
  intros H. unfold colliders. rewrite firstn_all.
  set (f := fun c => if Nat.leb 2 (occupancy choices c) then 1%Z else 0%Z).
  assert (E : forall l, Z.of_nat (length (filter (fun c => Nat.leb 2 (occupancy choices c)) l))
                        = sumZ (map f l)).
  { induction l as [|c l IH]; [reflexivity|].
    cbn [filter map sumZ fold_right]. unfold f at 1.
    destruct (Nat.leb 2 (occupancy choices c)).
    - cbn [length]. fold (sumZ (map f l)). rewrite <- IH. lia.
    - fold (sumZ (map f l)). rewrite <- IH. lia. }
  rewrite E, (sum_by_arm f choices K H).
  apply sum_over_arms_ext. intros a _. unfold f, uniq_charge.
  destruct (Nat.leb 2 (occupancy choices a)); lia.
Qed.

Lemma signal_others_run (players : list Player) (who : list nat) (i arm : nat) (s : State) :
  (forall j, In j who -> j < length players) ->
  forM_ who (fun j =>
    if Nat.eqb i j then ret tt
    else player <- getitem players j ;; signal_collision player j arm) s
  = Ok tt (mkState (rewards s) (pulls s) (collisions s) (rng s) (cache s)
                   (calls s ++ signals players who i arm)).
Proof.
  revert s; induction who as [|j who IH]; intros s H.
  - simpl. rewrite app_nil_r. destruct s; reflexivity.
  - cbn [forM_ signals]. unfold bind at 1.
    destruct (Nat.eqb i j).
    + unfold ret at 1. apply IH. intros j' Hj'. apply H. right; exact Hj'.
    + destruct (nth_error players j) as [pl|] eqn:Hpl.
      2:{ apply nth_error_None in Hpl. specialize (H j (or_introl eq_refl)). lia. }
      unfold bind at 1. unfold getitem at 1. rewrite Hpl. unfold ret at 1.
      assert (E : signal_collision pl j arm s =
                  Ok tt (mkState (rewards s) (pulls s) (collisions s) (rng s) (cache s)
                                 (calls s ++ [collision_event pl j arm]))).
      { unfold signal_collision, collision_event, log.
        destruct (hasHandleCollision pl); reflexivity. }
      rewrite E, IH by (intros j' Hj'; apply H; right; exact Hj').
      cbn [rewards pulls collisions rng cache calls].
      rewrite <- app_assoc. reflexivity.
Qed.

Lemma pull_and_signal_run (t : nat) (arms : list Arm) (players : list Player)
    (arm : nat) (who : list nat) (i : nat) (s : State)
    (a : Arm) (row : list Z) (x : Z) :
  nth_error arms arm = Some a ->
  i < length players ->
  i < length (rewards s) ->
  nth_error (pulls s) i = Some row ->
  nth_error row arm = Some x ->
  (forall j, In j who -> j < length players) ->
  pull_and_signal t arms players arm who i s =
  Ok tt (mkState (list_update (rewards s) i (a t (hd 0 (rng s))))
                 (list_update (pulls s) i (list_update row arm (x + 1)%Z))
                 (collisions s) (tl (rng s)) (cache s)
                 (calls s ++ EvDraw arm t (a t (hd 0 (rng s)))
                          :: EvGetReward i arm (a t (hd 0 (rng s)))
                          :: signals players who i arm)).
Proof.
  intros Ha Hpl Hi Hrow Hx Hwho.
  destruct (nth_error players i) as [pl|] eqn:Epl.
  2:{ apply nth_error_None in Epl. lia. }
  unfold pull_and_signal.
  unfold bind at 1. rewrite arm_draw_eq, Ha.
  unfold bind at 1. unfold set_reward at 1.
  cbn [rewards pulls collisions rng cache calls].
  apply Nat.ltb_lt in Hi. rewrite Hi. apply Nat.ltb_lt in Hi.
  unfold bind at 1. unfold getitem at 1. rewrite Epl. unfold ret at 1.
  unfold bind at 1. unfold get_reward at 1, getitem at 1.
  cbn [rewards pulls collisions rng cache calls].
  rewrite nth_error_list_update_eq by exact Hi. unfold ret at 1.
  unfold bind at 1. unfold log at 1.
  unfold bind at 1. unfold incr_pulls at 1.
  cbn [rewards pulls collisions rng cache calls].
  rewrite Hrow, Hx.
  rewrite signal_others_run by exact Hwho.
  cbn [rewards pulls collisions rng cache calls].
  rewrite <- !app_assoc. reflexivity.
Qed.

Lemma length_nonzero_eq_from (start : nat) (choices : list nat) (arm : nat) :
  length (nonzero_eq_from start choices arm) = occupancy choices arm.
Proof.
  revert start; induction choices as [|c cs IH]; intros start; [reflexivity|].
  unfold occupancy in *. simpl.
  destruct (Nat.eqb_spec c arm) as [->|Hne].
  - destruct (Nat.eq_dec arm arm); [|contradiction]. simpl. rewrite IH. reflexivity.
  - destruct (Nat.eq_dec c arm); [contradiction|]. apply IH.
Qed.

Lemma length_nonzero_eq (choices : list nat) (arm : nat) :
  length (nonzero_eq choices arm) = occupancy choices arm.
Proof. apply length_nonzero_eq_from. Qed.

Lemma forM__seq_inv (body : nat -> M unit) (Inv : nat -> State -> Prop) (K : nat) :
  (forall k s, k < K -> Inv k s -> exists s', body k s = Ok tt s' /\ Inv (S k) s') ->
  forall s, Inv 0 s -> exists s', forM_ (seq 0 K) body s = Ok tt s' /\ Inv K s'.
Proof.
  intros Hstep.
  assert (G : forall n start s, start + n = K -> Inv start s ->
              exists s', forM_ (seq start n) body s = Ok tt s' /\ Inv K s').
  { induction n as [|n IH]; intros start s E Hinv.
    - exists s. split; [reflexivity|]. replace K with start by lia. exact Hinv.
    - destruct (Hstep start s) as (s1 & Hrun & Hinv1); [lia | exact Hinv |].
      destruct (IH (S start) s1) as (s' & Hrun' & Hinv'); [lia | exact Hinv1 |].
      exists s'. split; [|exact Hinv'].
      cbn [seq]. rewrite (forM__cons _ _ _ _ _ Hrun). exact Hrun'. }
  intros s. apply G. reflexivity.
Qed.

Lemma shared_step (t : nat) (arms : list Arm) (players : list Player)
    (choices : list nat) (s0 s : State) (arm : nat) :
  length choices = length players ->
  arm < length arms ->
  arms_inv choices (length players) (length arms) s0 arm s ->
  exists s',
    (let players_who_chose_it := nonzero_eq choices arm in
     if Nat.ltb 0 (length players_who_chose_it) then
       incr_collisions arm (Z.of_nat (length players_who_chose_it) - 1)%Z ;;;
       i <- random_choice players_who_chose_it ;;
       pull_and_signal t arms players arm players_who_chose_it i
     else ret tt) s = Ok tt s' /\
    arms_inv choices (length players) (length arms) s0 (S arm) s'.
Proof.
  intros Hlen Hlt (Hsh & Hsum). cbv zeta.
  pose proof (length_nonzero_eq choices arm) as Hocc.
  assert (Hwho : forall j, In j (nonzero_eq choices arm) -> j < length players).
  { intros j Hj. rewrite <- Hlen. eapply nonzero_eq_lt, Hj. }
  unfold arms_inv. rewrite sum_over_arms_S. unfold excess at 2.
  rewrite <- Hocc.
  destruct (nonzero_eq choices arm) as [|j0 who'] eqn:Ewho.
  - exists s. split; [reflexivity|]. split; [exact Hsh|]. simpl. lia.
  - set (who := j0 :: who') in *.
    assert (Hne : length who <> 0) by (unfold who; simpl; discriminate).
    replace (Nat.ltb 0 (length who)) with true
      by (symmetry; apply Nat.ltb_lt; lia).
    destruct Hsh as [S1 S2 S3 S4].
    destruct (nth_error (collisions s) arm) as [y|] eqn:Hy.
    2:{ apply nth_error_None in Hy. lia. }
    destruct (nth_error arms arm) as [a|] eqn:Ha.
    2:{ apply nth_error_None in Ha. lia. }
    unfold bind at 1. unfold incr_collisions at 1. rewrite Hy.
    unfold bind at 1. unfold random_choice at 1. unfold who at 1.
    fold who. unfold bind at 1. unfold next_word at 1, ret at 1.
    cbn [rewards pulls collisions rng cache calls].
    set (i := nth (hd 0 (rng s) mod length who) who 0).
    assert (Hi : In i who).
    { apply nth_In. apply Nat.mod_upper_bound. exact Hne. }
    pose proof (Hwho i Hi) as Hip.
    destruct (nth_error (pulls s) i) as [row|] eqn:Hrow.
    2:{ apply nth_error_None in Hrow. lia. }
    destruct (nth_error row arm) as [x|] eqn:Hx.
    2:{ apply nth_error_None in Hx.
        rewrite (S3 row) in Hx by (eapply nth_error_In; eauto). lia. }
    eexists. split.
    { eapply pull_and_signal_run; cbn [rewards pulls collisions rng cache calls];
        eauto. lia. }
    split.
    + constructor; cbn [rewards pulls collisions].
      * rewrite list_update_length. exact S1.
      * rewrite list_update_length. exact S2.
      * intros row' Hin. apply In_list_update in Hin. destruct Hin as [->|Hin].
        -- rewrite list_update_length. apply S3. eapply nth_error_In; eauto.
        -- apply S3, Hin.
      * rewrite list_update_length. exact S4.
    + cbn [collisions]. rewrite (sumZ_list_update _ _ _ _ Hy), Hsum. lia.
Qed.

Lemma rewardIsSharedUniformly_run (t : nat) (arms : list Arm) (players : list Player)
    (choices : list nat) (s0 : State) :
  well_formed arms players choices s0 ->
  exists s', rewardIsSharedUniformly t arms players choices s0 = Ok tt s' /\
             arms_inv choices (length players) (length arms) s0 (length arms) s'.
Proof.
  intros Hwf. unfold rewardIsSharedUniformly.
  apply (forM__seq_inv _ (arms_inv choices (length players) (length arms) s0)).
  - intros k s Hk Hinv. apply shared_step; auto. apply (wf_choices _ _ _ _ Hwf).
  - split; [apply (well_formed_shaped _ _ _ _ Hwf)|].
    unfold sum_over_arms. simpl. lia.
Qed.

Lemma take_run {A : Type} (l : list A) (indices : list nat) (default : A) (s : State) :
  (forall j, In j indices -> j < length l) ->
  take l indices s = Ok (map (fun j => nth j l default) indices) s.
Proof.
  induction indices as [|j indices IH]; intros H; [reflexivity|].
  cbn [take map]. unfold bind at 1. unfold getitem at 1.
  rewrite (nth_error_nth' l default) by (apply H; left; reflexivity).
  unfold ret at 1. unfold bind at 1.
  rewrite IH by (intros j' Hj'; apply H; right; exact Hj'). reflexivity.
Qed.

Lemma fold_min_in (l : list Q) (x : Q) : In (fold_left Qmin2 l x) (x :: l).
Proof.
  revert x; induction l as [|y l IH]; intros x; [left; reflexivity|].
  cbn [fold_left]. specialize (IH (Qmin2 x y)).
  unfold Qmin2 in *. destruct (Qle_bool x y).
  - destruct IH as [<-|IH]; [left; reflexivity | right; right; exact IH].
  - destruct IH as [<-|IH]; [right; left; reflexivity | right; right; exact IH].
Qed.

Lemma min_of_in (a : list Q) : a <> [] -> In (min_of a) a.
Proof.
  destruct a as [|x a]; [congruence|]. intros _. apply fold_min_in.
Qed.

Lemma fold_min_le (l : list Q) (x y : Q) :
  In y (x :: l) -> (fold_left Qmin2 l x <= y)%Q.
Proof.
  revert x y; induction l as [|z l IH]; intros x y H.
  - destruct H as [->|[]]. apply Qle_refl.
  - cbn [fold_left].
    assert (Hm1 : (Qmin2 x z <= x)%Q /\ (Qmin2 x z <= z)%Q).
    { unfold Qmin2. destruct (Qle_bool x z) eqn:E.
      - apply Qle_bool_iff in E. split; [apply Qle_refl | exact E].
      - split; [|apply Qle_refl].
        destruct (Qlt_le_dec z x) as [Hlt|Hle].
        + apply Qlt_le_weak, Hlt.
        + apply Qle_bool_iff in Hle. congruence. }
    destruct Hm1 as [Hmx Hmz].
    assert (Hf : (fold_left Qmin2 l (Qmin2 x z) <= Qmin2 x z)%Q)
      by (apply IH; left; reflexivity).
    destruct H as [H|[H|H]].
    + subst y. eapply Qle_trans; [exact Hf | exact Hmx].
    + subst y. eapply Qle_trans; [exact Hf | exact Hmz].
    + apply IH. right; exact H.
Qed.

Lemma min_of_le (a : list Q) (y : Q) : In y a -> (min_of a <= y)%Q.
Proof.
  destruct a as [|x a]; [intros []|]. apply fold_min_le.
Qed.

Lemma count_eq_none (l : list Q) (m : Q) :
  (forall y, In y l -> ~ (y == m)%Q) -> count_eq l m = 0.
Proof.
  induction l as [|x l IH]; intros H; [reflexivity|].
  unfold count_eq in *. cbn [filter].
  destruct (Qeq_bool x m) eqn:E.
  - apply Qeq_bool_iff in E. exfalso. apply (H x); [left; reflexivity | exact E].
  - apply IH. intros y Hy. apply H. right; exact Hy.
Qed.

Lemma count_eq_distinct (l : list Q) (m : Q) :
  all_distinct l -> In m l -> count_eq l m = 1.
Proof.
  induction l as [|x l IH]; intros Hd Hin; [destruct Hin|].
  destruct Hd as [Hx Hd]. unfold count_eq in *. cbn [filter].
  destruct (Qeq_bool x m) eqn:E.
  - apply Qeq_bool_iff in E. cbn [length]. f_equal.
    apply count_eq_none. intros y Hy Hym. apply (Hx y Hy).
    rewrite E, Hym. reflexivity.
  - destruct Hin as [->|Hin].
    + rewrite Qeq_bool_refl in E. discriminate.
    + apply IH; assumption.
Qed.

Lemma index_of_lt (l : list Q) (m : Q) : In m l -> index_of l m < length l.
Proof.
  induction l as [|x l IH]; intros Hin; [destruct Hin|].
  cbn [index_of length]. destruct (Qeq_bool x m) eqn:E; [lia|].
  destruct Hin as [->|Hin].
  - rewrite Qeq_bool_refl in E. discriminate.
  - specialize (IH Hin). lia.
Qed.

Lemma nth_index_of (l : list Q) (m : Q) :
  In m l -> (nth (index_of l m) l 0 == m)%Q.
Proof.
  induction l as [|x l IH]; intros Hin; [destruct Hin|].
  cbn [index_of]. destruct (Qeq_bool x m) eqn:E.
  - apply Qeq_bool_iff in E. exact E.
  - destruct Hin as [->|Hin].
    + rewrite Qeq_bool_refl in E. discriminate.
    + apply IH, Hin.
Qed.

Lemma nonzero_eq_from_ge (start : nat) (choices : list nat) (arm j : nat) :
  In j (nonzero_eq_from start choices arm) -> start <= j.
Proof. rewrite In_nonzero_eq_from. tauto. Qed.

Lemma NoDup_nonzero_eq_from (start : nat) (choices : list nat) (arm : nat) :
  NoDup (nonzero_eq_from start choices arm).
Proof.
  revert start; induction choices as [|c cs IH]; intros start; cbn [nonzero_eq_from].
  - constructor.
  - destruct (Nat.eqb c arm); [|apply IH].
    constructor; [|apply IH].
    intros H. apply nonzero_eq_from_ge in H. lia.
Qed.

Lemma all_distinct_distances_of (d : list Q) (who : list nat) :
  pairwise_distinct d -> NoDup who -> (forall j, In j who -> j < length d) ->
  all_distinct (distances_of d who).
Proof.
  intros Hd. induction who as [|j who IH]; intros Hnd Hlt; [exact I|].
  inversion Hnd as [|? ? Hnotin Hnd']; subst.
  cbn [distances_of map all_distinct]. split.
  - intros y Hy. apply in_map_iff in Hy. destruct Hy as (j' & <- & Hj').
    apply (Hd j j').
    + apply nth_error_nth'. apply Hlt. left; reflexivity.
    + apply nth_error_nth'. apply Hlt. right; exact Hj'.
    + intros ->. contradiction.
  - apply IH; [exact Hnd'|]. intros j' Hj'. apply Hlt. right; exact Hj'.
Qed.

Lemma closer_unfold (t : nat) (arms : list Arm) (players : list Player)
    (choices : list nat) (d : list Q) :
  closerUserGetsReward t arms players choices (DistancesArray d) =
  forM_ (seq 0 (length arms)) (closer_body t arms players choices d).
Proof. reflexivity. Qed.

Lemma closer_unfold_default (t : nat) (arms : list Arm) (players : list Player)
    (choices : list nat) :
  closerUserGetsReward t arms players choices DistancesNone =
  closerUserGetsReward t arms players choices
    (DistancesArray (uniform_distances (length players))).
Proof. reflexivity. Qed.

Lemma closest_in (d : list Q) (who : list nat) :
  who <> [] -> In (closest d who) who.
Proof.
  intros Hne. unfold closest. apply nth_In.
  rewrite <- (length_map (fun j => nth j d 0%Q) who). fold (distances_of d who).
  apply index_of_lt, min_of_in. unfold distances_of.
  destruct who; [congruence | discriminate].
Qed.

Lemma closer_body_run (t : nat) (arms : list Arm) (players : list Player)
    (choices : list nat) (d : list Q) (arm : nat) (s : State)
    (a : Arm) (row : list Z) (x y : Z) :
  length choices = length players ->
  length d = length players ->
  pairwise_distinct d ->
  nonzero_eq choices arm <> [] ->
  nth_error arms arm = Some a ->
  nth_error (collisions s) arm = Some y ->
  closest d (nonzero_eq choices arm) < length (rewards s) ->
  nth_error (pulls s) (closest d (nonzero_eq choices arm)) = Some row ->
  nth_error row arm = Some x ->
  closer_body t arms players choices d arm s =
  Ok tt (mkState
           (list_update (rewards s) (closest d (nonzero_eq choices arm))
              (a t (hd 0 (rng s))))
           (list_update (pulls s) (closest d (nonzero_eq choices arm))
              (list_update row arm (x + 1)%Z))
           (list_update (collisions s) arm
              (y + (Z.of_nat (occupancy choices arm) - 1))%Z)
           (tl (rng s)) (cache s)
           (calls s ++ EvDraw arm t (a t (hd 0 (rng s)))
                    :: EvGetReward (closest d (nonzero_eq choices arm)) arm
                         (a t (hd 0 (rng s)))
                    :: signals players (nonzero_eq choices arm)
                         (closest d (nonzero_eq choices arm)) arm)).
Proof.
  intros Hlen Hd Hdist Hne Ha Hy Hi Hrow Hx.
  assert (Hwho : forall j, In j (nonzero_eq choices arm) -> j < length players).
  { intros j Hj. rewrite <- Hlen. eapply nonzero_eq_lt, Hj. }
  pose proof (closest_in d _ Hne) as Hin.
  unfold closer_body. cbv zeta.
  rewrite <- (length_nonzero_eq choices arm).
  set (who := nonzero_eq choices arm) in *.
  replace (Nat.ltb 0 (length who)) with true.
  2:{ symmetry. apply Nat.ltb_lt. destruct who; [congruence | simpl; lia]. }
  unfold bind at 1. unfold incr_collisions at 1. rewrite Hy.
  unfold bind at 1.
  rewrite (take_run d who 0%Q) by (intros j Hj; rewrite Hd; apply Hwho, Hj).
  fold (distances_of d who).
  assert (Hdc : distances_of d who <> []).
  { unfold distances_of. destruct who; [congruence | discriminate]. }
  unfold bind at 1.
  assert (Emin : forall s1, np_min (distances_of d who) s1
                            = Ok (min_of (distances_of d who)) s1).
  { intros s1. unfold np_min, min_of.
    destruct (distances_of d who); [congruence | reflexivity]. }
  rewrite Emin.
  rewrite count_eq_distinct.
  2:{ apply all_distinct_distances_of; auto.
      - apply NoDup_nonzero_eq_from.
      - intros j Hj. rewrite Hd. apply Hwho, Hj. }
  2:{ apply min_of_in, Hdc. }
  cbn [Nat.eqb].
  unfold bind at 1. unfold getitem at 1.
  rewrite (nth_error_nth' who 0).
  2:{ rewrite <- (length_map (fun j => nth j d 0%Q) who).
      apply index_of_lt, min_of_in, Hdc. }
  unfold ret at 1. fold (closest d who).
  erewrite pull_and_signal_run; cbn [rewards pulls collisions rng cache calls]; eauto.
Qed.

Lemma closer_step (t : nat) (arms : list Arm) (players : list Player)
    (choices : list nat) (d : list Q) (s0 s : State) (arm : nat) :
  length choices = length players ->
  length d = length players ->
  pairwise_distinct d ->
  arm < length arms ->
  arms_inv choices (length players) (length arms) s0 arm s ->
  exists s',
    closer_body t arms players choices d arm s = Ok tt s' /\
    arms_inv choices (length players) (length arms) s0 (S arm) s'.
Proof.
  intros Hlen Hd Hdist Hlt (Hsh & Hsum).
  unfold arms_inv. rewrite sum_over_arms_S. unfold excess at 2.
  destruct (nonzero_eq choices arm) as [|j0 who'] eqn:Ewho.
  - exists s. split.
    + unfold closer_body. rewrite Ewho. reflexivity.
    + split; [exact Hsh|].
      rewrite <- (length_nonzero_eq choices arm), Ewho. simpl. lia.
  - assert (Hne : nonzero_eq choices arm <> []) by (rewrite Ewho; discriminate).
    pose proof (closest_in d _ Hne) as Hin.
    assert (Hip : closest d (nonzero_eq choices arm) < length players).
    { rewrite <- Hlen. eapply nonzero_eq_lt, Hin. }
    destruct Hsh as [S1 S2 S3 S4].
    destruct (nth_error (collisions s) arm) as [y|] eqn:Hy.
    2:{ apply nth_error_None in Hy. lia. }
    destruct (nth_error arms arm) as [a|] eqn:Ha.
    2:{ apply nth_error_None in Ha. lia. }
    destruct (nth_error (pulls s) (closest d (nonzero_eq choices arm)))
      as [row|] eqn:Hrow.
    2:{ apply nth_error_None in Hrow. lia. }
    destruct (nth_error row arm) as [x|] eqn:Hx.
    2:{ apply nth_error_None in Hx.
        rewrite (S3 row) in Hx by (eapply nth_error_In; eauto). lia. }
    eexists. split.
    { eapply closer_body_run; eauto. lia. }
    split.
    + constructor; cbn [rewards pulls collisions].
      * rewrite list_update_length. exact S1.
      * rewrite list_update_length. exact S2.
      * intros row' Hin'. apply In_list_update in Hin'. destruct Hin' as [->|Hin'].
        -- rewrite list_update_length. apply S3. eapply nth_error_In; eauto.
        -- apply S3, Hin'.
      * rewrite list_update_length. exact S4.
    + cbn [collisions]. rewrite (sumZ_list_update _ _ _ _ Hy), Hsum.
      assert (1 <= occupancy choices arm).
      { rewrite <- (length_nonzero_eq choices arm), Ewho. simpl. lia. }
      lia.
Qed.

Lemma closerUserGetsReward_run (t : nat) (arms : list Arm) (players : list Player)
    (choices : list nat) (d : list Q) (s0 : State) :
  well_formed arms players choices s0 ->
  length d = length players ->
  pairwise_distinct d ->
  exists s', closerUserGetsReward t arms players choices (DistancesArray d) s0 = Ok tt s' /\
             arms_inv choices (length players) (length arms) s0 (length arms) s'.
Proof.
  intros Hwf Hd Hdist. rewrite closer_unfold.
  apply (forM__seq_inv _ (arms_inv choices (length players) (length arms) s0)).
  - intros k s Hk Hinv. apply closer_step; auto. apply (wf_choices _ _ _ _ Hwf).
  - split; [apply (well_formed_shaped _ _ _ _ Hwf)|].
    unfold sum_over_arms. simpl. lia.
Qed.

Lemma uniform_distances_length (n : nat) : length (uniform_distances n) = n.
Proof. unfold uniform_distances. rewrite length_map, length_seq. reflexivity. Qed.

Lemma uniform_distances_distinct (n : nat) : pairwise_distinct (uniform_distances n).
Proof.
  intros i j x y Hi Hj Hne Heq. unfold uniform_distances in *.
  rewrite nth_error_map, nth_error_seq in Hi, Hj.
  destruct (Nat.ltb i n); [|discriminate].
  destruct (Nat.ltb j n); [|discriminate].
  simpl in Hi, Hj. inversion Hi; inversion Hj; subst x y.
  unfold Qeq in Heq. cbn [Qnum Qden] in Heq.
  apply Z.mul_reg_r in Heq; [lia|]. discriminate.
Qed.

(** ** The claims on the collision models *)

Lemma example_well_formed (choices : list nat) :
  length choices = 2 -> (forall c, In c choices -> c < 2) ->
  well_formed [example_arm; example_arm] example_players choices example_state.
Proof.
  intros Hlen Hrange. constructor; simpl; auto.
  intros row [<-|[<-|[]]]; reflexivity.
Qed.

(** C1, as stated, fails: when two players choose the same arm,
    [onlyUniqUserGetsReward] adds 2 to the collisions of the arm, and
    [max(occupancy - 1, 0)] is 1. *)
Lemma onlyUniq_counts_every_collider :
  exists s',
    onlyUniqUserGetsReward 0 [example_arm; example_arm] example_players [0; 0]
      example_state = Ok tt s' /\
    (sumZ (collisions s') - sumZ (collisions example_state) = 2)%Z /\
    sum_over_arms (excess [0; 0]) 2 = 1%Z /\
    (sumZ (collisions s') - sumZ (collisions example_state))%Z
    <> sum_over_arms (excess [0; 0]) 2.
Proof.
  eexists. split; [reflexivity|]. split; [reflexivity|].
  split; [reflexivity | discriminate].
Qed.

(** C1, amended: a round of [rewardIsSharedUniformly], or of
    [closerUserGetsReward] with the equally spaced distances of the
    default ([distances] is [None] or ['uniform']), increases the sum of
    the collisions by the sum over the arms of [max(occupancy - 1, 0)];
    a round of [onlyUniqUserGetsReward] increases it by the sum of the
    occupancies of the arms that two players or more chose. *)
Theorem collisions_increase_by_model (t : nat) (arms : list Arm)
    (players : list Player) (choices : list nat) (s : State) :
  well_formed arms players choices s ->
  (exists s', onlyUniqUserGetsReward t arms players choices s = Ok tt s' /\
     (sumZ (collisions s') - sumZ (collisions s))%Z
     = sum_over_arms (uniq_charge choices) (length arms)) /\
  (exists s', rewardIsSharedUniformly t arms players choices s = Ok tt s' /\
     (sumZ (collisions s') - sumZ (collisions s))%Z
     = sum_over_arms (excess choices) (length arms)) /\
  (exists s', closerUserGetsReward t arms players choices DistancesNone s = Ok tt s' /\
     (sumZ (collisions s') - sumZ (collisions s))%Z
     = sum_over_arms (excess choices) (length arms)) /\
  (exists s', closerUserGetsReward t arms players choices DistancesUniform s = Ok tt s' /\
     (sumZ (collisions s') - sumZ (collisions s))%Z
     = sum_over_arms (excess choices) (length arms)).
Proof.
  intros Hwf.
  assert (Hcloser :
    exists s', closerUserGetsReward t arms players choices
                 (DistancesArray (uniform_distances (length players))) s = Ok tt s' /\
      (sumZ (collisions s') - sumZ (collisions s))%Z
      = sum_over_arms (excess choices) (length arms)).
  { destruct (closerUserGetsReward_run t arms players choices
                (uniform_distances (length players)) s Hwf
                (uniform_distances_length _) (uniform_distances_distinct _))
      as (s' & Hrun & _ & Hsum).
    exists s'. split; [exact Hrun|]. rewrite Hsum. lia. }
  split; [|split; [|split]].
  - destruct (onlyUniq_run t arms players choices s Hwf)
      as (s' & Hrun & _ & Hsum & _).
    exists s'. split; [exact Hrun|]. rewrite Hsum.
    rewrite <- (wf_choices _ _ _ _ Hwf).
    rewrite (colliders_total choices (length arms) (wf_range _ _ _ _ Hwf)). lia.
  - destruct (rewardIsSharedUniformly_run t arms players choices s Hwf)
      as (s' & Hrun & _ & Hsum).
    exists s'. split; [exact Hrun|]. rewrite Hsum. lia.
  - rewrite closer_unfold_default. exact Hcloser.
  - exact Hcloser.
Qed.

Lemma collisions_increase_by_model_witness :
  (exists s', onlyUniqUserGetsReward 0 [example_arm; example_arm] example_players
                [0; 0] example_state = Ok tt s' /\
     (sumZ (collisions s') - sumZ (collisions example_state))%Z
     = sum_over_arms (uniq_charge [0; 0]) (length [example_arm; example_arm])) /\
  (exists s', rewardIsSharedUniformly 0 [example_arm; example_arm] example_players
                [0; 0] example_state = Ok tt s' /\
     (sumZ (collisions s') - sumZ (collisions example_state))%Z
     = sum_over_arms (excess [0; 0]) (length [example_arm; example_arm])) /\
  (exists s', closerUserGetsReward 0 [example_arm; example_arm] example_players
                [0; 0] DistancesNone example_state = Ok tt s' /\
     (sumZ (collisions s') - sumZ (collisions example_state))%Z
     = sum_over_arms (excess [0; 0]) (length [example_arm; example_arm])) /\
  (exists s', closerUserGetsReward 0 [example_arm; example_arm] example_players
                [0; 0] DistancesUniform example_state = Ok tt s' /\
     (sumZ (collisions s') - sumZ (collisions example_state))%Z
     = sum_over_arms (excess [0; 0]) (length [example_arm; example_arm])).
Proof.
  apply (collisions_increase_by_model 0 [example_arm; example_arm]
           example_players [0; 0] example_state).
  apply example_well_formed; [reflexivity|].
  intros c [<-|[<-|[]]]; lia.
Defined.

(** C3: in a round of [onlyUniqUserGetsReward], the row of player [i] in
    the pulls changes if and only if [i] is alone on the arm it chose;
    then the entry of that arm increases by 1 and the others stay, the
    reward of [i] is the value that the arm it chose draws at time [t],
    with the word that the generator gives after one word for each
    player before [i] who is alone on its arm, and [getReward] is called
    on [i] with the arm and that value right after the draw. *)
Theorem onlyUniq_pull_iff_alone (t : nat) (arms : list Arm)
    (players : list Player) (choices : list nat) (s : State) :
  well_formed arms players choices s ->
  exists s' new_calls,
    onlyUniqUserGetsReward t arms players choices s = Ok tt s' /\
    calls s' = calls s ++ new_calls /\
    forall i c, nth_error choices i = Some c ->
      ((exists arm, pulls_at s' i arm <> pulls_at s i arm)
       <-> occupancy choices c = 1) /\
      (occupancy choices c = 1 ->
       exists a x,
         nth_error arms c = Some a /\
         pulls_at s i c = Some x /\
         pulls_at s' i c = Some (x + 1)%Z /\
         (forall arm, arm <> c -> pulls_at s' i arm = pulls_at s i arm) /\
         nth_error (rewards s') i = Some (a t (nth (loners choices i) (rng s) 0)) /\
         granted_value new_calls i c t (a t (nth (loners choices i) (rng s) 0))).
Proof.
  intros Hwf.
  destruct (onlyUniq_run_draws t arms players choices s Hwf)
    as (s' & new & Hrun & (_ & _ & new0 & Hcalls0 & Hout) & Hcalls & _ & Hdraws).
  assert (new0 = new).
  { rewrite Hcalls0 in Hcalls. apply app_inv_head in Hcalls. exact Hcalls. }
  subst new0.
  exists s', new. split; [exact Hrun|]. split; [exact Hcalls|].
  intros i c Hc. specialize (Hout i c Hc).
  assert (Hi : i < length players).
  { rewrite <- (wf_choices _ _ _ _ Hwf). apply nth_error_Some. congruence. }
  pose proof (Hdraws i c Hi Hc) as Hdraw.
  apply Nat.ltb_lt in Hi. rewrite Hi in Hout. cbn [andb] in Hout.
  destruct (Nat.eqb_spec (occupancy choices c) 1) as [Hone|Hmany].
  - destruct Hout as (r & row & x & Hr & Hg & Hrow & Hx & Hrow').
    destruct (Hdraw Hone) as (a & Ha & Hra & Hga).
    assert (Hclt : c < length row) by (apply nth_error_Some; congruence).
    assert (Hnew : pulls_at s' i c = Some (x + 1)%Z).
    { unfold pulls_at. rewrite Hrow'. apply nth_error_list_update_eq, Hclt. }
    assert (Hold : pulls_at s i c = Some x).
    { unfold pulls_at. rewrite Hrow. exact Hx. }
    split.
    + split; [intros _; exact Hone|]. intros _. exists c.
      rewrite Hnew, Hold. intros E. inversion E. lia.
    + intros _. exists a, x. repeat split; auto.
      intros arm Hne. unfold pulls_at. rewrite Hrow', Hrow.
      apply nth_error_list_update_neq. auto.
  - destruct Hout as [_ Hp]. split.
    + split; [|intros; contradiction].
      intros (arm & Harm). exfalso. apply Harm. unfold pulls_at. rewrite Hp.
      reflexivity.
    + intros; contradiction.
Qed.

Lemma onlyUniq_pull_iff_alone_witness :
  exists s' new_calls,
    onlyUniqUserGetsReward 0 [example_arm; example_arm] example_players [0; 1]
      example_state = Ok tt s' /\
    calls s' = calls example_state ++ new_calls /\
    forall i c, nth_error [0; 1] i = Some c ->
      ((exists arm, pulls_at s' i arm <> pulls_at example_state i arm)
       <-> occupancy [0; 1] c = 1) /\
      (occupancy [0; 1] c = 1 ->
       exists a x,
         nth_error [example_arm; example_arm] c = Some a /\
         pulls_at example_state i c = Some x /\
         pulls_at s' i c = Some (x + 1)%Z /\
         (forall arm, arm <> c -> pulls_at s' i arm = pulls_at example_state i arm) /\
         nth_error (rewards s') i
         = Some (a 0 (nth (loners [0; 1] i) (rng example_state) 0)) /\
         granted_value new_calls i c 0
           (a 0 (nth (loners [0; 1] i) (rng example_state) 0))).
Proof.
  apply (onlyUniq_pull_iff_alone 0 [example_arm; example_arm] example_players
           [0; 1] example_state).
  apply example_well_formed; [reflexivity|].
  intros c [<-|[<-|[]]]; lia.
Defined.

(** C10: in a round of [onlyUniqUserGetsReward], of
    [rewardIsSharedUniformly] or of [closerUserGetsReward], whether it
    ends normally or not, a player that is not granted the arm it chose
    keeps its entry of the rewards and its row of the pulls: the 0 of
    [getReward(arm, 0)] is not written in the rewards. *)
Theorem losers_keep_rewards_and_pulls (t : nat) (arms : list Arm)
    (players : list Player) (choices : list nat) (distances : DistancesArg)
    (s : State) :
  length choices = length players ->
  framed_step choices s (final (onlyUniqUserGetsReward t arms players choices s)) /\
  framed_step choices s (final (rewardIsSharedUniformly t arms players choices s)) /\
  framed_step choices s
    (final (closerUserGetsReward t arms players choices distances s)).
Proof.
  intros Hlen. repeat split.
  - apply framed_onlyUniq.
  - apply framed_rewardIsSharedUniformly, Hlen.
  - apply framed_closerUserGetsReward, Hlen.
Qed.

Lemma losers_keep_rewards_and_pulls_witness :
  framed_step [0; 0] example_state
    (final (onlyUniqUserGetsReward 0 [example_arm; example_arm] example_players
              [0; 0] example_state)) /\
  framed_step [0; 0] example_state
    (final (rewardIsSharedUniformly 0 [example_arm; example_arm] example_players
              [0; 0] example_state)) /\
  framed_step [0; 0] example_state
    (final (closerUserGetsReward 0 [example_arm; example_arm] example_players
              [0; 0] DistancesNone example_state)).
Proof.
  apply (losers_keep_rewards_and_pulls 0 [example_arm; example_arm]
           example_players [0; 0] DistancesNone example_state).
  reflexivity.
Defined.

(** ** The closest player pulls *)

Lemma In_signals (players : list Player) (who : list nat) (i arm j : nat)
    (player : Player) :
  (forall j', In j' who -> j' < length players) ->
  In j who -> j <> i -> nth_error players j = Some player ->
  In (collision_event player j arm) (signals players who i arm).
Proof.
  induction who as [|j0 who IH]; intros Hlt Hin Hne Hpl; [destruct Hin|].
  cbn [signals].
  assert (Hlt' : forall j', In j' who -> j' < length players)
    by (intros j' Hj'; apply Hlt; right; exact Hj').
  destruct (Nat.eqb_spec i j0) as [->|Hij].
  - destruct Hin as [->|Hin]; [contradiction | auto].
  - destruct (nth_error players j0) as [pl0|] eqn:Hpl0.
    + destruct Hin as [->|Hin].
      * rewrite Hpl in Hpl0. inversion Hpl0; subst. left; reflexivity.
      * right. auto.
    + apply nth_error_None in Hpl0. specialize (Hlt j0 (or_introl eq_refl)). lia.
Qed.

Lemma signalled_app_l (players : list Player) (n1 n2 : list Event) (j arm : nat) :
  signalled players n1 j arm -> signalled players (n1 ++ n2) j arm.
Proof.
  intros (pl & Hpl & Hin). exists pl. split; [exact Hpl|].
  apply in_or_app. left; exact Hin.
Qed.

(** The player that pulls is at the least distance. *)
Lemma closest_least (d : list Q) (who : list nat) (j : nat) :
  In j who -> (nth (closest d who) d 0 <= nth j d 0)%Q.
Proof.
  intros Hj.
  assert (Hne : distances_of d who <> []).
  { unfold distances_of. destruct who; [destruct Hj | discriminate]. }
  pose proof (min_of_in _ Hne) as Hmin.
  pose proof (nth_index_of _ _ Hmin) as Heq.
  pose proof (index_of_lt _ _ Hmin) as Hlt.
  assert (E : nth (index_of (distances_of d who) (min_of (distances_of d who)))
                (distances_of d who) 0%Q
              = nth (closest d who) d 0%Q).
  { unfold closest, distances_of at 3.
    rewrite (nth_indep _ 0%Q (nth 0 d 0%Q)) by exact Hlt.
    apply (map_nth (fun j => nth j d 0%Q)). }
  rewrite E in Heq. rewrite Heq.
  apply min_of_le. unfold distances_of. apply in_map_iff. exists j. auto.
Qed.

Lemma closer_step_outcome (t : nat) (arms : list Arm) (players : list Player)
    (choices : list nat) (d : list Q) (s0 s : State) (k : nat) :
  well_formed arms players choices s0 ->
  length d = length players ->
  pairwise_distinct d ->
  k < length arms ->
  closer_inv t players choices d (length arms) s0 k s ->
  exists s',
    closer_body t arms players choices d k s = Ok tt s' /\
    closer_inv t players choices d (length arms) s0 (S k) s'.
Proof.
  intros Hwf Hd Hdist Hk (Hsh & new & Hcalls & Hrest & Hdone).
  destruct Hwf as [W1 W2 W3 W4 W5 W6].
  assert (Hwho : forall j, In j (nonzero_eq choices k) -> j < length players).
  { intros j Hj. rewrite <- W1. eapply nonzero_eq_lt, Hj. }
  destruct (nonzero_eq choices k) as [|j0 who'] eqn:Ewho.
  - (* nobody chose the arm *)
    exists s. split.
    { unfold closer_body. rewrite Ewho. reflexivity. }
    split; [exact Hsh|]. exists new. split; [exact Hcalls|]. split.
    + intros j c Hc Hle. apply (Hrest j c Hc). lia.
    + intros arm Harm Hocc.
      destruct (Nat.eq_dec arm k) as [->|Hne]; [|apply Hdone; [lia | exact Hocc]].
      rewrite <- (length_nonzero_eq choices k), Ewho in Hocc. simpl in Hocc. lia.
  - assert (Hne : nonzero_eq choices k <> []) by (rewrite Ewho; discriminate).
    rewrite <- Ewho in Hwho. clear Ewho j0 who'.
    set (who := nonzero_eq choices k) in *.
    pose proof (closest_in d who Hne) as Hin.
    set (i := closest d who) in *.
    assert (Hci : nth_error choices i = Some k) by (apply In_nonzero_eq, Hin).
    pose proof (Hwho i Hin) as Hip.
    destruct Hsh as [S1 S2 S3 S4].
    destruct (Hrest i k Hci (Nat.le_refl k)) as [_ Hpi].
    destruct (nth_error (collisions s) k) as [y|] eqn:Hy.
    2:{ apply nth_error_None in Hy. lia. }
    destruct (nth_error arms k) as [a|] eqn:Ha.
    2:{ apply nth_error_None in Ha. lia. }
    destruct (nth_error (pulls s0) i) as [row|] eqn:Hrow0.
    2:{ apply nth_error_None in Hrow0. lia. }
    assert (Hrow : nth_error (pulls s) i = Some row) by congruence.
    destruct (nth_error row k) as [x|] eqn:Hx.
    2:{ apply nth_error_None in Hx.
        rewrite (W4 row) in Hx by (eapply nth_error_In; eauto). lia. }
    eexists. split.
    { eapply closer_body_run; eauto. fold who. fold i. lia. }
    fold who. fold i. split.
    + constructor; cbn [rewards pulls collisions].
      * rewrite list_update_length. exact S1.
      * rewrite list_update_length. exact S2.
      * intros row' Hin'. apply In_list_update in Hin'. destruct Hin' as [->|Hin'].
        -- rewrite list_update_length. apply S3. eapply nth_error_In; eauto.
        -- apply S3, Hin'.
      * rewrite list_update_length. exact S4.
    + eexists. split.
      { cbn [calls]. rewrite Hcalls, <- app_assoc. reflexivity. }
      unfold closer_outcome. cbn [rewards pulls]. split.
      * intros j c Hc Hle.
        assert (j <> i) by (intros ->; rewrite Hci in Hc; inversion Hc; lia).
        rewrite !nth_error_list_update_neq by auto. apply (Hrest j c Hc). lia.
      * intros arm Harm Hocc.
        destruct (Nat.eq_dec arm k) as [->|Hne'].
        -- exists i. split; [exact Hci|]. split; [|split; [|split]].
           ++ intros j Hj. apply closest_least. apply In_nonzero_eq, Hj.
           ++ eexists. split.
              ** apply nth_error_list_update_eq. lia.
              ** exists new, (signals players who i k). reflexivity.
           ++ exists row, x. repeat split; auto.
              apply nth_error_list_update_eq. lia.
           ++ intros j Hji Hcj.
              rewrite !nth_error_list_update_neq by auto.
              destruct (Hrest j k Hcj (Nat.le_refl k)) as [Hr Hp].
              split; [|split; assumption].
              assert (Hjw : In j who) by (apply In_nonzero_eq, Hcj).
              destruct (nth_error players j) as [pl|] eqn:Hpl.
              2:{ apply nth_error_None in Hpl. specialize (Hwho j Hjw). lia. }
              exists pl. split; [exact Hpl|].
              apply in_or_app. right. right. right.
              apply In_signals; auto.
        -- destruct (Hdone arm) as (i' & Hci' & Hleast & (r & Hr & Hg) &
                                   (row' & x' & Hr0 & Hx' & Hp') & Hothers);
             [lia | exact Hocc |].
           assert (Hii : i' <> i).
           { intros ->. rewrite Hci in Hci'. inversion Hci'. lia. }
           exists i'. split; [exact Hci'|]. split; [exact Hleast|].
           split; [|split].
           ++ exists r. split.
              ** rewrite nth_error_list_update_neq by auto. exact Hr.
              ** apply granted_value_app_l, Hg.
           ++ exists row', x'. repeat split; auto.
              rewrite nth_error_list_update_neq by auto. exact Hp'.
           ++ intros j Hji Hcj.
              assert (Hjk : j <> i).
              { intros ->. rewrite Hci in Hcj. inversion Hcj. lia. }
              rewrite !nth_error_list_update_neq by auto.
              destruct (Hothers j Hji Hcj) as (Hs & Hr' & Hp'').
              split; [apply signalled_app_l, Hs | split; assumption].
Qed.

Lemma closer_run_outcome (t : nat) (arms : list Arm) (players : list Player)
    (choices : list nat) (d : list Q) (s0 : State) :
  well_formed arms players choices s0 ->
  length d = length players ->
  pairwise_distinct d ->
  exists s',
    closerUserGetsReward t arms players choices (DistancesArray d) s0 = Ok tt s' /\
    closer_inv t players choices d (length arms) s0 (length arms) s'.
Proof.
  intros Hwf Hd Hdist. rewrite closer_unfold.
  apply (forM__seq_inv _ (closer_inv t players choices d (length arms) s0)).
  - intros k s Hk Hinv. apply closer_step_outcome; auto.
  - split; [apply (well_formed_shaped _ _ _ _ Hwf)|].
    exists []. split; [rewrite app_nil_r; reflexivity|]. split.
    + intros; auto.
    + intros arm Harm. lia.
Qed.

(** Away from the ties, C9 holds: when the distances are pairwise
    distinct (given as an array, which is read as numpy before 1.25
    reads it), a round of [closerUserGetsReward] ends normally, and on
    every arm that a player chose, one of the players who chose it, at
    the least distance among them, has the entry of the arm in its row of
    the pulls increased by 1, its reward set to the draw and [getReward]
    called with the draw; the other players who chose the arm learn of
    the collision and keep their reward and their row of the pulls. *)
Lemma closer_grants_the_closest (t : nat) (arms : list Arm)
    (players : list Player) (choices : list nat) (d : list Q) (s : State) :
  well_formed arms players choices s ->
  length d = length players ->
  pairwise_distinct d ->
  exists s' new_calls,
    closerUserGetsReward t arms players choices (DistancesArray d) s = Ok tt s' /\
    calls s' = calls s ++ new_calls /\
    forall arm, arm < length arms -> 1 <= occupancy choices arm ->
      exists i,
        nth_error choices i = Some arm /\
        (forall j, nth_error choices j = Some arm -> (nth i d 0 <= nth j d 0)%Q) /\
        (exists x r,
           pulls_at s i arm = Some x /\
           pulls_at s' i arm = Some (x + 1)%Z /\
           (forall arm', arm' <> arm -> pulls_at s' i arm' = pulls_at s i arm') /\
           nth_error (rewards s') i = Some r /\
           granted_value new_calls i arm t r) /\
        (forall j, j <> i -> nth_error choices j = Some arm ->
           signalled players new_calls j arm /\
           nth_error (rewards s') j = nth_error (rewards s) j /\
           nth_error (pulls s') j = nth_error (pulls s) j).
Proof.
  intros Hwf Hd Hdist.
  destruct (closer_run_outcome t arms players choices d s Hwf Hd Hdist)
    as (s' & Hrun & _ & new & Hcalls & _ & Hdone).
  exists s', new. split; [exact Hrun|]. split; [exact Hcalls|].
  intros arm Harm Hocc.
  destruct (Hdone arm Harm Hocc)
    as (i & Hci & Hleast & (r & Hr & Hg) & (row & x & Hr0 & Hx & Hp) & Hothers).
  exists i. split; [exact Hci|]. split; [exact Hleast|]. split; [|exact Hothers].
  assert (Hlt : arm < length row) by (apply nth_error_Some; congruence).
  exists x, r. repeat split; auto.
  - unfold pulls_at. rewrite Hr0. exact Hx.
  - unfold pulls_at. rewrite Hp. apply nth_error_list_update_eq, Hlt.
  - intros arm' Hne. unfold pulls_at. rewrite Hp, Hr0.
    apply nth_error_list_update_neq. auto.
Qed.

(** C9 fails on the code: two players at the same distance choose the
    same arm. The arm is occupied, its collisions are increased, and the
    round stops on [ValueError] before any player pulls or is called. *)
Theorem closer_tie_raises :
  closerUserGetsReward 0 [example_arm; example_arm] example_players [0; 0]
    (DistancesArray [Qmake 1 2; Qmake 1 2]) example_state
  = Raise ValueError
      (mkState [0%Q; 0%Q] [[0%Z; 0%Z]; [0%Z; 0%Z]] [1%Z; 0%Z] [3; 4; 5] [] []).
Proof. reflexivity. Qed.

(** ** [noCollision] *)

Lemma noCollision_unfold (t : nat) (arms : list Arm) (players : list Player)
    (choices : list nat) :
  noCollision t arms players choices =
  forM_ (enumerate players) (nocoll_body t arms choices).
Proof. reflexivity. Qed.

Lemma nocoll_body_run (t : nat) (arms : list Arm) (choices : list nat)
    (i : nat) (player : Player) (s : State) (c : nat) (a : Arm) (row : list Z) (x : Z) :
  nth_error choices i = Some c ->
  nth_error arms c = Some a ->
  i < length (rewards s) ->
  nth_error (pulls s) i = Some row ->
  nth_error row c = Some x ->
  nocoll_body t arms choices (i, player) s =
  Ok tt (mkState (list_update (rewards s) i (a t (hd 0 (rng s))))
                 (list_update (pulls s) i (list_update row c (x + 1)%Z))
                 (collisions s) (tl (rng s)) (cache s)
                 (calls s ++ [EvDraw c t (a t (hd 0 (rng s)));
                              EvGetReward i c (a t (hd 0 (rng s)))])).
Proof.
  intros Hc Ha Hi Hrow Hx.
  unfold nocoll_body. unfold bind at 1. unfold getitem at 1. rewrite Hc. unfold ret at 1.
  unfold bind at 1. rewrite arm_draw_eq, Ha.
  unfold bind at 1. unfold set_reward at 1.
  cbn [rewards pulls collisions rng cache calls].
  apply Nat.ltb_lt in Hi. rewrite Hi. apply Nat.ltb_lt in Hi.
  unfold bind at 1. unfold get_reward at 1, getitem at 1.
  cbn [rewards pulls collisions rng cache calls].
  rewrite nth_error_list_update_eq by exact Hi. unfold ret at 1.
  unfold bind at 1. unfold log at 1.
  unfold incr_pulls. cbn [rewards pulls collisions rng cache calls].
  rewrite Hrow, Hx. rewrite <- app_assoc. reflexivity.
Qed.

Lemma nocoll_step (t : nat) (arms : list Arm) (players : list Player)
    (choices : list nat) (s0 s : State) (k : nat) (player : Player) :
  well_formed arms players choices s0 ->
  k < length players ->
  nocoll_inv t arms choices (length players) s0 k s ->
  exists s', nocoll_body t arms choices (k, player) s = Ok tt s' /\
             nocoll_inv t arms choices (length players) s0 (S k) s'.
Proof.
  intros Hwf Hk (Hsh & Hcoll & Hrng & new & Hcalls & Hout).
  destruct Hwf as [W1 W2 W3 W4 W5 W6].
  destruct Hsh as [S1 S2 S3 S4].
  destruct (nth_error choices k) as [c|] eqn:Hc.
  2:{ apply nth_error_None in Hc. lia. }
  assert (Hlt : c < length arms) by (apply W6; eapply nth_error_In; eauto).
  destruct (nth_error arms c) as [a|] eqn:Ha.
  2:{ apply nth_error_None in Ha. lia. }
  pose proof (Hout k c Hc) as Hk0.
  rewrite Nat.ltb_irrefl in Hk0. destruct Hk0 as [Hr0 Hp0].
  destruct (nth_error (pulls s0) k) as [row|] eqn:Hrow.
  2:{ apply nth_error_None in Hrow. lia. }
  assert (Hrowlen : length row = length arms).
  { apply W4. eapply nth_error_In; eauto. }
  destruct (nth_error row c) as [x|] eqn:Hx.
  2:{ apply nth_error_None in Hx. lia. }
  eexists. split.
  { eapply nocoll_body_run; eauto. lia. }
  assert (Hword : hd 0 (rng s) = nth k (rng s0) 0).
  { rewrite Hrng. apply hd_skipn_nth. }
  split; [|split; [|split]].
  - constructor; cbn [rewards pulls collisions].
    + rewrite list_update_length. exact S1.
    + rewrite list_update_length. exact S2.
    + intros row' Hin. apply In_list_update in Hin. destruct Hin as [->|Hin].
      * rewrite list_update_length. exact Hrowlen.
      * apply S3, Hin.
    + exact S4.
  - exact Hcoll.
  - cbn [rng]. rewrite Hrng. apply tl_skipn.
  - eexists. split.
    { cbn [calls]. rewrite Hcalls, <- app_assoc. reflexivity. }
    intros i c' Hc'. cbn [rewards pulls]. rewrite Hword.
    destruct (Nat.eq_dec i k) as [->|Hne].
    + rewrite Hc in Hc'. inversion Hc'; subst c'.
      replace (Nat.ltb k (S k)) with true by (symmetry; apply Nat.ltb_lt; lia).
      exists a, row, x.
      rewrite !nth_error_list_update_eq by lia.
      repeat split; auto.
      exists new, []. reflexivity.
    + rewrite !nth_error_list_update_neq by auto.
      specialize (Hout i c' Hc').
      replace (Nat.ltb i (S k)) with (Nat.ltb i k).
      2:{ destruct (Nat.ltb_spec i k), (Nat.ltb_spec i (S k)); auto; lia. }
      destruct (Nat.ltb i k); [|exact Hout].
      destruct Hout as (a' & row' & x' & H0 & H1 & H2 & H3 & H4 & H5).
      exists a', row', x'. repeat split; auto.
      apply granted_value_app_l, H2.
Qed.

Lemma nocoll_loop (t : nat) (arms : list Arm) (players : list Player)
    (choices : list nat) (s0 : State) :
  well_formed arms players choices s0 ->
  forall post pre s,
    enumerate players = pre ++ post ->
    nocoll_inv t arms choices (length players) s0 (length pre) s ->
    exists s', forM_ post (nocoll_body t arms choices) s = Ok tt s' /\
               nocoll_inv t arms choices (length players) s0 (length players) s'.
Proof.
  intros Hwf. induction post as [|[i pl] post IH]; intros pre s Hsplit Hinv.
  - exists s. split; [reflexivity|].
    rewrite app_nil_r in Hsplit. rewrite <- Hsplit, enumerate_length in Hinv.
    exact Hinv.
  - destruct (enumerate_split _ _ _ _ _ Hsplit) as [-> Hpl].
    assert (Hlt : length pre < length players) by (apply nth_error_Some; congruence).
    destruct (nocoll_step t arms players choices s0 s (length pre) pl Hwf Hlt Hinv)
      as (s1 & Hrun & Hinv1).
    destruct (IH (pre ++ [(length pre, pl)]) s1) as (s' & Hrun' & Hinv').
    + rewrite <- app_assoc. exact Hsplit.
    + rewrite length_app, Nat.add_1_r. exact Hinv1.
    + exists s'. split; [|exact Hinv'].
      rewrite (forM__cons _ _ _ _ _ Hrun). exact Hrun'.
Qed.

(** X1: a round of [noCollision] on arrays of the sizes of the round ends
    normally and leaves the collisions as they are; every player,
    whoever else chose the same arm, has the entry of its arm in its row
    of the pulls increased by 1 and the others kept, and gets as reward
    the draw of its arm, made with the word of the generator of its
    rank, by a call of [getReward] right after the draw; the generator
    has given one word per player. *)
Theorem noCollision_everyone_pulls (t : nat) (arms : list Arm)
    (players : list Player) (choices : list nat) (s : State) :
  well_formed arms players choices s ->
  exists s' new_calls,
    noCollision t arms players choices s = Ok tt s' /\
    calls s' = calls s ++ new_calls /\
    collisions s' = collisions s /\
    rng s' = skipn (length players) (rng s) /\
    forall i c, nth_error choices i = Some c ->
      exists a x,
        nth_error arms c = Some a /\
        pulls_at s i c = Some x /\
        pulls_at s' i c = Some (x + 1)%Z /\
        (forall arm, arm <> c -> pulls_at s' i arm = pulls_at s i arm) /\
        nth_error (rewards s') i = Some (a t (nth i (rng s) 0)) /\
        granted_value new_calls i c t (a t (nth i (rng s) 0)).
Proof.
  intros Hwf. rewrite noCollision_unfold.
  destruct (nocoll_loop t arms players choices s Hwf (enumerate players) [] s)
    as (s' & Hrun & _ & Hcoll & Hrng & new & Hcalls & Hout).
  - reflexivity.
  - split; [apply (well_formed_shaped _ _ _ _ Hwf)|].
    split; [reflexivity|]. split; [reflexivity|].
    exists []. split; [rewrite app_nil_r; reflexivity|].
    intros i c Hc. simpl. auto.
  - exists s', new. repeat (split; [assumption|]).
    intros i c Hc. specialize (Hout i c Hc).
    assert (Hi : i < length players).
    { rewrite <- (wf_choices _ _ _ _ Hwf). apply nth_error_Some. congruence. }
    apply Nat.ltb_lt in Hi. rewrite Hi in Hout.
    destruct Hout as (a & row & x & Ha & Hr & Hg & Hrow & Hx & Hrow').
    assert (Hclt : c < length row) by (apply nth_error_Some; congruence).
    exists a, x. repeat split; auto.
    + unfold pulls_at. rewrite Hrow. exact Hx.
    + unfold pulls_at. rewrite Hrow'. apply nth_error_list_update_eq, Hclt.
    + intros arm Hne. unfold pulls_at. rewrite Hrow', Hrow.
      apply nth_error_list_update_neq. auto.
Qed.

Lemma noCollision_everyone_pulls_witness :
  exists s' new_calls,
    noCollision 0 [example_arm; example_arm] example_players [0; 0] example_state
    = Ok tt s' /\
    calls s' = calls example_state ++ new_calls /\
    collisions s' = collisions example_state /\
    rng s' = skipn (length example_players) (rng example_state) /\
    forall i c, nth_error [0; 0] i = Some c ->
      exists a x,
        nth_error [example_arm; example_arm] c = Some a /\
        pulls_at example_state i c = Some x /\
        pulls_at s' i c = Some (x + 1)%Z /\
        (forall arm, arm <> c -> pulls_at s' i arm = pulls_at example_state i arm) /\
        nth_error (rewards s') i = Some (a 0 (nth i (rng example_state) 0)) /\
        granted_value new_calls i c 0 (a 0 (nth i (rng example_state) 0)).
Proof.
  apply (noCollision_everyone_pulls 0 [example_arm; example_arm] example_players
           [0; 0] example_state).
  apply example_well_formed; [reflexivity|].
  intros c [<-|[<-|[]]]; lia.
Defined.

(** ** The outcome of [rewardIsSharedUniformly] *)

Lemma shared_unfold (t : nat) (arms : list Arm) (players : list Player)
    (choices : list nat) :
  rewardIsSharedUniformly t arms players choices =
  forM_ (seq 0 (length arms)) (shared_body t arms players choices).
Proof. reflexivity. Qed.

Lemma shared_body_run (t : nat) (arms : list Arm) (players : list Player)
    (choices : list nat) (arm : nat) (s : State)
    (a : Arm) (row : list Z) (x y : Z) (i : nat) :
  length choices = length players ->
  nonzero_eq choices arm <> [] ->
  i = nth (hd 0 (rng s) mod length (nonzero_eq choices arm)) (nonzero_eq choices arm) 0 ->
  nth_error arms arm = Some a ->
  nth_error (collisions s) arm = Some y ->
  i < length (rewards s) ->
  nth_error (pulls s) i = Some row ->
  nth_error row arm = Some x ->
  shared_body t arms players choices arm s =
  Ok tt (mkState
           (list_update (rewards s) i (a t (hd 0 (tl (rng s)))))
           (list_update (pulls s) i (list_update row arm (x + 1)%Z))
           (list_update (collisions s) arm
              (y + (Z.of_nat (occupancy choices arm) - 1))%Z)
           (tl (tl (rng s))) (cache s)
           (calls s ++ EvDraw arm t (a t (hd 0 (tl (rng s))))
                    :: EvGetReward i arm (a t (hd 0 (tl (rng s))))
                    :: signals players (nonzero_eq choices arm) i arm)).
Proof.
  intros Hlen Hne Ei Ha Hy Hi Hrow Hx.
  assert (Hwho : forall j, In j (nonzero_eq choices arm) -> j < length players).
  { intros j Hj. rewrite <- Hlen. eapply nonzero_eq_lt, Hj. }
  unfold shared_body. cbv zeta.
  rewrite <- (length_nonzero_eq choices arm).
  set (who := nonzero_eq choices arm) in *.
  assert (Hlen0 : length who <> 0) by (destruct who; [congruence | discriminate]).
  assert (Hin : In i who).
  { rewrite Ei. apply nth_In. apply Nat.mod_upper_bound. exact Hlen0. }
  replace (Nat.ltb 0 (length who)) with true by (symmetry; apply Nat.ltb_lt; lia).
  unfold bind at 1. unfold incr_collisions at 1. rewrite Hy.
  unfold bind at 1.
  assert (Ech : forall s1, random_choice who s1 =
                  Ok (nth (hd 0 (rng s1) mod length who) who 0)
                     (mkState (rewards s1) (pulls s1) (collisions s1)
                              (tl (rng s1)) (cache s1) (calls s1))).
  { intros s1. unfold random_choice. destruct who as [|j0 who']; [congruence|].
    reflexivity. }
  rewrite Ech. cbn [rewards pulls collisions rng cache calls]. rewrite <- Ei.
  erewrite pull_and_signal_run; cbn [rewards pulls collisions rng cache calls]; eauto.
Qed.

Lemma In_signals_inv (players : list Player) (who : list nat) (i arm : nat) (e : Event) :
  In e (signals players who i arm) ->
  exists j player, In j who /\ e = collision_event player j arm.
Proof.
  induction who as [|j0 who IH]; intros Hin; [destruct Hin|].
  cbn [signals] in Hin.
  destruct (Nat.eqb i j0).
  - destruct (IH Hin) as (j & pl & Hj & E). exists j, pl. split; [right; exact Hj | exact E].
  - destruct (nth_error players j0) as [pl0|]; [|destruct Hin].
    destruct Hin as [<-|Hin].
    + exists j0, pl0. split; [left; reflexivity | reflexivity].
    + destruct (IH Hin) as (j & pl & Hj & E).
      exists j, pl. split; [right; exact Hj | exact E].
Qed.

Lemma call_on_own_arm_mono (choices : list nat) (k k' : nat) (e : Event) :
  k <= k' -> call_on_own_arm choices k e -> call_on_own_arm choices k' e.
Proof.
  intros Hk. destruct e; cbn [call_on_own_arm]; intuition lia.
Qed.

Lemma excess_unoccupied (choices : list nat) (arm : nat) :
  occupancy choices arm = 0 -> excess choices arm = 0%Z.
Proof. intros H. unfold excess. rewrite H. reflexivity. Qed.

Lemma shared_step_outcome (t : nat) (arms : list Arm) (players : list Player)
    (choices : list nat) (s0 s : State) (k : nat) :
  length choices = length players ->
  shaped (length players) (length arms) s0 ->
  k < length arms ->
  shared_inv t players choices (length arms) s0 k s ->
  exists s',
    shared_body t arms players choices k s = Ok tt s' /\
    shared_inv t players choices (length arms) s0 (S k) s'.
Proof.
  intros W1 [W2 W3 W4 W5] Hk (Hsh & new & Hcalls & Hrest & Hdone & Hown & Hcoll).
  assert (Hwho : forall j, In j (nonzero_eq choices k) -> j < length players).
  { intros j Hj. rewrite <- W1. eapply nonzero_eq_lt, Hj. }
  destruct (nonzero_eq choices k) as [|j0 who'] eqn:Ewho.
  - (* nobody chose the arm *)
    assert (Hocc0 : occupancy choices k = 0).
    { rewrite <- (length_nonzero_eq choices k), Ewho. reflexivity. }
    exists s. split.
    { unfold shared_body. rewrite Ewho. reflexivity. }
    split; [exact Hsh|]. exists new. split; [exact Hcalls|].
    split; [|split; [|split]].
    + intros j Hj. apply Hrest. intros c Hc.
      specialize (Hj c Hc). lia.
    + intros arm Harm Hocc.
      destruct (Nat.eq_dec arm k) as [->|Hne]; [lia|].
      apply Hdone; [lia | exact Hocc].
    + eapply Forall_impl; [|exact Hown].
      intros e. apply call_on_own_arm_mono. lia.
    + intros arm. rewrite Hcoll.
      destruct (Nat.eq_dec arm k) as [->|Hne].
      * rewrite Nat.ltb_irrefl.
        replace (Nat.ltb k (S k)) with true by (symmetry; apply Nat.ltb_lt; lia).
        rewrite (excess_unoccupied _ _ Hocc0).
        destruct (nth_error (collisions s0) k); cbn [option_map]; [f_equal; lia | reflexivity].
      * replace (Nat.ltb arm (S k)) with (Nat.ltb arm k); [reflexivity|].
        destruct (Nat.ltb_spec arm k), (Nat.ltb_spec arm (S k)); auto; lia.
  - assert (Hne : nonzero_eq choices k <> []) by (rewrite Ewho; discriminate).
    assert (Hocc1 : 1 <= occupancy choices k).
    { rewrite <- (length_nonzero_eq choices k), Ewho. simpl. lia. }
    rewrite <- Ewho in Hwho. clear Ewho j0 who'.
    set (who := nonzero_eq choices k) in *.
    assert (Hlen0 : length who <> 0) by (destruct who; [congruence | discriminate]).
    set (i := nth (hd 0 (rng s) mod length who) who 0).
    assert (Hin : In i who).
    { apply nth_In. apply Nat.mod_upper_bound. exact Hlen0. }
    assert (Hci : nth_error choices i = Some k) by (apply In_nonzero_eq, Hin).
    pose proof (Hwho i Hin) as Hip.
    destruct Hsh as [S1 S2 S3 S4].
    destruct (Hrest i) as [_ Hpi].
    { intros c Hc. rewrite Hci in Hc. inversion Hc. lia. }
    destruct (nth_error (collisions s) k) as [y|] eqn:Hy.
    2:{ apply nth_error_None in Hy. lia. }
    destruct (nth_error arms k) as [a|] eqn:Ha.
    2:{ apply nth_error_None in Ha. lia. }
    destruct (nth_error (pulls s0) i) as [row|] eqn:Hrow0.
    2:{ apply nth_error_None in Hrow0. lia. }
    assert (Hrow : nth_error (pulls s) i = Some row) by congruence.
    destruct (nth_error row k) as [x|] eqn:Hx.
    2:{ apply nth_error_None in Hx.
        rewrite (W4 row) in Hx by (eapply nth_error_In; eauto). lia. }
    eexists. split.
    { eapply (shared_body_run t arms players choices k s a row x y i); eauto. lia. }
    fold who. split.
    + constructor; cbn [rewards pulls collisions].
      * rewrite list_update_length. exact S1.
      * rewrite list_update_length. exact S2.
      * intros row' Hin'. apply In_list_update in Hin'. destruct Hin' as [->|Hin'].
        -- rewrite list_update_length. apply S3. eapply nth_error_In; eauto.
        -- apply S3, Hin'.
      * rewrite list_update_length. exact S4.
    + eexists. split.
      { cbn [calls]. rewrite Hcalls, <- app_assoc. reflexivity. }
      unfold shared_outcome. cbn [rewards pulls collisions].
      split; [|split; [|split]].
      * intros j Hj.
        assert (j <> i).
        { intros ->. specialize (Hj k Hci). lia. }
        rewrite !nth_error_list_update_neq by auto. apply Hrest.
        intros c Hc. specialize (Hj c Hc). lia.
      * intros arm Harm Hocc.
        destruct (Nat.eq_dec arm k) as [->|Hne'].
        -- exists i. split; [exact Hci|]. split; [|split].
           ++ eexists. split.
              ** apply nth_error_list_update_eq. lia.
              ** exists new, (signals players who i k). reflexivity.
           ++ exists row, x. repeat split; auto.
              apply nth_error_list_update_eq. lia.
           ++ intros j Hji Hcj.
              rewrite !nth_error_list_update_neq by auto.
              destruct (Hrest j) as [Hr Hp].
              { intros c Hc. rewrite Hcj in Hc. inversion Hc. lia. }
              split; [|split; assumption].
              assert (Hjw : In j who) by (apply In_nonzero_eq, Hcj).
              destruct (nth_error players j) as [pl|] eqn:Hpl.
              2:{ apply nth_error_None in Hpl. specialize (Hwho j Hjw). lia. }
              exists pl. split; [exact Hpl|].
              apply in_or_app. right. right. right.
              apply In_signals; auto.
        -- destruct (Hdone arm) as (i' & Hci' & (r & Hr & Hg) &
                                   (row' & x' & Hr0 & Hx' & Hp') & Hothers);
             [lia | exact Hocc |].
           assert (Hii : i' <> i).
           { intros ->. rewrite Hci in Hci'. inversion Hci'. lia. }
           exists i'. split; [exact Hci'|]. split; [|split].
           ++ exists r. split.
              ** rewrite nth_error_list_update_neq by auto. exact Hr.
              ** apply granted_value_app_l, Hg.
           ++ exists row', x'. repeat split; auto.
              rewrite nth_error_list_update_neq by auto. exact Hp'.
           ++ intros j Hji Hcj.
              assert (Hjk : j <> i).
              { intros ->. rewrite Hci in Hcj. inversion Hcj. lia. }
              rewrite !nth_error_list_update_neq by auto.
              destruct (Hothers j Hji Hcj) as (Hs & Hr' & Hp'').
              split; [apply signalled_app_l, Hs | split; assumption].
      * apply Forall_app. split.
        -- eapply Forall_impl; [|exact Hown].
           intros e. apply call_on_own_arm_mono. lia.
        -- constructor; [cbn; lia|]. constructor; [cbn; split; [exact Hci | lia]|].
           apply Forall_forall. intros e He.
           destruct (In_signals_inv _ _ _ _ _ He) as (j & pl & Hj & ->).
           apply In_nonzero_eq in Hj.
           unfold collision_event. destruct (hasHandleCollision pl); cbn; split; auto.
      * intros arm.
        destruct (Nat.eq_dec arm k) as [->|Hne'].
        -- rewrite nth_error_list_update_eq by lia.
           replace (Nat.ltb k (S k)) with true by (symmetry; apply Nat.ltb_lt; lia).
           pose proof (Hcoll k) as Hck. rewrite Nat.ltb_irrefl, Hy in Hck.
           rewrite <- Hck. cbn [option_map]. f_equal. unfold excess. lia.
        -- rewrite nth_error_list_update_neq by auto. rewrite Hcoll.
           replace (Nat.ltb arm (S k)) with (Nat.ltb arm k); [reflexivity|].
           destruct (Nat.ltb_spec arm k), (Nat.ltb_spec arm (S k)); auto; lia.
Qed.

Lemma shared_run_outcome (t : nat) (arms : list Arm) (players : list Player)
    (choices : list nat) (s0 : State) :
  length choices = length players ->
  shaped (length players) (length arms) s0 ->
  exists s',
    rewardIsSharedUniformly t arms players choices s0 = Ok tt s' /\
    shared_inv t players choices (length arms) s0 (length arms) s'.
Proof.
  intros Hlen Hsh. rewrite shared_unfold.
  apply (forM__seq_inv _ (shared_inv t players choices (length arms) s0)).
  - intros k s Hk Hinv. apply shared_step_outcome; auto.
  - split; [exact Hsh|].
    exists []. split; [rewrite app_nil_r; reflexivity|].
    split; [|split; [|split]].
    + intros; auto.
    + intros arm Harm. lia.
    + constructor.
    + intros arm. reflexivity.
Qed.

Lemma example_shaped : shaped 2 2 example_state.
Proof.
  constructor; simpl; auto. intros row [<-|[<-|[]]]; reflexivity.
Qed.

(** X2: a round of [rewardIsSharedUniformly], for as many choices as
    players and arrays of the sizes of the round, ends normally; on every
    arm that a player chose, one of the players who chose it has the
    entry of the arm in its row of the pulls increased by 1 and the others
    kept, its reward set to the draw and [getReward] called with the draw
    right after it; every other player who chose the arm learns of the
    collision and keeps its reward and its row of the pulls. *)
Theorem shared_one_winner_per_arm (t : nat) (arms : list Arm)
    (players : list Player) (choices : list nat) (s : State) :
  length choices = length players ->
  shaped (length players) (length arms) s ->
  exists s' new_calls,
    rewardIsSharedUniformly t arms players choices s = Ok tt s' /\
    calls s' = calls s ++ new_calls /\
    forall arm, arm < length arms -> 1 <= occupancy choices arm ->
      exists i,
        nth_error choices i = Some arm /\
        (exists x r,
           pulls_at s i arm = Some x /\
           pulls_at s' i arm = Some (x + 1)%Z /\
           (forall arm', arm' <> arm -> pulls_at s' i arm' = pulls_at s i arm') /\
           nth_error (rewards s') i = Some r /\
           granted_value new_calls i arm t r) /\
        (forall j, j <> i -> nth_error choices j = Some arm ->
           signalled players new_calls j arm /\
           nth_error (rewards s') j = nth_error (rewards s) j /\
           nth_error (pulls s') j = nth_error (pulls s) j).
Proof.
  intros Hlen Hsh.
  destruct (shared_run_outcome t arms players choices s Hlen Hsh)
    as (s' & Hrun & _ & new & Hcalls & _ & Hdone & _).
  exists s', new. split; [exact Hrun|]. split; [exact Hcalls|].
  intros arm Harm Hocc.
  destruct (Hdone arm Harm Hocc)
    as (i & Hci & (r & Hr & Hg) & (row & x & Hr0 & Hx & Hp) & Hothers).
  exists i. split; [exact Hci|]. split; [|exact Hothers].
  assert (Hlt : arm < length row) by (apply nth_error_Some; congruence).
  exists x, r. repeat split; auto.
  - unfold pulls_at. rewrite Hr0. exact Hx.
  - unfold pulls_at. rewrite Hp. apply nth_error_list_update_eq, Hlt.
  - intros arm' Hne. unfold pulls_at. rewrite Hp, Hr0.
    apply nth_error_list_update_neq. auto.
Qed.

Lemma shared_one_winner_per_arm_witness :
  exists s' new_calls,
    rewardIsSharedUniformly 0 [example_arm; example_arm] example_players [0; 0]
      example_state = Ok tt s' /\
    calls s' = calls example_state ++ new_calls /\
    forall arm, arm < 2 -> 1 <= occupancy [0; 0] arm ->
      exists i,
        nth_error [0; 0] i = Some arm /\
        (exists x r,
           pulls_at example_state i arm = Some x /\
           pulls_at s' i arm = Some (x + 1)%Z /\
           (forall arm', arm' <> arm ->
              pulls_at s' i arm' = pulls_at example_state i arm') /\
           nth_error (rewards s') i = Some r /\
           granted_value new_calls i arm 0 r) /\
        (forall j, j <> i -> nth_error [0; 0] j = Some arm ->
           signalled example_players new_calls j arm /\
           nth_error (rewards s') j = nth_error (rewards example_state) j /\
           nth_error (pulls s') j = nth_error (pulls example_state) j).
Proof.
  apply (shared_one_winner_per_arm 0 [example_arm; example_arm] example_players
           [0; 0] example_state).
  - reflexivity.
  - exact example_shaped.
Defined.

(** X3: in a round of [rewardIsSharedUniformly] the collisions of each
    arm increase by [max(occupancy - 1, 0)]: an arm that nobody chose, or
    that one player chose, keeps its count. *)
Theorem shared_collisions_per_arm (t : nat) (arms : list Arm)
    (players : list Player) (choices : list nat) (s : State) :
  length choices = length players ->
  shaped (length players) (length arms) s ->
  exists s',
    rewardIsSharedUniformly t arms players choices s = Ok tt s' /\
    length (collisions s') = length (collisions s) /\
    forall arm y, nth_error (collisions s) arm = Some y ->
      nth_error (collisions s') arm
      = Some (y + Z.max (Z.of_nat (occupancy choices arm) - 1) 0)%Z.
Proof.
  intros Hlen Hsh.
  destruct (shared_run_outcome t arms players choices s Hlen Hsh)
    as (s' & Hrun & Hsh' & new & Hcalls & _ & _ & _ & Hcoll).
  exists s'. split; [exact Hrun|]. split.
  - rewrite (sh_collisions _ _ _ Hsh), (sh_collisions _ _ _ Hsh'). reflexivity.
  - intros arm y Hy. rewrite Hcoll, Hy.
    assert (Harm : arm < length arms).
    { rewrite <- (sh_collisions _ _ _ Hsh). apply nth_error_Some. congruence. }
    apply Nat.ltb_lt in Harm. rewrite Harm. reflexivity.
Qed.

Lemma shared_collisions_per_arm_witness :
  exists s',
    rewardIsSharedUniformly 0 [example_arm; example_arm] example_players [0; 0]
      example_state = Ok tt s' /\
    length (collisions s') = length (collisions example_state) /\
    forall arm y, nth_error (collisions example_state) arm = Some y ->
      nth_error (collisions s') arm
      = Some (y + Z.max (Z.of_nat (occupancy [0%nat; 0%nat] arm) - 1) 0)%Z.
Proof.
  apply (shared_collisions_per_arm 0 [example_arm; example_arm] example_players
           [0; 0] example_state).
  - reflexivity.
  - exact example_shaped.
Defined.

(** X4: [rewardIsSharedUniformly] does not check the choices: a player
    whose choice is not the index of an arm is passed over. The round
    ends normally, the player keeps its reward and its row of the pulls,
    and no [getReward] and no [handleCollision] is called on it; every
    call that the round makes on a player names the arm that the player
    chose. *)
Theorem shared_skips_out_of_range_choice (t : nat) (arms : list Arm)
    (players : list Player) (choices : list nat) (s : State) :
  length choices = length players ->
  shaped (length players) (length arms) s ->
  exists s' new_calls,
    rewardIsSharedUniformly t arms players choices s = Ok tt s' /\
    calls s' = calls s ++ new_calls /\
    (forall p arm r, In (EvGetReward p arm r) new_calls ->
       nth_error choices p = Some arm /\ arm < length arms) /\
    (forall p arm, In (EvHandleCollision p arm) new_calls ->
       nth_error choices p = Some arm /\ arm < length arms) /\
    forall j c, nth_error choices j = Some c -> length arms <= c ->
      nth_error (rewards s') j = nth_error (rewards s) j /\
      nth_error (pulls s') j = nth_error (pulls s) j /\
      (forall arm r, ~ In (EvGetReward j arm r) new_calls) /\
      (forall arm, ~ In (EvHandleCollision j arm) new_calls).
Proof.
  intros Hlen Hsh.
  destruct (shared_run_outcome t arms players choices s Hlen Hsh)
    as (s' & Hrun & _ & new & Hcalls & Hrest & _ & Hown & _).
  rewrite Forall_forall in Hown.
  assert (HG : forall p arm r, In (EvGetReward p arm r) new ->
                 nth_error choices p = Some arm /\ arm < length arms).
  { intros p arm r Hin. exact (Hown _ Hin). }
  assert (HH : forall p arm, In (EvHandleCollision p arm) new ->
                 nth_error choices p = Some arm /\ arm < length arms).
  { intros p arm Hin. exact (Hown _ Hin). }
  exists s', new. repeat (split; [assumption|]).
  intros j c Hc Hle.
  destruct (Hrest j) as [Hr Hp].
  { intros c' Hc'. rewrite Hc in Hc'. inversion Hc'; subst. exact Hle. }
  repeat split; auto.
  - intros arm r Hin. destruct (HG _ _ _ Hin) as [E Hlt].
    rewrite Hc in E. inversion E. lia.
  - intros arm Hin. destruct (HH _ _ Hin) as [E Hlt].
    rewrite Hc in E. inversion E. lia.
Qed.

Lemma shared_skips_out_of_range_choice_witness :
  exists s' new_calls,
    rewardIsSharedUniformly 0 [example_arm; example_arm] example_players [0; 5]
      example_state = Ok tt s' /\
    calls s' = calls example_state ++ new_calls /\
    (forall p arm r, In (EvGetReward p arm r) new_calls ->
       nth_error [0; 5] p = Some arm /\ arm < 2) /\
    (forall p arm, In (EvHandleCollision p arm) new_calls ->
       nth_error [0; 5] p = Some arm /\ arm < 2) /\
    forall j c, nth_error [0; 5] j = Some c -> 2 <= c ->
      nth_error (rewards s') j = nth_error (rewards example_state) j /\
      nth_error (pulls s') j = nth_error (pulls example_state) j /\
      (forall arm r, ~ In (EvGetReward j arm r) new_calls) /\
      (forall arm, ~ In (EvHandleCollision j arm) new_calls).
Proof.
  apply (shared_skips_out_of_range_choice 0 [example_arm; example_arm]
           example_players [0; 5] example_state).
  - reflexivity.
  - exact example_shaped.
Defined.

(** ** Choices that are not the index of an arm *)

Lemma uniq_body_exn (t : nat) (arms : list Arm) (choices : list nat)
    (ip : nat * Player) (s : State) (e : Exn) (s' : State) :
  uniq_body t arms choices ip s = Raise e s' -> e = IndexError.
Proof.
  destruct ip as [i pl]. unfold uniq_body.
  unfold bind at 1. unfold getitem at 1.
  destruct (nth_error choices i) as [c|]; [|unfold raise; congruence].
  unfold ret at 1. unfold bind at 1. unfold getitem at 1.
  destruct (nth_error _ c) as [n|]; [|unfold raise; congruence].
  unfold ret at 1. destruct (n <? 1)%Z.
  - unfold bind at 1. rewrite arm_draw_eq.
    destruct (nth_error arms c) as [a|]; [|congruence].
    unfold bind at 1. unfold set_reward at 1.
    cbn [rewards pulls collisions rng cache calls].
    destruct (Nat.ltb i (length (rewards s))); [|congruence].
    unfold bind at 1. unfold get_reward at 1, getitem at 1.
    cbn [rewards pulls collisions rng cache calls].
    destruct (nth_error _ i) as [r'|]; [|unfold raise; congruence].
    unfold ret at 1. unfold bind at 1. unfold log at 1.
    unfold incr_pulls. cbn [rewards pulls collisions rng cache calls].
    destruct (nth_error (pulls s) i) as [row|]; [|congruence].
    destruct (nth_error row c); congruence.
  - unfold bind at 1. unfold incr_collisions at 1.
    destruct (nth_error (collisions s) c); [|congruence].
    unfold signal_collision, log. destruct (hasHandleCollision pl); congruence.
Qed.

Lemma uniq_body_out_of_range (t : nat) (arms : list Arm) (choices : list nat)
    (i : nat) (player : Player) (c : nat) (s : State) :
  nth_error choices i = Some c -> length arms <= c ->
  uniq_body t arms choices (i, player) s = Raise IndexError s.
Proof.
  intros Hc Hle. unfold uniq_body.
  unfold bind at 1. unfold getitem at 1. rewrite Hc. unfold ret at 1.
  unfold bind at 1. unfold getitem at 1.
  replace (nth_error _ c) with (@None Z); [reflexivity|].
  symmetry. apply nth_error_None. rewrite length_map, length_seq. exact Hle.
Qed.

Lemma forM__raises {A : Type} (body : A -> M unit) (E : Exn) (l : list A) (x : A) :
  (forall y s e s', body y s = Raise e s' -> e = E) ->
  In x l ->
  (forall s, exists s', body x s = Raise E s') ->
  forall s, exists s', forM_ l body s = Raise E s'.
Proof.
  intros Hexn Hin Hx. induction l as [|y l IH]; intros s; [destruct Hin|].
  cbn [forM_]. unfold bind.
  destruct (body y s) as [[] s1|e s1] eqn:Ey.
  - destruct Hin as [->|Hin].
    + destruct (Hx s) as (s' & E'). congruence.
    + apply IH, Hin.
  - rewrite (Hexn _ _ _ _ Ey). exists s1. reflexivity.
Qed.

Lemma In_enumerate {A : Type} (l : list A) (i : nat) (x : A) :
  nth_error l i = Some x -> In (i, x) (enumerate l).
Proof.
  intros H. unfold enumerate.
  assert (G : forall start, In (start + i, x) (combine (seq start (length l)) l)).
  { revert i H; induction l as [|y l IH]; intros [|i] H start; simpl in *;
      try discriminate.
    - inversion H; subst. left. f_equal. lia.
    - right. replace (start + S i) with (S start + i) by lia. apply IH, H. }
  apply (G 0).
Qed.

(** X5: [onlyUniqUserGetsReward] stops on [IndexError] as soon as a
    player has chosen a number that is not the index of an arm, where
    [rewardIsSharedUniformly] passes such a player over. *)
Theorem onlyUniq_raises_on_out_of_range_choice (t : nat) (arms : list Arm)
    (players : list Player) (choices : list nat) (s : State) (i c : nat) :
  i < length players ->
  nth_error choices i = Some c ->
  length arms <= c ->
  exists s', onlyUniqUserGetsReward t arms players choices s = Raise IndexError s'.
Proof.
  intros Hi Hc Hle. rewrite onlyUniq_unfold.
  destruct (nth_error players i) as [pl|] eqn:Hpl.
  2:{ apply nth_error_None in Hpl. lia. }
  apply (forM__raises _ IndexError _ (i, pl)).
  - intros y s0 e s' H. eapply uniq_body_exn, H.
  - apply In_enumerate, Hpl.
  - intros s0. exists s0. eapply uniq_body_out_of_range; eauto.
Qed.

Lemma onlyUniq_raises_on_out_of_range_choice_witness :
  exists s',
    onlyUniqUserGetsReward 0 [example_arm; example_arm] example_players [0; 5]
      example_state = Raise IndexError s'.
Proof.
  apply (onlyUniq_raises_on_out_of_range_choice 0 [example_arm; example_arm]
           example_players [0; 5] example_state 1 5).
  - simpl. lia.
  - reflexivity.
  - simpl. lia.
Defined.

(** ** The distances of the default *)

Lemma nth_uniform_distances (n i : nat) :
  i < n ->
  nth i (uniform_distances n) 0%Q = Qmake (Z.of_nat (S i)) (Pos.of_nat (n + 1)).
Proof.
  intros H. apply nth_error_nth. unfold uniform_distances.
  rewrite nth_error_map, nth_error_seq.
  apply Nat.ltb_lt in H. rewrite H. reflexivity.
Qed.

(** The distances of the default are in (0, 1) and grow with the index of
    the player. *)
Lemma uniform_distances_increasing (n i j : nat) :
  i < n -> j < n ->
  ((0 < nth i (uniform_distances n) 0)%Q /\ (nth i (uniform_distances n) 0 < 1)%Q) /\
  ((nth i (uniform_distances n) 0 <= nth j (uniform_distances n) 0)%Q <-> i <= j).
Proof.
  intros Hi Hj. rewrite !nth_uniform_distances by assumption.
  assert (Hp : Z.pos (Pos.of_nat (n + 1)) = Z.of_nat (n + 1)).
  { rewrite <- positive_nat_Z, Nat2Pos.id by lia. reflexivity. }
  unfold Qlt, Qle. cbn [Qnum Qden]. rewrite Hp. split; [split|]; nia.
Qed.

(** X8: with the distances of the default ([None] or ['uniform']:
    equally spaced in (0, 1), growing with the index of the player), a
    round of [closerUserGetsReward] on arrays of the sizes of the round
    ends normally, and on every arm that a player chose, the arm is
    granted to the player of the lowest index among those who chose it. *)
Theorem closer_default_grants_lowest_index (t : nat) (arms : list Arm)
    (players : list Player) (choices : list nat) (distances : DistancesArg)
    (s : State) :
  well_formed arms players choices s ->
  distances = DistancesNone \/ distances = DistancesUniform ->
  exists s' new_calls,
    closerUserGetsReward t arms players choices distances s = Ok tt s' /\
    calls s' = calls s ++ new_calls /\
    forall arm, arm < length arms -> 1 <= occupancy choices arm ->
      exists i r,
        nth_error choices i = Some arm /\
        (forall j, nth_error choices j = Some arm -> i <= j) /\
        nth_error (rewards s') i = Some r /\
        granted_value new_calls i arm t r /\
        (forall j, j <> i -> nth_error choices j = Some arm ->
           signalled players new_calls j arm).
Proof.
  intros Hwf Hdist.
  assert (E : closerUserGetsReward t arms players choices distances =
              closerUserGetsReward t arms players choices
                (DistancesArray (uniform_distances (length players)))).
  { destruct Hdist as [-> | ->]; reflexivity. }
  rewrite E.
  destruct (closer_run_outcome t arms players choices
              (uniform_distances (length players)) s Hwf
              (uniform_distances_length _) (uniform_distances_distinct _))
    as (s' & Hrun & _ & new & Hcalls & _ & Hdone).
  exists s', new. split; [exact Hrun|]. split; [exact Hcalls|].
  intros arm Harm Hocc.
  destruct (Hdone arm Harm Hocc)
    as (i & Hci & Hleast & (r & Hr & Hg) & _ & Hothers).
  assert (Hlt : forall j, nth_error choices j = Some arm -> j < length players).
  { intros j Hj. rewrite <- (wf_choices _ _ _ _ Hwf). apply nth_error_Some. congruence. }
  exists i, r. repeat split; auto.
  - intros j Hj.
    apply (uniform_distances_increasing (length players) i j); auto.
  - intros j Hji Hj. apply (Hothers j Hji Hj).
Qed.

Lemma closer_default_grants_lowest_index_witness :
  exists s' new_calls,
    closerUserGetsReward 0 [example_arm; example_arm] example_players [0; 0]
      DistancesNone example_state = Ok tt s' /\
    calls s' = calls example_state ++ new_calls /\
    forall arm, arm < 2 -> 1 <= occupancy [0; 0] arm ->
      exists i r,
        nth_error [0; 0] i = Some arm /\
        (forall j, nth_error [0; 0] j = Some arm -> i <= j) /\
        nth_error (rewards s') i = Some r /\
        granted_value new_calls i arm 0 r /\
        (forall j, j <> i -> nth_error [0; 0] j = Some arm ->
           signalled example_players new_calls j arm).
Proof.
  apply (closer_default_grants_lowest_index 0 [example_arm; example_arm]
           example_players [0; 0] DistancesNone example_state).
  - apply example_well_formed; [reflexivity|].
    intros c [<-|[<-|[]]]; lia.
  - left. reflexivity.
Defined.

(** ** The cache of [random_distances] *)

Lemma words_S (n : nat) (tape : list nat) :
  words (S n) tape = hd 0 tape :: words n (tl tape).
Proof.
  unfold words. cbn [seq map]. f_equal.
  - destruct tape; reflexivity.
  - rewrite <- seq_shift, map_map. apply map_ext. intros i.
    destruct tape as [|w tape]; [destruct i; reflexivity | reflexivity].
Qed.

Lemma random_sample_run (n : nat) (s : State) :
  random_sample n s =
  Ok (map word_to_unit (words n (rng s)))
     (mkState (rewards s) (pulls s) (collisions s) (skipn n (rng s))
              (cache s) (calls s)).
Proof.
  revert s; induction n as [|n IH]; intros s.
  - destruct s; reflexivity.
  - cbn [random_sample]. unfold bind at 1. unfold next_word at 1.
    unfold bind at 1. rewrite IH. cbn [rewards pulls collisions rng cache calls].
    unfold ret. rewrite words_S. cbn [map]. f_equal.
    f_equal. destruct (rng s); [destruct n|]; reflexivity.
Qed.

Lemma word_to_unit_range (w : nat) : (0 <= word_to_unit w)%Q /\ (word_to_unit w < 1)%Q.
Proof.
  unfold word_to_unit, Qle, Qlt. cbn [Qnum Qden].
  pose proof (Z.mod_pos_bound (Z.of_nat w) 9007199254740992 eq_refl). lia.
Qed.

(** X9: [random_distances], under [lru_cache], always returns; when the
    number of players is not in the cache, it draws that many numbers of
    [[0, 1)] with the next words of the generator; in every case a second
    call for the same number of players returns the same vector and
    changes nothing, and the entries of the cache for other numbers of
    players, the rewards, the pulls, the collisions and the calls are
    as before. *)
Theorem random_distances_cached (nbPlayers : nat) (s : State) :
  exists d s1,
    random_distances nbPlayers s = Ok d s1 /\
    random_distances nbPlayers s1 = Ok d s1 /\
    (cache_lookup nbPlayers (cache s) = None ->
       length d = nbPlayers /\
       (forall x, In x d -> (0 <= x)%Q /\ (x < 1)%Q) /\
       d = map word_to_unit (words nbPlayers (rng s)) /\
       rng s1 = skipn nbPlayers (rng s)) /\
    (forall d0, cache_lookup nbPlayers (cache s) = Some d0 -> d = d0 /\ s1 = s) /\
    (forall m, m <> nbPlayers ->
       cache_lookup m (cache s1) = cache_lookup m (cache s)) /\
    rewards s1 = rewards s /\ pulls s1 = pulls s /\
    collisions s1 = collisions s /\ calls s1 = calls s.
Proof.
  unfold random_distances.
  destruct (cache_lookup nbPlayers (cache s)) as [d0|] eqn:E.
  - exists d0, s. rewrite E.
    split; [reflexivity|]. split; [reflexivity|].
    split; [intros H; discriminate|].
    split; [intros d1 H; inversion H; auto|].
    split; [reflexivity|]. repeat split.
  - unfold bind at 1. rewrite random_sample_run.
    unfold bind at 1. unfold cache_store at 1, ret.
    cbn [rewards pulls collisions rng cache calls].
    eexists. eexists. split; [reflexivity|].
    cbn [rewards pulls collisions rng cache calls cache_lookup].
    rewrite Nat.eqb_refl.
    split; [reflexivity|].
    split.
    { intros _. split; [|split; [|split; reflexivity]].
      - rewrite length_map. unfold words. rewrite length_map, length_seq. reflexivity.
      - intros x Hx. apply in_map_iff in Hx. destruct Hx as (w & <- & _).
        apply word_to_unit_range. }
    split; [intros d0 H; discriminate|].
    split.
    { intros m Hm. destruct (Nat.eqb_spec nbPlayers m); [congruence | reflexivity]. }
    repeat split.
Qed.

(** ** The collisions that [onlyUniqUserGetsReward] counts, arm by arm *)

Lemma occupancy_firstn_S (choices : list nat) (k c arm : nat) :
  nth_error choices k = Some c ->
  occupancy (firstn (S k) choices) arm =
  occupancy (firstn k choices) arm + (if Nat.eqb c arm then 1 else 0).
Proof.
  intros H. rewrite (firstn_snoc _ _ _ H). unfold occupancy.
  rewrite count_occ_app. cbn [count_occ].
  destruct (Nat.eq_dec c arm) as [->|Hne].
  - rewrite Nat.eqb_refl. reflexivity.
  - destruct (Nat.eqb_spec c arm); [contradiction | reflexivity].
Qed.

Lemma uniq_step_collisions (t : nat) (arms : list Arm) (players : list Player)
    (choices : list nat) (s0 s : State) (k : nat) (player : Player)
    (new_calls : list Event) :
  well_formed arms players choices s0 ->
  nth_error players k = Some player ->
  uniq_inv t choices (length players) (length arms) s0 k s ->
  calls s = calls s0 ++ new_calls ->
  uniq_collisions players choices s0 s new_calls k ->
  exists s' new_calls',
    uniq_body t arms choices (k, player) s = Ok tt s' /\
    uniq_inv t choices (length players) (length arms) s0 (S k) s' /\
    calls s' = calls s0 ++ new_calls' /\
    uniq_collisions players choices s0 s' new_calls' (S k).
Proof.
  intros Hwf Hpl Hinv Hcalls (Hcoll & Hsig).
  assert (Hk : k < length players) by (apply nth_error_Some; congruence).
  destruct (uniq_step t arms players choices s0 s k player Hwf Hk Hinv)
    as (s' & Hrun & Hinv').
  exists s'.
  destruct Hwf as [W1 W2 W3 W4 W5 W6].
  destruct Hinv as ([S1 S2 S3 S4] & _ & new0 & Hcalls0 & Hout).
  destruct (nth_error choices k) as [c|] eqn:Hc.
  2:{ apply nth_error_None in Hc. lia. }
  assert (Hlt : c < length arms) by (apply W6; eapply nth_error_In; eauto).
  assert (Hpos := occupancy_pos _ _ _ Hc).
  destruct (nth_error arms c) as [a|] eqn:Ha.
  2:{ apply nth_error_None in Ha. lia. }
  pose proof (Hout k c Hc) as Hk0.
  rewrite Nat.ltb_irrefl in Hk0. simpl in Hk0. destruct Hk0 as [_ Hp0].
  destruct (nth_error (pulls s0) k) as [row|] eqn:Hrow.
  2:{ apply nth_error_None in Hrow. lia. }
  destruct (nth_error row c) as [x|] eqn:Hx.
  2:{ apply nth_error_None in Hx.
      rewrite (W4 row) in Hx by (eapply nth_error_In; eauto). lia. }
  destruct (nth_error (collisions s) c) as [y|] eqn:Hy.
  2:{ apply nth_error_None in Hy. lia. }
  destruct (le_lt_dec (occupancy choices c) 1) as [Hone|Hmany].
  - (* alone on the arm *)
    pose proof Hrun as Hrun0.
    rewrite (uniq_body_alone t arms choices k player s c a row x) in Hrun
      by (auto; lia).
    inversion Hrun as [Es']. clear Hrun. subst s'.
    eexists. split; [exact Hrun0|]. split; [exact Hinv'|].
    split.
    { cbn [calls]. rewrite Hcalls, <- app_assoc. reflexivity. }
    split; cbn [collisions].
    + intros arm. rewrite Hcoll. destruct (nth_error (collisions s0) arm); [|reflexivity].
      cbn [option_map]. f_equal.
      destruct (Nat.leb_spec 2 (occupancy choices arm)) as [H2|_]; [|reflexivity].
      rewrite (occupancy_firstn_S _ _ _ arm Hc).
      destruct (Nat.eqb_spec c arm) as [->|_]; lia.
    + intros i c' Hi Hc' Hocc.
      assert (i <> k) by (intros ->; rewrite Hc in Hc'; inversion Hc'; subst; lia).
      apply signalled_app_l. apply Hsig; auto. lia.
  - (* several players on the arm *)
    pose proof Hrun as Hrun0.
    rewrite (uniq_body_collide t arms choices k player s c y) in Hrun by auto.
    inversion Hrun as [Es']. clear Hrun. subst s'.
    eexists. split; [exact Hrun0|]. split; [exact Hinv'|].
    split.
    { cbn [calls]. rewrite Hcalls, <- app_assoc. reflexivity. }
    split; cbn [collisions].
    + intros arm.
      destruct (Nat.eq_dec arm c) as [->|Hne].
      * rewrite nth_error_list_update_eq by lia.
        pose proof (Hcoll c) as Hcc. rewrite Hy in Hcc.
        destruct (nth_error (collisions s0) c) as [y0|]; [|discriminate].
        cbn [option_map] in *.
        destruct (Nat.leb_spec 2 (occupancy choices c)) as [_|H1]; [|lia].
        inversion Hcc as [Ey]. f_equal.
        rewrite (occupancy_firstn_S _ _ _ c Hc), Nat.eqb_refl. lia.
      * rewrite nth_error_list_update_neq by auto. rewrite Hcoll.
        destruct (nth_error (collisions s0) arm); [|reflexivity].
        cbn [option_map]. f_equal.
        destruct (Nat.leb_spec 2 (occupancy choices arm)) as [H2|_]; [|reflexivity].
        rewrite (occupancy_firstn_S _ _ _ arm Hc).
        destruct (Nat.eqb_spec c arm) as [->|_]; [contradiction | lia].
    + intros i c' Hi Hc' Hocc.
      destruct (Nat.eq_dec i k) as [->|Hne].
      * rewrite Hc in Hc'. inversion Hc'; subst c'.
        exists player. split; [exact Hpl|].
        apply in_or_app. right. left. reflexivity.
      * apply signalled_app_l. apply Hsig; auto. lia.
Qed.

Lemma uniq_loop_collisions (t : nat) (arms : list Arm) (players : list Player)
    (choices : list nat) (s0 : State) :
  well_formed arms players choices s0 ->
  forall post pre s new_calls,
    enumerate players = pre ++ post ->
    uniq_inv t choices (length players) (length arms) s0 (length pre) s ->
    calls s = calls s0 ++ new_calls ->
    uniq_collisions players choices s0 s new_calls (length pre) ->
    exists s' new_calls',
      forM_ post (uniq_body t arms choices) s = Ok tt s' /\
      calls s' = calls s0 ++ new_calls' /\
      uniq_collisions players choices s0 s' new_calls' (length players).
Proof.
  intros Hwf. induction post as [|[i pl] post IH]; intros pre s new Hsplit Hinv Hcalls Hcol.
  - exists s, new. split; [reflexivity|]. split; [exact Hcalls|].
    rewrite app_nil_r in Hsplit. rewrite <- Hsplit, enumerate_length in Hcol.
    exact Hcol.
  - destruct (enumerate_split _ _ _ _ _ Hsplit) as [-> Hpl].
    destruct (uniq_step_collisions t arms players choices s0 s (length pre) pl new
                Hwf Hpl Hinv Hcalls Hcol)
      as (s1 & new1 & Hrun & Hinv1 & Hcalls1 & Hcol1).
    destruct (IH (pre ++ [(length pre, pl)]) s1 new1) as (s' & new' & Hrun' & Hc' & Hcol').
    + rewrite <- app_assoc. exact Hsplit.
    + rewrite length_app, Nat.add_1_r. exact Hinv1.
    + exact Hcalls1.
    + rewrite length_app, Nat.add_1_r. exact Hcol1.
    + exists s', new'. split; [|split; assumption].
      rewrite (forM__cons _ _ _ _ _ Hrun). exact Hrun'.
Qed.

Lemma onlyUniq_run_collisions (t : nat) (arms : list Arm) (players : list Player)
    (choices : list nat) (s0 : State) :
  well_formed arms players choices s0 ->
  exists s' new_calls,
    onlyUniqUserGetsReward t arms players choices s0 = Ok tt s' /\
    calls s' = calls s0 ++ new_calls /\
    uniq_collisions players choices s0 s' new_calls (length players).
Proof.
  intros Hwf. rewrite onlyUniq_unfold.
  apply (uniq_loop_collisions t arms players choices s0 Hwf (enumerate players) [] s0 []).
  - reflexivity.
  - split; [apply (well_formed_shaped _ _ _ _ Hwf)|]. split.
    + unfold colliders. simpl. lia.
    + exists []. split; [rewrite app_nil_r; reflexivity|].
      intros i c Hc. simpl. auto.
  - rewrite app_nil_r. reflexivity.
  - split.
    + intros arm. cbn [firstn length]. unfold occupancy at 2. cbn [count_occ].
      destruct (nth_error (collisions s0) arm); [|reflexivity].
      cbn [option_map]. f_equal.
      destruct (Nat.leb 2 (occupancy choices arm)); lia.
    + intros i c Hi. cbn [length] in Hi. lia.
Qed.

(** X6: in a round of [onlyUniqUserGetsReward] on arrays of the sizes of
    the round, the collisions of an arm that two players or more chose
    increase by the number of players who chose it, and the collisions
    of the other arms stay as they are; every player who is not alone on
    its arm learns of the collision, by [handleCollision(arm)] when it
    has this method and by [getReward(arm, 0)] otherwise. *)
Theorem onlyUniq_collisions_per_arm (t : nat) (arms : list Arm)
    (players : list Player) (choices : list nat) (s : State) :
  well_formed arms players choices s ->
  exists s' new_calls,
    onlyUniqUserGetsReward t arms players choices s = Ok tt s' /\
    calls s' = calls s ++ new_calls /\
    (forall arm y, nth_error (collisions s) arm = Some y ->
       nth_error (collisions s') arm =
       Some (if Nat.leb 2 (occupancy choices arm)
             then (y + Z.of_nat (occupancy choices arm))%Z
             else y)) /\
    (forall i c, nth_error choices i = Some c -> 2 <= occupancy choices c ->
       signalled players new_calls i c).
Proof.
  intros Hwf.
  destruct (onlyUniq_run_collisions t arms players choices s Hwf)
    as (s' & new & Hrun & Hcalls & Hcoll & Hsig).
  exists s', new. split; [exact Hrun|]. split; [exact Hcalls|]. split.
  - intros arm y Hy. rewrite Hcoll, Hy. cbn [option_map].
    rewrite <- (wf_choices _ _ _ _ Hwf), firstn_all. reflexivity.
  - intros i c Hc Hocc. apply (Hsig i c); auto.
    rewrite <- (wf_choices _ _ _ _ Hwf). apply nth_error_Some. congruence.
Qed.

Lemma onlyUniq_collisions_per_arm_witness :
  exists s' new_calls,
    onlyUniqUserGetsReward 0 [example_arm; example_arm] example_players [0; 0]
      example_state = Ok tt s' /\
    calls s' = calls example_state ++ new_calls /\
    (forall arm y, nth_error (collisions example_state) arm = Some y ->
       nth_error (collisions s') arm =
       Some (if Nat.leb 2 (occupancy [0; 0] arm)
             then (y + Z.of_nat (occupancy [0%nat; 0%nat] arm))%Z
             else y)) /\
    (forall i c, nth_error [0; 0] i = Some c -> 2 <= occupancy [0; 0] c ->
       signalled example_players new_calls i c).
Proof.
  apply (onlyUniq_collisions_per_arm 0 [example_arm; example_arm] example_players
           [0; 0] example_state).
  apply example_well_formed; [reflexivity|].
  intros c [<-|[<-|[]]]; lia.
Defined.

(** ** [closerUserGetsReward] with the distances of [random_distances] *)

Lemma sound_step_refl (arms : list Arm) (s : State) : sound_step arms s s.
Proof.
  exists []. rewrite app_nil_r. split; [reflexivity|].
  intros c t r H. inversion H.
Qed.

Lemma sound_step_trans (arms : list Arm) (s1 s2 s3 : State) :
  sound_step arms s1 s2 -> sound_step arms s2 s3 -> sound_step arms s1 s3.
Proof.
  intros (n1 & C1 & D1) (n2 & C2 & D2). exists (n1 ++ n2). split.
  - rewrite C2, C1, app_assoc. reflexivity.
  - intros c t r H. apply in_app_or in H. destruct H as [H|H].
    + exact (D1 _ _ _ H).
    + exact (D2 _ _ _ H).
Qed.

Lemma quiet_step_sound (arms : list Arm) (s s' : State) :
  quiet_step s s' -> sound_step arms s s'.
Proof.
  intros (_ & _ & n & C & D). exists n. split; [exact C|].
  intros c t r H. exfalso. exact (D _ _ _ H).
Qed.

Lemma quiet_sound {A : Type} (arms : list Arm) (m : M A) :
  quiet m -> keeps (sound_step arms) m.
Proof. intros H s. apply quiet_step_sound, H. Qed.

Lemma sound_step_same_calls (arms : list Arm) (s s' : State) :
  calls s' = calls s -> sound_step arms s s'.
Proof.
  intros E. exists []. rewrite app_nil_r. split; [exact E|].
  intros c t r H. inversion H.
Qed.

Lemma sound_arm_draw (arms : list Arm) (arm t : nat) :
  keeps (sound_step arms) (arm_draw arms arm t).
Proof.
  intro s. rewrite arm_draw_eq.
  destruct (nth_error arms arm) as [a|] eqn:Ha; cbn [final].
  - eexists. split; [reflexivity|].
    intros c t' r [H|[]]. inversion H; subst.
    exists a, (hd 0 (rng s)). split; [exact Ha | reflexivity].
  - apply sound_step_refl.
Qed.

Lemma sound_set_reward (arms : list Arm) (i : nat) (v : Q) :
  keeps (sound_step arms) (set_reward i v).
Proof.
  intro s. unfold set_reward.
  destruct (Nat.ltb i (length (rewards s))); cbn [final].
  - apply sound_step_same_calls. reflexivity.
  - apply sound_step_refl.
Qed.

Lemma sound_get_reward (arms : list Arm) (i : nat) :
  keeps (sound_step arms) (get_reward i).
Proof.
  intro s. unfold get_reward, getitem.
  destruct (nth_error (rewards s) i); apply sound_step_refl.
Qed.

Lemma sound_incr_pulls (arms : list Arm) (i arm : nat) :
  keeps (sound_step arms) (incr_pulls i arm).
Proof.
  intro s. unfold incr_pulls.
  destruct (nth_error (pulls s) i) as [row|]; [|apply sound_step_refl].
  destruct (nth_error row arm); [|apply sound_step_refl].
  apply sound_step_same_calls. reflexivity.
Qed.

Lemma sound_pull_and_signal (t : nat) (arms : list Arm) (players : list Player)
    (arm : nat) (who : list nat) (i : nat) :
  keeps (sound_step arms) (pull_and_signal t arms players arm who i).
Proof.
  unfold pull_and_signal.
  apply keeps_bind; [apply sound_step_trans | apply sound_arm_draw |].
  intros r.
  apply keeps_bind; [apply sound_step_trans | apply sound_set_reward |].
  intros _.
  apply keeps_getitem; [apply sound_step_refl|]. intros pl _.
  apply keeps_bind; [apply sound_step_trans | apply sound_get_reward |].
  intros r'.
  apply keeps_bind;
    [apply sound_step_trans | apply quiet_sound, quiet_log_getReward |].
  intros _.
  apply keeps_bind; [apply sound_step_trans | apply sound_incr_pulls |].
  intros _. apply quiet_sound, quiet_signal_others.
Qed.

Lemma sound_closerUserGetsReward (t : nat) (arms : list Arm)
    (players : list Player) (choices : list nat) (distances : DistancesArg) :
  keeps (sound_step arms) (closerUserGetsReward t arms players choices distances).
Proof.
  unfold closerUserGetsReward.
  apply keeps_bind; [apply sound_step_trans | |].
  { apply quiet_sound. destruct distances.
    - apply keeps_ret, quiet_step_refl.
    - apply keeps_ret, quiet_step_refl.
    - apply quiet_random_distances.
    - apply keeps_ret, quiet_step_refl. }
  intros d.
  apply keeps_forM_; [apply sound_step_refl | apply sound_step_trans |].
  intros arm _. cbv zeta.
  destruct (Nat.ltb 0 (length (nonzero_eq choices arm)));
    [|apply keeps_ret, sound_step_refl].
  apply keeps_bind;
    [apply sound_step_trans | apply quiet_sound, quiet_incr_collisions |].
  intros _.
  apply keeps_bind; [apply sound_step_trans | apply quiet_sound, quiet_take |].
  intros dc.
  apply keeps_bind; [apply sound_step_trans | apply quiet_sound, quiet_np_min |].
  intros m.
  destruct (Nat.eqb (count_eq dc m) 1).
  - apply keeps_getitem; [apply sound_step_refl|]. intros i _.
    apply sound_pull_and_signal.
  - intro s. apply sound_step_refl.
Qed.

Lemma granted_value_draw (new_calls : list Event) (p arm t : nat) (r : Q) :
  granted_value new_calls p arm t r -> In (EvDraw arm t r) new_calls.
Proof.
  intros (pre & post & ->). apply in_or_app. right. left. reflexivity.
Qed.

(** [random_distances] reads and writes the generator and the cache only. *)
Lemma random_distances_frame (n : nat) (s s1 : State) (d : list Q) :
  random_distances n s = Ok d s1 ->
  rewards s1 = rewards s /\ pulls s1 = pulls s /\
  collisions s1 = collisions s /\ calls s1 = calls s.
Proof.
  unfold random_distances.
  destruct (cache_lookup n (cache s)) as [d0|].
  - intros H. inversion H; subst. repeat split.
  - unfold bind at 1. rewrite random_sample_run.
    unfold bind at 1. unfold cache_store at 1, ret.
    cbn [rewards pulls collisions rng cache calls].
    intros H. inversion H; subst. repeat split.
Qed.

Lemma closer_unfold_random (t : nat) (arms : list Arm) (players : list Player)
    (choices : list nat) (d : list Q) (s s1 : State) :
  random_distances (length players) s = Ok d s1 ->
  closerUserGetsReward t arms players choices DistancesRandom s =
  closerUserGetsReward t arms players choices (DistancesArray d) s1.
Proof.
  intros H. unfold closerUserGetsReward. unfold bind at 1. rewrite H.
  reflexivity.
Qed.

(** X7: with [distances='random'], when the distances that
    [random_distances] gives (drawn with the next words of the
    generator, or those of the cache) are one per player and pairwise
    distinct, a round of [closerUserGetsReward] on arrays of the sizes
    of the round ends normally and increases the sum of the collisions
    by the sum over the arms of [max(occupancy - 1, 0)]; on every arm
    that a player chose, one of the players who chose it, at the least
    distance among them, has the entry of the arm in its row of the
    pulls increased by 1, its reward set to a draw of this arm at time
    [t], and [getReward] called with the arm and this draw right after
    the draw; the other players who chose the arm learn of the collision
    and keep their reward and their row of the pulls. *)
Theorem closer_random_grants_the_closest (t : nat) (arms : list Arm)
    (players : list Player) (choices : list nat) (d : list Q) (s s1 : State) :
  well_formed arms players choices s ->
  random_distances (length players) s = Ok d s1 ->
  length d = length players ->
  pairwise_distinct d ->
  exists s' new_calls,
    closerUserGetsReward t arms players choices DistancesRandom s = Ok tt s' /\
    calls s' = calls s ++ new_calls /\
    (sumZ (collisions s') - sumZ (collisions s))%Z
    = sum_over_arms (excess choices) (length arms) /\
    forall arm, arm < length arms -> 1 <= occupancy choices arm ->
      exists i,
        nth_error choices i = Some arm /\
        (forall j, nth_error choices j = Some arm -> (nth i d 0 <= nth j d 0)%Q) /\
        (exists a w x,
           nth_error arms arm = Some a /\
           pulls_at s i arm = Some x /\
           pulls_at s' i arm = Some (x + 1)%Z /\
           (forall arm', arm' <> arm -> pulls_at s' i arm' = pulls_at s i arm') /\
           nth_error (rewards s') i = Some (a t w) /\
           granted_value new_calls i arm t (a t w)) /\
        (forall j, j <> i -> nth_error choices j = Some arm ->
           signalled players new_calls j arm /\
           nth_error (rewards s') j = nth_error (rewards s) j /\
           nth_error (pulls s') j = nth_error (pulls s) j).
Proof.
  intros Hwf Hrd Hd Hdist.
  destruct (random_distances_frame _ _ _ _ Hrd) as (ER & EP & EC & EL).
  assert (Hwf1 : well_formed arms players choices s1).
  { destruct Hwf as [W1 W2 W3 W4 W5 W6].
    constructor; rewrite ?ER, ?EP, ?EC; auto. }
  destruct (closer_run_outcome t arms players choices d s1 Hwf1 Hd Hdist)
    as (s' & Hrun & _ & new & Hcalls & _ & Hdone).
  destruct (closerUserGetsReward_run t arms players choices d s1 Hwf1 Hd Hdist)
    as (s'' & Hrun2 & _ & Hsum).
  rewrite Hrun in Hrun2. inversion Hrun2. subst s''. clear Hrun2.
  destruct (sound_closerUserGetsReward t arms players choices (DistancesArray d) s1)
    as (new2 & Hcalls2 & Hsound).
  rewrite Hrun in Hcalls2. cbn [final] in Hcalls2.
  assert (new2 = new).
  { rewrite Hcalls in Hcalls2. apply app_inv_head in Hcalls2. auto. }
  subst new2.
  exists s', new.
  split; [rewrite (closer_unfold_random t arms players choices d s s1 Hrd); exact Hrun|].
  split; [rewrite Hcalls, EL; reflexivity|].
  split; [rewrite Hsum, EC; lia|].
  intros arm Harm Hocc.
  destruct (Hdone arm Harm Hocc)
    as (i & Hci & Hleast & (r & Hr & Hg) & (row & x & Hr0 & Hx & Hp) & Hothers).
  exists i. split; [exact Hci|]. split; [exact Hleast|]. split.
  - destruct (Hsound arm t r (granted_value_draw _ _ _ _ _ Hg))
      as (a & w & Ha & ->).
    assert (Hlt : arm < length row) by (apply nth_error_Some; congruence).
    exists a, w, x. repeat split; auto.
    + unfold pulls_at. rewrite <- EP, Hr0. exact Hx.
    + unfold pulls_at. rewrite Hp. apply nth_error_list_update_eq, Hlt.
    + intros arm' Hne. unfold pulls_at. rewrite Hp, <- EP, Hr0.
      apply nth_error_list_update_neq. auto.
  - intros j Hji Hcj. destruct (Hothers j Hji Hcj) as (Hs & Hr' & Hp').
    rewrite <- ER, <- EP. auto.
Qed.

Lemma closer_random_grants_the_closest_witness :
  exists s' new_calls,
    closerUserGetsReward 0 [example_arm; example_arm] example_players [0; 0]
      DistancesRandom example_state = Ok tt s' /\
    calls s' = calls example_state ++ new_calls /\
    (sumZ (collisions s') - sumZ (collisions example_state))%Z
    = sum_over_arms (excess [0; 0]) (length [example_arm; example_arm]) /\
    forall arm, arm < length [example_arm; example_arm] ->
      1 <= occupancy [0; 0] arm ->
      exists i,
        nth_error [0; 0] i = Some arm /\
        (forall j, nth_error [0; 0] j = Some arm ->
           (nth i example_random_distances 0 <= nth j example_random_distances 0)%Q) /\
        (exists a w x,
           nth_error [example_arm; example_arm] arm = Some a /\
           pulls_at example_state i arm = Some x /\
           pulls_at s' i arm = Some (x + 1)%Z /\
           (forall arm', arm' <> arm ->
              pulls_at s' i arm' = pulls_at example_state i arm') /\
           nth_error (rewards s') i = Some (a 0 w) /\
           granted_value new_calls i arm 0 (a 0 w)) /\
        (forall j, j <> i -> nth_error [0; 0] j = Some arm ->
           signalled example_players new_calls j arm /\
           nth_error (rewards s') j = nth_error (rewards example_state) j /\
           nth_error (pulls s') j = nth_error (pulls example_state) j).
Proof.
  apply (closer_random_grants_the_closest 0 [example_arm; example_arm]
           example_players [0; 0] example_random_distances example_state
           example_state_drawn).
  - apply example_well_formed; [reflexivity|].
    intros c [<-|[<-|[]]]; lia.
  - reflexivity.
  - reflexivity.
  - intros [|[|i]] [|[|j]] x y Hx Hy Hne; cbn in Hx, Hy;
      try discriminate; try (exfalso; apply Hne; reflexivity);
      try (destruct i; discriminate); try (destruct j; discriminate);
      inversion Hx; inversion Hy; subst; intros Heq; vm_compute in Heq;
      discriminate.
Defined.

(** * Properties of the statistical tests *)

Local Open Scope R_scope.

(** ** Comparisons *)

Lemma Rltb_true (x y : R) : x < y -> Rltb x y = true.
Proof. intros H. unfold Rltb. destruct (Rlt_dec x y); [reflexivity | contradiction]. Qed.

Lemma Rltb_false (x y : R) : ~ x < y -> Rltb x y = false.
Proof. intros H. unfold Rltb. destruct (Rlt_dec x y); [contradiction | reflexivity]. Qed.

Lemma Rltb_iff (x y : R) : Rltb x y = true <-> x < y.
Proof.
  unfold Rltb. destruct (Rlt_dec x y); split; auto; discriminate.
Qed.

Lemma Reqb_true (x y : R) : x = y -> Reqb x y = true.
Proof. intros H. unfold Reqb. destruct (Req_dec_T x y); [reflexivity | contradiction]. Qed.

Lemma Reqb_false (x y : R) : x <> y -> Reqb x y = false.
Proof. intros H. unfold Reqb. destruct (Req_dec_T x y); [contradiction | reflexivity]. Qed.

Lemma Reqb_iff (x y : R) : Reqb x y = true <-> x = y.
Proof.
  unfold Reqb. destruct (Req_dec_T x y); split; auto; discriminate.
Qed.

Lemma fge_Fin (x y : R) : fge (Fin x) (Fin y) = true <-> y <= x.
Proof.
  unfold fge, flt, feq. rewrite orb_true_iff, Rltb_iff, Reqb_iff.
  split; [intros [H|H]; lra | intros H; destruct (Rle_lt_or_eq_dec _ _ H); auto].
Qed.

Lemma fgt_Fin (x y : R) : fgt (Fin x) (Fin y) = true <-> y < x.
Proof. unfold fgt, flt. apply Rltb_iff. Qed.

Lemma np_log_pos (x : R) : 0 < x -> np_log x = Fin (ln x).
Proof. intros H. unfold np_log. rewrite Rltb_true by exact H. reflexivity. Qed.

Lemma ln_pos (x : R) : 1 < x -> 0 < ln x.
Proof. intros H. rewrite <- ln_1. apply ln_increasing; lra. Qed.

Lemma ln_nonneg (x : R) : 1 <= x -> 0 <= ln x.
Proof.
  intros [H|<-]; [left; apply ln_pos, H | rewrite ln_1; lra].
Qed.

(** ** The tests read the visible samples only *)

Lemma firstn_ext {A : Type} (t : nat) (l1 l2 : list A) :
  (forall i, (i < t)%nat -> nth_error l1 i = nth_error l2 i) ->
  firstn t l1 = firstn t l2.
Proof.
  revert l1 l2; induction t as [|t IH]; intros l1 l2 H; [reflexivity|].
  pose proof (H 0%nat (Nat.lt_0_succ t)) as H0.
  destruct l1 as [|x l1], l2 as [|y l2]; simpl in H0; try discriminate;
    [reflexivity|].
  inversion H0; subst. simpl. f_equal. apply IH.
  intros i Hi. apply (H (S i)). lia.
Qed.

(** C8: two streams of the same length that agree on the indices below
    [t] get the same answer at time [t] from each test, for the same
    parameters. *)
Theorem tests_read_the_visible_prefix (data1 data2 : list R) (t : nat)
    (window_size : nat) (threshold_b : option fval)
    (epsilon : R) (M : nat) (threshold_h : option fval) :
  length data1 = length data2 ->
  (forall i, (i < t)%nat -> nth_error data1 i = nth_error data2 i) ->
  Monitored data1 t window_size threshold_b = Monitored data2 t window_size threshold_b /\
  CUSUM data1 t epsilon M threshold_h = CUSUM data2 t epsilon M threshold_h /\
  PHT data1 t epsilon M threshold_h = PHT data2 t epsilon M threshold_h /\
  GaussianGLR data1 t threshold_h = GaussianGLR data2 t threshold_h /\
  BernoulliGLR data1 t threshold_h = BernoulliGLR data2 t threshold_h.
Proof.
  intros Hlen Hagree. apply firstn_ext in Hagree.
  unfold Monitored, CUSUM, CUSUM_run, PHT, PHT_run, GaussianGLR, BernoulliGLR, GLR.
  rewrite Hlen, Hagree. repeat split; reflexivity.
Qed.

Lemma tests_read_the_visible_prefix_witness :
  Monitored [1; 2; 3] 2 2 None = Monitored [1; 2; 5] 2 2 None /\
  CUSUM [1; 2; 3] 2 EPSILON 1 None = CUSUM [1; 2; 5] 2 EPSILON 1 None /\
  PHT [1; 2; 3] 2 EPSILON 1 None = PHT [1; 2; 5] 2 EPSILON 1 None /\
  GaussianGLR [1; 2; 3] 2 None = GaussianGLR [1; 2; 5] 2 None /\
  BernoulliGLR [1; 2; 3] 2 None = BernoulliGLR [1; 2; 5] 2 None.
Proof.
  apply (tests_read_the_visible_prefix [1; 2; 3] [1; 2; 5] 2 2 None EPSILON 1 None).
  - reflexivity.
  - intros [|[|i]] Hi; [reflexivity | reflexivity | lia].
Defined.

(** ** The threshold of [CUSUM] and [PHT] *)

Lemma floor_spec (x : R) (z : Z) : IZR z <= x < IZR z + 1 -> floor x = z.
Proof.
  intros [H1 H2]. unfold floor. symmetry. apply Int_part_spec. lra.
Qed.

Lemma ceil_spec (x : R) (z : Z) : IZR z - 1 < x <= IZR z -> ceil x = z.
Proof.
  intros [H1 H2]. unfold ceil.
  rewrite <- (Int_part_spec (- x) (- z)%Z); [lia|].
  rewrite opp_IZR. lra.
Qed.

(** The value of [compute_h__CUSUM] when the two logarithms are those of
    numbers above 1 and [C1_plus] is the smaller. *)
Lemma compute_h__CUSUM_value (horizon verbose M : nat) (epsilon am ap : R) :
  (1 - epsilon) ^ 2 <> 0 ->
  (1 + epsilon) ^ 2 <> 0 ->
  am = ((4 * epsilon) / (1 - epsilon) ^ 2)
       * comb M (floor (2 * epsilon * INR M)) * (2 * epsilon) ^ M + 1 ->
  ap = ((4 * epsilon) / (1 + epsilon) ^ 2)
       * comb M (ceil (2 * epsilon * INR M)) * (2 * epsilon) ^ M + 1 ->
  1 < ap -> ap <= am ->
  compute_h__CUSUM horizon verbose M MAX_NB_RANDOM_EVENTS 1 epsilon LAMBDA
  = Some (Fin (/ ln ap * ln (INR (Nat.max 1 horizon)))).
Proof.
  intros Hm Hp Eam Eap H1 Hle. unfold compute_h__CUSUM.
  rewrite (Reqb_false _ _ Hm), (Reqb_false _ _ Hp). rewrite <- Eam, <- Eap.
  rewrite (np_log_pos am) by lra. rewrite (np_log_pos ap) by lra.
  assert (Hlnp : 0 < ln ap) by (apply ln_pos, H1).
  assert (Emin : py_min (Fin (ln am)) (Fin (ln ap)) = Fin (ln ap)).
  { unfold py_min, flt. destruct Hle as [Hlt|Heq].
    - rewrite Rltb_true by (apply ln_increasing; lra). reflexivity.
    - rewrite Heq. rewrite Rltb_false by lra. reflexivity. }
  rewrite Emin. cbn [feq]. rewrite Reqb_false by lra.
  cbn [finv]. rewrite Reqb_false by lra.
  assert (HT : 1 <= INR (Nat.max 1 horizon)).
  { change 1 with (INR 1). apply le_INR. lia. }
  unfold MAX_NB_RANDOM_EVENTS. change (Nat.max 1 1) with 1%nat.
  change (INR 1) with 1. rewrite Rdiv_1_r.
  rewrite np_log_pos by lra. reflexivity.
Qed.

Lemma comb_1_0 : comb 1 0 = 1.
Proof. reflexivity. Qed.

Lemma comb_1_1 : comb 1 1 = 1.
Proof. reflexivity. Qed.

Lemma comb_4_2 : comb 4 2 = 6.
Proof. unfold comb. simpl. lra. Qed.

(** With the precision 1/2 of the default, whatever [M] the caller gives. *)
Lemma default_threshold_h_half (horizon M : nat) :
  default_threshold_h horizon EPSILON M None
  = Some (Fin (/ ln (17 / 9) * ln (INR (Nat.max 1 horizon)))).
Proof.
  unfold default_threshold_h, EPSILON.
  assert (Ef : floor (2 * (1 / 2) * INR 1) = 1%Z).
  { apply floor_spec. simpl. lra. }
  assert (Ec : ceil (2 * (1 / 2) * INR 1) = 1%Z).
  { apply ceil_spec. simpl. lra. }
  apply (compute_h__CUSUM_value horizon M 1 (1 / 2) 9 (17 / 9)).
  - lra.
  - lra.
  - rewrite Ef, comb_1_1. simpl. field.
  - rewrite Ec, comb_1_1. simpl. field.
  - lra.
  - lra.
Qed.

Lemma default_threshold_h_quarter (horizon M : nat) :
  default_threshold_h horizon (1 / 4) M None
  = Some (Fin (/ ln (33 / 25) * ln (INR (Nat.max 1 horizon)))).
Proof.
  unfold default_threshold_h.
  assert (Ef : floor (2 * (1 / 4) * INR 1) = 0%Z).
  { apply floor_spec. simpl. lra. }
  assert (Ec : ceil (2 * (1 / 4) * INR 1) = 1%Z).
  { apply ceil_spec. simpl. lra. }
  apply (compute_h__CUSUM_value horizon M 1 (1 / 4) (17 / 9) (33 / 25)).
  - lra.
  - lra.
  - rewrite Ef, comb_1_0. simpl. field.
  - rewrite Ec, comb_1_1. simpl. field.
  - lra.
  - lra.
Qed.

Lemma compute_h__CUSUM_quarter_4 (horizon verbose : nat) :
  compute_h__CUSUM horizon verbose 4 MAX_NB_RANDOM_EVENTS 1 (1 / 4) LAMBDA
  = Some (Fin (/ ln (31 / 25) * ln (INR (Nat.max 1 horizon)))).
Proof.
  assert (E4 : INR 4 = 4) by (simpl; lra).
  assert (Ef : floor (2 * (1 / 4) * INR 4) = 2%Z).
  { apply floor_spec. rewrite E4. lra. }
  assert (Ec : ceil (2 * (1 / 4) * INR 4) = 2%Z).
  { apply ceil_spec. rewrite E4. lra. }
  apply (compute_h__CUSUM_value horizon verbose 4 (1 / 4) (5 / 3) (31 / 25)).
  - lra.
  - lra.
  - rewrite Ef, comb_4_2. simpl. field.
  - rewrite Ec, comb_4_2. simpl. field.
  - lra.
  - lra.
Qed.

(** C2 fails on the code: the threshold that [CUSUM] and [PHT] compute
    is the same for every [M] of the caller, because [M] is passed as
    [verbose] and 1 as [M]; with [epsilon = 1/4] and a stream of two
    samples it is not the threshold of the formula for [M = 4]. *)
Theorem default_threshold_h_ignores_M :
  (forall horizon epsilon M M',
     default_threshold_h horizon epsilon M None
     = default_threshold_h horizon epsilon M' None) /\
  (forall horizon epsilon M,
     default_threshold_h horizon epsilon M None
     = compute_h__CUSUM horizon M 1 MAX_NB_RANDOM_EVENTS 1 epsilon LAMBDA) /\
  default_threshold_h 2 (1 / 4) 4 None
  <> compute_h__CUSUM 2 0 4 MAX_NB_RANDOM_EVENTS 1 (1 / 4) LAMBDA.
Proof.
  split; [reflexivity|]. split; [reflexivity|].
  rewrite default_threshold_h_quarter, compute_h__CUSUM_quarter_4.
  assert (H2 : 0 < ln (INR (Nat.max 1 2))).
  { apply ln_pos. simpl. lra. }
  assert (Ha : 0 < ln (31 / 25)) by (apply ln_pos; lra).
  assert (Hb : ln (31 / 25) < ln (33 / 25)) by (apply ln_increasing; lra).
  set (lT := ln (INR (Nat.max 1 2))) in *.
  intros E. assert (E' : / ln (33 / 25) * lT = / ln (31 / 25) * lT) by congruence.
  apply Rmult_eq_reg_r in E'; [|apply Rgt_not_eq, H2].
  apply Rinv_eq_reg in E'. lra.
Qed.

(** ** Constant streams *)

Lemma np_sum_repeat (c : R) (n : nat) : np_sum (repeat c n) = INR n * c.
Proof.
  induction n as [|n IH]; [simpl; lra|].
  rewrite S_INR. cbn [repeat np_sum fold_right]. fold (np_sum (repeat c n)).
  rewrite IH. lra.
Qed.

Lemma np_mean_repeat (c : R) (n : nat) :
  np_mean (repeat c n) = match n with O => None | S _ => Some c end.
Proof.
  destruct n as [|n]; [reflexivity|].
  unfold np_mean. cbn [repeat]. f_equal.
  change (c :: repeat c n) with (repeat c (S n)).
  rewrite np_sum_repeat, repeat_length.
  assert (INR (S n) <> 0) by (apply not_0_INR; discriminate).
  field. assumption.
Qed.

Lemma firstn_repeat {A : Type} (c : A) (k n : nat) :
  firstn k (repeat c n) = repeat c (Nat.min k n).
Proof.
  revert n; induction k as [|k IH]; intros [|n]; simpl; try reflexivity.
  rewrite IH. reflexivity.
Qed.

(** The mean of a prefix of a constant stream is the constant, or [nan]. *)
Lemma np_mean_prefix_constant (c : R) (k n : nat) :
  np_mean (firstn k (repeat c n)) = None \/
  np_mean (firstn k (repeat c n)) = Some c.
Proof.
  rewrite firstn_repeat, np_mean_repeat. destruct (Nat.min k n); auto.
Qed.

Lemma update_g_constant (c : R) (m : option R) :
  m = None \/ m = Some c ->
  update_g 0 (minus_minus m c EPSILON) = 0 /\
  update_g 0 (rminus_minus c m EPSILON) = 0.
Proof.
  unfold EPSILON. intros [->| ->]; cbn [minus_minus rminus_minus update_g py_max0];
    [split; reflexivity|].
  split; rewrite Rltb_false by lra; reflexivity.
Qed.

Lemma fge_zero_positive (h : R) : 0 < h -> fge (Fin (Rmax 0 0)) (Fin h) = false.
Proof.
  intros H. destruct (fge (Fin (Rmax 0 0)) (Fin h)) eqn:E; [|reflexivity].
  apply fge_Fin in E. unfold Rmax in E. destruct (Rle_dec 0 0); lra.
Qed.

Lemma PHT_loop_constant (c h : R) (n m k : nat) :
  0 < h ->
  PHT_loop (repeat c n) EPSILON (Fin h) k 0 0 (repeat c m) = (false, (0, 0)).
Proof.
  intros Hh. revert k; induction m as [|m IH]; intros k; [reflexivity|].
  cbn [repeat PHT_loop].
  destruct (update_g_constant c _ (np_mean_prefix_constant c k n)) as [-> ->].
  rewrite (fge_zero_positive h Hh). apply IH.
Qed.

Lemma CUSUM_loop_constant (c h : R) (u0hat : option R) (M m k : nat) :
  0 < h ->
  u0hat = None \/ u0hat = Some c ->
  CUSUM_loop u0hat EPSILON M (Fin h) k 0 0 (repeat c m) = (false, (0, 0)).
Proof.
  intros Hh Hu. revert k; induction m as [|m IH]; intros k; [reflexivity|].
  cbn [repeat CUSUM_loop]. destruct (Nat.leb k M); [apply IH|].
  destruct (update_g_constant c _ Hu) as [-> ->].
  rewrite (fge_zero_positive h Hh). apply IH.
Qed.

Lemma threshold_positive (horizon : nat) :
  (2 <= horizon)%nat -> 0 < / ln (17 / 9) * ln (INR (Nat.max 1 horizon)).
Proof.
  intros H. apply Rmult_lt_0_compat.
  - apply Rinv_0_lt_compat, ln_pos. lra.
  - apply ln_pos. change 1 with (INR 1). apply lt_INR. lia.
Qed.

(** X11: on a constant stream [CUSUM] answers no at every time, for every
    [M], and its statistics stay at zero. *)
Lemma CUSUM_constant_stream (c : R) (horizon t M : nat) :
  CUSUM_run (repeat c horizon) t EPSILON M None = Some (false, (0, 0)).
Proof.
  unfold CUSUM_run. rewrite default_threshold_h_half, repeat_length.
  rewrite !firstn_repeat. f_equal.
  destruct (le_lt_dec 2 horizon) as [H2|H1].
  - apply CUSUM_loop_constant.
    + apply threshold_positive, H2.
    + rewrite np_mean_repeat. destruct (Nat.min M (Nat.min t horizon)); auto.
  - destruct (Nat.min t horizon) as [|[|n]] eqn:E; [reflexivity | reflexivity | lia].
Qed.

(** X12: on a constant stream of two samples or more, or of none, [PHT]
    answers no at every time and its statistics stay at zero. *)
Lemma PHT_constant_stream (c : R) (horizon t M : nat) :
  horizon <> 1%nat ->
  PHT_run (repeat c horizon) t EPSILON M None = Some (false, (0, 0)).
Proof.
  intros H1. unfold PHT_run. rewrite default_threshold_h_half, repeat_length.
  rewrite !firstn_repeat. f_equal.
  destruct (le_lt_dec 2 horizon) as [H2|H0].
  - apply PHT_loop_constant, threshold_positive, H2.
  - replace horizon with 0%nat by lia. rewrite Nat.min_0_r. reflexivity.
Qed.

(** C6 fails on the code: on the constant stream of one sample 0.5, at
    time 1, [PHT] with the default parameters answers yes. The
    statistics are zero, the threshold is [log(1) / C1 = 0], and the
    test is [max(gp, gm) >= threshold_h]. *)
Theorem PHT_detects_on_one_sample :
  PHT [1 / 2] 1 EPSILON MIN_NUMBER_OF_OBSERVATION_BETWEEN_CHANGE_POINT None
  = Some true /\
  PHT_run [1 / 2] 1 EPSILON MIN_NUMBER_OF_OBSERVATION_BETWEEN_CHANGE_POINT None
  = Some (true, (0, 0)) /\
  default_threshold_h 1 EPSILON MIN_NUMBER_OF_OBSERVATION_BETWEEN_CHANGE_POINT None
  = Some (Fin (/ ln (17 / 9) * ln 1)).
Proof.
  assert (E : PHT_run [1 / 2] 1 EPSILON
                MIN_NUMBER_OF_OBSERVATION_BETWEEN_CHANGE_POINT None
              = Some (true, (0, 0))).
  { unfold PHT_run. rewrite default_threshold_h_half.
    cbn [length firstn PHT_loop np_mean minus_minus rminus_minus update_g py_max0].
    replace (fge (Fin (Rmax 0 0)) (Fin (/ ln (17 / 9) * ln (INR (Nat.max 1 1)))))
      with true; [reflexivity|].
    symmetry. apply fge_Fin. simpl. rewrite ln_1, Rmult_0_r.
    unfold Rmax. destruct (Rle_dec 0 0); lra. }
  split; [|split].
  - unfold PHT. rewrite E. reflexivity.
  - exact E.
  - rewrite default_threshold_h_half. reflexivity.
Qed.

(** ** Sums and means of the samples by their indices *)

Lemma sum_range_ext (f g : nat -> R) (n : nat) :
  (forall i, (i < n)%nat -> f i = g i) -> sum_range f n = sum_range g n.
Proof.
  induction n as [|n IH]; intros H; [reflexivity|].
  simpl. rewrite IH, H by auto. reflexivity.
Qed.

Lemma np_sum_app (l1 l2 : list R) : np_sum (l1 ++ l2) = np_sum l1 + np_sum l2.
Proof.
  induction l1 as [|x l1 IH]; simpl; [lra|].
  fold (np_sum (l1 ++ l2)). fold (np_sum l1). rewrite IH. lra.
Qed.

Lemma firstn_S_nth {A : Type} (l : list A) (n : nat) (d : A) :
  (n < length l)%nat -> firstn (S n) l = firstn n l ++ [nth n l d].
Proof.
  revert n; induction l as [|x l IH]; intros [|n] H; simpl in *; try lia;
    [reflexivity|].
  rewrite (IH n) by lia. reflexivity.
Qed.

Lemma np_sum_firstn (l : list R) (n : nat) :
  (n <= length l)%nat -> np_sum (firstn n l) = sum_range (fun i => nth i l 0) n.
Proof.
  induction n as [|n IH]; intros H; [reflexivity|].
  rewrite (firstn_S_nth l n 0) by lia. rewrite np_sum_app, IH by lia.
  simpl. lra.
Qed.

Lemma np_sum_slice (l : list R) (a n : nat) :
  (a + n <= length l)%nat ->
  np_sum (firstn n (skipn a l)) = sum_between l a n.
Proof.
  intros H. rewrite np_sum_firstn by (rewrite length_skipn; lia).
  apply sum_range_ext. intros i _. apply nth_skipn.
Qed.

Lemma sum_between_firstn (l : list R) (t a n : nat) :
  (a + n <= t)%nat -> sum_between (firstn t l) a n = sum_between l a n.
Proof.
  intros H. apply sum_range_ext. intros i Hi. rewrite nth_firstn.
  destruct (Nat.ltb_spec (a + i) t); [reflexivity | lia].
Qed.

(** ** [Monitored] *)

(** C4: [Monitored] answers no when [t < window_size]; for a window of
    positive size [w <= t], at a time [t] of the stream and without an
    explicit threshold, it answers yes if and only if the absolute
    difference between the sum of the first [w // 2] and the sum of the
    other of the last [w] visible samples exceeds
    [sqrt(w / 2 * log(2 * K * T ** 2))], where [T] is the length of the
    stream and [K = NB_ARMS = 1]. *)
Theorem Monitored_window_test (all_data : list R) (t w : nat) :
  ((t < w)%nat -> Monitored all_data t w None = false) /\
  ((0 < w)%nat -> (w <= t)%nat -> (t <= length all_data)%nat ->
   (Monitored all_data t w None = true <->
    sqrt (INR w / 2 * ln (2 * INR NB_ARMS * INR (length all_data) ^ 2))
    < Rabs (sum_between all_data (t - w) (w / 2)
            - sum_between all_data (t - w + w / 2) (w - w / 2)))) /\
  NB_ARMS = 1%nat.
Proof.
  split; [|split; [|reflexivity]].
  - intros Hlt. unfold Monitored.
    pose proof (firstn_le_length t all_data) as Hle.
    destruct (Nat.ltb_spec (length (firstn t all_data)) w); [reflexivity | lia].
  - intros Hw Hwt Ht. unfold Monitored.
    assert (Hlen : length (firstn t all_data) = t).
    { rewrite length_firstn. lia. }
    rewrite Hlen.
    destruct (Nat.ltb_spec t w) as [Hlt|_]; [lia|].
    assert (HT : 1 <= INR (length all_data)).
    { change 1 with (INR 1). apply le_INR. lia. }
    assert (Harg : 1 < 2 * INR NB_ARMS * INR (length all_data) ^ 2).
    { unfold NB_ARMS. simpl. nra. }
    rewrite np_log_pos by lra. cbn [fmul np_sqrt].
    assert (Hprod : 0 <= INR w / 2 * ln (2 * INR NB_ARMS * INR (length all_data) ^ 2)).
    { apply Rmult_le_pos.
      - pose proof (pos_INR w). lra.
      - apply ln_nonneg. lra. }
    rewrite Rltb_false by lra. rewrite fgt_Fin.
    assert (Hw2 : (w / 2 <= w)%nat) by (apply Nat.Div0.div_le_upper_bound; lia).
    unfold last_slice. destruct (Nat.eqb_spec w 0) as [->|_]; [lia|].
    rewrite Hlen, skipn_skipn.
    rewrite np_sum_slice by (rewrite Hlen; lia).
    rewrite <- (firstn_all (skipn (w / 2 + (t - w)) (firstn t all_data))).
    rewrite length_skipn, Hlen.
    rewrite np_sum_slice by (rewrite Hlen; lia).
    rewrite !sum_between_firstn by lia.
    replace (t - (w / 2 + (t - w)))%nat with (w - w / 2)%nat by lia.
    replace (w / 2 + (t - w))%nat with (t - w + w / 2)%nat by lia.
    reflexivity.
Qed.

Lemma Monitored_window_test_witness :
  Monitored [0; 0; 1; 1] 4 2 None = true <->
  sqrt (INR 2 / 2 * ln (2 * INR NB_ARMS * INR (length [0; 0; 1; 1]) ^ 2))
  < Rabs (sum_between [0; 0; 1; 1] (4 - 2) (2 / 2)
          - sum_between [0; 0; 1; 1] (4 - 2 + 2 / 2) (2 - 2 / 2)).
Proof.
  destruct (Monitored_window_test [0; 0; 1; 1] 4 2) as (_ & H & _).
  apply H; simpl; lia.
Defined.

(** ** The GLR tests *)

Lemma np_mean_nonempty (l : list R) :
  l <> [] -> np_mean l = Some (np_sum l / INR (length l)).
Proof. destruct l; [congruence | reflexivity]. Qed.

Lemma firstn_min_length {A : Type} (n : nat) (l : list A) :
  firstn n l = firstn (Nat.min n (length l)) l.
Proof.
  destruct (Nat.le_ge_cases n (length l)) as [H|H].
  - rewrite Nat.min_l by exact H. reflexivity.
  - rewrite Nat.min_r by exact H. rewrite firstn_all. apply firstn_all2, H.
Qed.

(** What [mu(a, b)] is on the visible samples. *)
Lemma mu_visible (all_data : list R) (t a b : nat) :
  (t <= length all_data)%nat -> (a < t)%nat -> (a <= b)%nat ->
  mu (firstn t all_data) a b = Some (mean_between all_data a (Nat.min b (t - 1))).
Proof.
  intros Ht Ha Hab. unfold mu, slice, mean_between.
  assert (Hlen : length (firstn t all_data) = t) by (rewrite length_firstn; lia).
  rewrite firstn_min_length, length_skipn, Hlen.
  replace (Nat.min (b + 1 - a) (t - a)) with (Nat.min b (t - 1) + 1 - a)%nat by lia.
  set (n := (Nat.min b (t - 1) + 1 - a)%nat).
  assert (Hn : (0 < n)%nat) by (unfold n; lia).
  assert (Hfit : (a + n <= t)%nat) by (unfold n; lia).
  rewrite np_mean_nonempty.
  - rewrite np_sum_slice by (rewrite Hlen; exact Hfit).
    rewrite sum_between_firstn by exact Hfit.
    rewrite length_firstn, length_skipn, Hlen.
    replace (Nat.min n (t - a)) with n by lia. reflexivity.
  - intros E. apply (f_equal (@length R)) in E.
    rewrite length_firstn, length_skipn, Hlen in E. simpl in E. lia.
Qed.

Lemma glr_statistic_visible (kl : R -> R -> R) (all_data : list R) (t s : nat) :
  (t <= length all_data)%nat -> (s + 2 <= t)%nat ->
  glr_statistic kl (firstn t all_data) t s = Some (glr_spec kl all_data t s).
Proof.
  intros Ht Hs. unfold glr_statistic, glr_spec.
  rewrite (mu_visible all_data t (s + 1) t) by lia.
  rewrite (mu_visible all_data t 0 s) by lia.
  replace (Nat.min t (t - 1)) with (t - 1)%nat by lia.
  replace (Nat.min s (t - 1)) with s by lia.
  rewrite !Nat.sub_0_r. reflexivity.
Qed.

Lemma GLR_loop_true_iff (kl : R -> R -> R) (data : list R) (t : nat) (h : fval)
    (stat : nat -> R) (splits : list nat) :
  (forall s, In s splits -> glr_statistic kl data t s = Some (stat s)) ->
  (GLR_loop kl data t h splits = true <->
   exists s, In s splits /\ fge (Fin (stat s)) h = true).
Proof.
  induction splits as [|s splits IH]; intros H.
  - simpl. split; [discriminate | intros (s & [] & _)].
  - cbn [GLR_loop]. rewrite (H s) by (left; reflexivity).
    destruct (fge (Fin (stat s)) h) eqn:E.
    + split; [|reflexivity]. intros _. exists s. split; [left; reflexivity | exact E].
    + rewrite IH by (intros s' Hs'; apply H; right; exact Hs').
      split.
      * intros (s' & Hs' & E'). exists s'. split; [right; exact Hs' | exact E'].
      * intros (s' & [<-|Hs'] & E'); [congruence|]. exists s'. auto.
Qed.

Lemma GLR_true_iff (kl : R -> R -> R) (all_data : list R) (t : nat)
    (threshold_h : option fval) :
  (t <= length all_data)%nat ->
  (GLR kl all_data t threshold_h = true <->
   exists s, (s + 2 <= t)%nat /\
     fge (Fin (glr_spec kl all_data t s))
         (match threshold_h with
          | Some h => h
          | None => compute_c__GLR 0 t (length all_data)
          end) = true).
Proof.
  intros Ht. unfold GLR.
  rewrite (GLR_loop_true_iff kl _ t _ (glr_spec kl all_data t)).
  - split; intros (s & Hs & E); exists s; (split; [|exact E]).
    + apply in_seq in Hs. lia.
    + apply in_seq. lia.
  - intros s Hs. apply in_seq in Hs. apply glr_statistic_visible; [exact Ht | lia].
Qed.

Lemma fgt_fge (a b : fval) : fgt a b = true -> fge a b = true.
Proof. unfold fgt, fge. intros ->. reflexivity. Qed.

Lemma clamp_bounds (x : R) : eps <= clamp x <= 1 - eps.
Proof.
  unfold clamp, eps, Rmin, Rmax.
  destruct (Rle_dec x (1 / 1000000));
    destruct (Rle_dec _ (1 - 1 / 1000000)); lra.
Qed.

(** C5, as stated, fails: with the samples 0, 1, 1, at time 3 and for
    the threshold 1.8, [GaussianGLR] answers no, and the split 1 has a
    statistic of 2 for the means of [observations[2:3]] and
    [observations[0:1]]. *)
Lemma GaussianGLR_mean_includes_split :
  GaussianGLR [0; 1; 1] 3 (Some (Fin (9 / 5))) = false /\
  exists s m1 m0,
    (s + 2 <= 3)%nat /\
    np_mean (slice [0; 1; 1] (s + 1) 3) = Some m1 /\
    np_mean (slice [0; 1; 1] 0 s) = Some m0 /\
    9 / 5 < INR (s + 1) * INR (3 - s) / INR (3 + 1) * klGauss m1 m0.
Proof.
  split.
  - destruct (GaussianGLR [0; 1; 1] 3 (Some (Fin (9 / 5)))) eqn:E; [|reflexivity].
    exfalso. unfold GaussianGLR in E.
    apply (GLR_true_iff klGauss [0; 1; 1] 3 (Some (Fin (9 / 5)))) in E;
      [|simpl; lia].
    destruct E as (s & Hs & E). apply fge_Fin in E.
    assert (Hs' : s = 0%nat \/ s = 1%nat) by lia.
    destruct Hs' as [-> | ->];
      unfold glr_spec, mean_between, sum_between, klGauss in E; simpl in E; lra.
  - exists 1%nat, (1 / 1), (0 / 1). repeat split.
    + simpl. lia.
    + unfold slice, np_mean. simpl. f_equal. lra.
    + unfold slice, np_mean. simpl. f_equal. lra.
    + unfold klGauss. simpl. lra.
Qed.

(** C5, amended: at a time [t] of the stream, [GaussianGLR] answers yes
    if, for a split [s] of [0 .. t-2], the statistic
    [(s+1)(t-s)/(t+1) * kl(m1, m0)] exceeds the threshold, and only if
    for such a split it is at least the threshold, where [m1] is the
    mean of the samples of index [s+1] to [t-1], [m0] the mean of the
    samples of index 0 to [s], both included, and [kl] is
    [(x-y)^2 / (2 * 0.25)]; and so does [BernoulliGLR], with the
    Bernoulli [kl] of the two means truncated to [[1e-6, 1 - 1e-6]]. *)
Theorem GLR_split_test (all_data : list R) (t : nat) (threshold_h : option fval) :
  (t <= length all_data)%nat ->
  let h := match threshold_h with
           | Some h => h
           | None => compute_c__GLR 0 t (length all_data)
           end in
  ((exists s, (s + 2 <= t)%nat /\ fgt (Fin (glr_spec klGauss all_data t s)) h = true) ->
   GaussianGLR all_data t threshold_h = true) /\
  (GaussianGLR all_data t threshold_h = true ->
   exists s, (s + 2 <= t)%nat /\ fge (Fin (glr_spec klGauss all_data t s)) h = true) /\
  ((exists s, (s + 2 <= t)%nat /\ fgt (Fin (glr_spec klBern all_data t s)) h = true) ->
   BernoulliGLR all_data t threshold_h = true) /\
  (BernoulliGLR all_data t threshold_h = true ->
   exists s, (s + 2 <= t)%nat /\ fge (Fin (glr_spec klBern all_data t s)) h = true) /\
  (forall x y, klGauss x y = (x - y) ^ 2 / (2 * (1 / 4))) /\
  (forall x y, klBern x y =
     clamp x * ln (clamp x / clamp y)
     + (1 - clamp x) * ln ((1 - clamp x) / (1 - clamp y))) /\
  (forall x, 1 / 1000000 <= clamp x <= 1 - 1 / 1000000).
Proof.
  intros Ht h.
  pose proof (GLR_true_iff klGauss all_data t threshold_h Ht) as HG.
  pose proof (GLR_true_iff klBern all_data t threshold_h Ht) as HB.
  fold h in HG, HB.
  repeat split.
  - intros (s & Hs & E). apply HG. exists s. split; [exact Hs | apply fgt_fge, E].
  - apply HG.
  - intros (s & Hs & E). apply HB. exists s. split; [exact Hs | apply fgt_fge, E].
  - apply HB.
  - apply (clamp_bounds x).
  - apply (clamp_bounds x).
Qed.

Lemma GLR_split_test_witness :
  (3 <= length [0; 1; 1])%nat /\
  GaussianGLR [0; 1; 1] 3 (Some (Fin 1)) = true.
Proof.
  split; [simpl; lia|].
  destruct (GLR_split_test [0; 1; 1] 3 (Some (Fin 1))) as (H & _).
  - simpl. lia.
  - apply H. exists 0%nat. split; [lia|]. apply fgt_Fin.
    unfold glr_spec, mean_between, sum_between, klGauss. simpl. lra.
Defined.

(** ** The thresholds in exact arithmetic *)

Lemma comb_nonneg (N : nat) (k : Z) : 0 <= comb N k.
Proof.
  unfold comb. destruct ((0 <=? k)%Z && (k <=? Z.of_nat N)%Z); [apply pos_INR | lra].
Qed.

(** On the real numbers, [compute_c__GLR] gives [+inf] when [t = t0] (the
    logarithm of 0 is [-inf]) and a positive real number otherwise. *)
Lemma compute_c__GLR_value (t0 t horizon : nat) :
  (t = t0 -> compute_c__GLR t0 t horizon = PInf) /\
  (t <> t0 -> exists c, compute_c__GLR t0 t horizon = Fin c /\ 0 < c).
Proof.
  unfold compute_c__GLR.
  assert (HT : 1 <= INR (Nat.max 1 horizon)).
  { change 1 with (INR 1). apply le_INR. lia. }
  split.
  - intros ->. rewrite Nat.sub_diag. change (Nat.max 0 0) with 0%nat.
    change (INR 0) with 0.
    replace (2 * 0 * sqrt (0 + 2) / (1 / INR (Nat.max 1 horizon))) with 0
      by (field; lra).
    unfold np_log. rewrite Rltb_false by lra. rewrite Reqb_true by reflexivity.
    cbn [fmul]. rewrite Rltb_true by lra. reflexivity.
  - intros Hne.
    set (n := INR (Nat.max (t - t0) (t0 - t))).
    assert (Hn : 1 <= n).
    { unfold n. change 1 with (INR 1). apply le_INR. lia. }
    assert (Hs : 1 <= sqrt (n + 2)).
    { rewrite <- sqrt_1. apply sqrt_le_1; lra. }
    assert (Harg : 1 < 2 * n * sqrt (n + 2) / (1 / INR (Nat.max 1 horizon))).
    { replace (2 * n * sqrt (n + 2) / (1 / INR (Nat.max 1 horizon)))
        with (2 * (n * sqrt (n + 2) * INR (Nat.max 1 horizon))) by (field; lra).
      assert (1 <= n * sqrt (n + 2)) by nra.
      assert (1 <= n * sqrt (n + 2) * INR (Nat.max 1 horizon)) by nra.
      lra. }
    rewrite np_log_pos by lra. cbn [fmul flt np_isinf].
    pose proof (ln_pos _ Harg) as Hln.
    assert (Hc : 0 < (1 + 1 / (n + 1)) * 2
                     * ln (2 * n * sqrt (n + 2) / (1 / INR (Nat.max 1 horizon)))).
    { apply Rmult_lt_0_compat; [|exact Hln].
      assert (0 < 1 / (n + 1)) by (apply Rdiv_lt_0_compat; lra). lra. }
    rewrite Rltb_false by lra. cbn [andb]. eexists. split; [reflexivity | exact Hc].
Qed.

(** ** The first samples of [CUSUM] *)

Lemma CUSUM_loop_skips (u0hat : option R) (epsilon : R) (M : nat) (h : fval)
    (rest : list R) (k : nat) (gp gm : R) :
  (k + length rest <= M + 1)%nat ->
  CUSUM_loop u0hat epsilon M h k gp gm rest = (false, (gp, gm)).
Proof.
  revert k. induction rest as [|y rest IH]; intros k Hk; [reflexivity|].
  cbn [CUSUM_loop]. cbn [length] in Hk.
  destruct (Nat.leb_spec k M) as [_|Hlt]; [|lia].
  apply IH. lia.
Qed.

Lemma default_threshold_h_raises (horizon : nat) (epsilon : R) (M : nat) :
  default_threshold_h horizon epsilon M None = None <->
  epsilon = 1 \/ epsilon = -1.
Proof.
  unfold default_threshold_h, compute_h__CUSUM.
  destruct (Req_dec_T ((1 - epsilon) ^ 2) 0) as [E1|N1].
  - rewrite (Reqb_true _ _ E1). split; [intros _|reflexivity].
    left. assert (1 - epsilon = 0) by nra. lra.
  - rewrite (Reqb_false _ _ N1).
    destruct (Req_dec_T ((1 + epsilon) ^ 2) 0) as [E2|N2].
    + rewrite (Reqb_true _ _ E2). split; [intros _|reflexivity].
      right. assert (1 + epsilon = 0) by nra. lra.
    + rewrite (Reqb_false _ _ N2). split; [discriminate|].
      intros [->| ->]; exfalso; [apply N1 | apply N2]; lra.
Qed.

(** X10: [CUSUM] skips the samples of index [0] to [M]: at a time
    [t <= M + 1] it answers no, whatever the samples and the threshold.
    With the threshold of the default the threshold is computed first,
    and its division raises [ZeroDivisionError] exactly when [epsilon]
    is 1 or -1, at every time. *)
Theorem CUSUM_skips_first_samples (all_data : list R) (t : nat) (epsilon : R)
    (M : nat) :
  (forall h, (t <= M + 1)%nat ->
     CUSUM all_data t epsilon M (Some h) = Some false) /\
  ((t <= M + 1)%nat -> epsilon <> 1 -> epsilon <> -1 ->
     CUSUM all_data t epsilon M None = Some false) /\
  (epsilon = 1 \/ epsilon = -1 -> CUSUM all_data t epsilon M None = None).
Proof.
  assert (Hlen : forall k, (t <= M + 1)%nat ->
            (k + length (firstn t all_data) <= k + (M + 1))%nat).
  { intros k Ht. pose proof (firstn_le_length t all_data).
    rewrite length_firstn. lia. }
  split; [|split].
  - intros h Ht. unfold CUSUM, CUSUM_run. cbn [default_threshold_h option_map].
    rewrite CUSUM_loop_skips; [reflexivity|]. apply (Hlen 0%nat Ht).
  - intros Ht H1 H2. unfold CUSUM, CUSUM_run.
    destruct (default_threshold_h (length all_data) epsilon M None) as [h|] eqn:E.
    + cbn [option_map]. rewrite CUSUM_loop_skips; [reflexivity|]. apply (Hlen 0%nat Ht).
    + apply default_threshold_h_raises in E. destruct E; contradiction.
  - intros H. unfold CUSUM, CUSUM_run.
    apply (default_threshold_h_raises (length all_data) epsilon M) in H.
    rewrite H. reflexivity.
Qed.

Lemma CUSUM_skips_first_samples_witness :
  (forall h, (2 <= 2 + 1)%nat ->
     CUSUM [0; 1; 1; 1] 2 EPSILON 2 (Some h) = Some false) /\
  ((2 <= 2 + 1)%nat -> EPSILON <> 1 -> EPSILON <> -1 ->
     CUSUM [0; 1; 1; 1] 2 EPSILON 2 None = Some false) /\
  (1 = 1 \/ 1 = -1 -> CUSUM [0; 1; 1; 1] 2 1 2 None = None).
Proof.
  split; [|split].
  - apply (CUSUM_skips_first_samples [0; 1; 1; 1] 2 EPSILON 2).
  - apply (CUSUM_skips_first_samples [0; 1; 1; 1] 2 EPSILON 2).
  - apply (CUSUM_skips_first_samples [0; 1; 1; 1] 2 1 2).
Defined.

(** ** The divergences *)

Lemma ln_le_minus_1 (z : R) : 0 < z -> ln z <= z - 1.
Proof.
  intros H. pose proof (exp_ineq1_le (ln z)) as E.
  rewrite exp_ln in E by exact H. lra.
Qed.

Lemma ln_lt_minus_1 (z : R) : 0 < z -> z <> 1 -> ln z < z - 1.
Proof.
  intros H Hne. pose proof (exp_ineq1 (ln z) (ln_neq_0 z Hne H)) as E.
  rewrite exp_ln in E by exact H. lra.
Qed.

Lemma x_ln_ratio (a b : R) :
  0 < a -> 0 < b ->
  a - b <= a * ln (a / b) /\ (a <> b -> a - b < a * ln (a / b)).
Proof.
  intros Ha Hb.
  assert (Hz : 0 < b / a) by (apply Rdiv_lt_0_compat; assumption).
  assert (E : ln (a / b) = - ln (b / a)).
  { rewrite <- ln_Rinv by exact Hz. f_equal. field; lra. }
  rewrite E.
  assert (Eba : a * (b / a - 1) = b - a) by (field; lra).
  split.
  - pose proof (ln_le_minus_1 _ Hz) as H.
    apply (Rmult_le_compat_l a) in H; [|lra]. lra.
  - intros Hne.
    assert (Hne1 : b / a <> 1).
    { intros F. apply Hne. replace b with (b / a * a) by (field; lra).
      rewrite F. lra. }
    pose proof (ln_lt_minus_1 _ Hz Hne1) as H.
    apply (Rmult_lt_compat_l a) in H; [|lra]. lra.
Qed.

Lemma eps_small : 0 < eps < 1 / 2.
Proof. unfold eps. lra. Qed.

(** X14: the two divergences of the GLR tests are not negative.
    [klGauss] is symmetric and is zero exactly when the two means are
    equal; [klBern] is zero exactly when the two means are equal after
    their truncation to [[eps, 1 - eps]], so it does not tell apart two
    means below [eps], or two means above [1 - eps]. *)
Theorem divergences_nonneg (x y : R) :
  (0 <= klGauss x y /\ klGauss x y = klGauss y x /\
   (klGauss x y = 0 <-> x = y)) /\
  (0 <= klBern x y /\ (klBern x y = 0 <-> clamp x = clamp y)).
Proof.
  split.
  - unfold klGauss. split; [|split].
    + assert (0 <= (x - y) ^ 2) by (apply pow2_ge_0). lra.
    + field.
    + split.
      * intros H. assert (E : (x - y) ^ 2 = 0) by lra.
        assert (x - y = 0) by nra. lra.
      * intros ->. field.
  - unfold klBern. cbv zeta.
    change (Rmin (Rmax x eps) (1 - eps)) with (clamp x).
    change (Rmin (Rmax y eps) (1 - eps)) with (clamp y).
    pose proof (clamp_bounds x) as Hx. pose proof (clamp_bounds y) as Hy.
    pose proof eps_small as He.
    set (a := clamp x) in *. set (b := clamp y) in *.
    destruct (x_ln_ratio a b) as [L1 S1]; [lra | lra |].
    destruct (x_ln_ratio (1 - a) (1 - b)) as [L2 S2]; [lra | lra |].
    split; [lra|]. split.
    + intros H. destruct (Req_dec_T a b) as [E|Hne]; [exact E|].
      pose proof (S1 Hne). lra.
    + intros ->. unfold Rdiv. rewrite !Rinv_r by lra. rewrite ln_1. lra.
Qed.

(** ** The GLR tests on a constant stream *)

Lemma skipn_repeat {A : Type} (c : A) (k n : nat) :
  skipn k (repeat c n) = repeat c (n - k).
Proof.
  revert n; induction k as [|k IH]; intros n.
  - rewrite Nat.sub_0_r. reflexivity.
  - destruct n as [|n]; [reflexivity|]. cbn [repeat skipn]. apply IH.
Qed.

Lemma mu_constant (c : R) (m a b : nat) :
  mu (repeat c m) a b = None \/ mu (repeat c m) a b = Some c.
Proof.
  unfold mu, slice. rewrite skipn_repeat, firstn_repeat, np_mean_repeat.
  destruct (Nat.min (b + 1 - a) (m - a)); auto.
Qed.

Lemma GLR_loop_constant (kl : R -> R -> R) (c h : R) (m t : nat) (splits : list nat) :
  kl c c = 0 -> 0 < h ->
  GLR_loop kl (repeat c m) t (Fin h) splits = false.
Proof.
  intros Hkl Hh. induction splits as [|s splits IH]; [reflexivity|].
  cbn [GLR_loop]. unfold glr_statistic.
  destruct (mu_constant c m (s + 1) t) as [-> | ->]; [exact IH|].
  destruct (mu_constant c m 0 s) as [-> | ->]; [exact IH|].
  rewrite Hkl, Rmult_0_r.
  replace (fge (Fin 0) (Fin h)) with false; [exact IH|].
  symmetry. destruct (fge (Fin 0) (Fin h)) eqn:E; [|reflexivity].
  apply fge_Fin in E. lra.
Qed.

Lemma GLR_constant (kl : R -> R -> R) (c : R) (n t : nat) :
  kl c c = 0 ->
  GLR kl (repeat c n) t None = false /\
  forall h, 0 < h -> GLR kl (repeat c n) t (Some (Fin h)) = false.
Proof.
  intros Hkl. unfold GLR. rewrite firstn_repeat. split.
  - destruct (Nat.eq_dec t 0) as [->|Hne]; [reflexivity|].
    destruct (compute_c__GLR_value 0 t (length (repeat c n))) as [_ Hpos].
    destruct (Hpos Hne) as (h & -> & Hh).
    apply GLR_loop_constant; assumption.
  - intros h Hh. apply GLR_loop_constant; assumption.
Qed.

(** X15: on a constant stream, [GaussianGLR] and [BernoulliGLR] answer
    no at every time, with the threshold of the default and with every
    positive threshold: the statistic of a split is zero, or [nan] when a
    part of the split is empty. *)
Theorem GLR_constant_stream (c : R) (n t : nat) :
  GaussianGLR (repeat c n) t None = false /\
  BernoulliGLR (repeat c n) t None = false /\
  forall h, 0 < h ->
    GaussianGLR (repeat c n) t (Some (Fin h)) = false /\
    BernoulliGLR (repeat c n) t (Some (Fin h)) = false.
Proof.
  assert (HG : klGauss c c = 0) by (unfold klGauss; field).
  assert (HB : klBern c c = 0).
  { unfold klBern. cbv zeta.
    pose proof (clamp_bounds c) as Hc. pose proof eps_small as He.
    unfold clamp in Hc. unfold Rdiv. rewrite !Rinv_r by lra. rewrite ln_1. lra. }
  destruct (GLR_constant klGauss c n t HG) as [G1 G2].
  destruct (GLR_constant klBern c n t HB) as [B1 B2].
  split; [exact G1|]. split; [exact B1|].
  intros h Hh. split; [apply G2 | apply B2]; exact Hh.
Qed.

Lemma GLR_constant_stream_witness :
  GaussianGLR (repeat (1 / 2) 4) 3 None = false /\
  BernoulliGLR (repeat (1 / 2) 4) 3 None = false /\
  forall h, 0 < h ->
    GaussianGLR (repeat (1 / 2) 4) 3 (Some (Fin h)) = false /\
    BernoulliGLR (repeat (1 / 2) 4) 3 (Some (Fin h)) = false.
Proof.
  apply (GLR_constant_stream (1 / 2) 4 3).
Defined.

(** ** [Monitored] on a constant stream, and the window of no sample *)

Lemma sqrt_threshold_nonneg (a : fval) :
  fgt (Fin 0) (np_sqrt a) = false.
Proof.
  unfold fgt. destruct a as [v| | |]; cbn [np_sqrt]; try reflexivity.
  unfold Rltb at 1. destruct (Rlt_dec v 0); [reflexivity|].
  cbn [flt]. apply Rltb_false. pose proof (sqrt_pos v). lra.
Qed.

(** X16: on a constant stream, [Monitored] with a window of even,
    positive size (as the 80 of the default) answers no at every time:
    the two halves of the window have the same sum. *)
Theorem Monitored_constant_stream (c : R) (n t k : nat) :
  (0 < k)%nat ->
  Monitored (repeat c n) t (2 * k) None = false.
Proof.
  intros Hk. unfold Monitored. rewrite firstn_repeat, !repeat_length.
  set (m := Nat.min t n).
  destruct (Nat.ltb_spec m (2 * k)) as [_|Hm]; [reflexivity|].
  unfold last_slice.
  destruct (Nat.eqb_spec (2 * k) 0) as [E|_]; [lia|].
  rewrite skipn_repeat, repeat_length.
  replace (m - (m - 2 * k))%nat with (2 * k)%nat by lia.
  replace (2 * k / 2)%nat with k by (rewrite Nat.mul_comm, Nat.div_mul; lia).
  rewrite firstn_repeat, skipn_repeat, !np_sum_repeat.
  replace (Nat.min k (2 * k)) with k by lia.
  replace (2 * k - k)%nat with k by lia.
  replace (INR k * c - INR k * c) with 0 by lra. rewrite Rabs_R0.
  apply sqrt_threshold_nonneg.
Qed.

Lemma Monitored_constant_stream_witness :
  (0 < 40)%nat /\ Monitored (repeat 1 200) 100 WINDOW_SIZE None = false.
Proof.
  split; [lia|]. apply (Monitored_constant_stream 1 200 100 40). lia.
Defined.

(** X17: a window of size 0 does not leave [Monitored] without samples:
    [data[-0:]] is the whole of the visible samples, the first half is
    empty and the threshold of the default is 0, so on a stream that is
    not empty [Monitored] answers yes exactly when the sum of the visible
    samples is not zero. On the empty stream the threshold is [nan] and
    the answer is no. *)
Theorem Monitored_window_of_size_zero (all_data : list R) (t : nat) :
  (all_data <> [] ->
   (Monitored all_data t 0 None = true <-> np_sum (firstn t all_data) <> 0)) /\
  Monitored [] t 0 None = false.
Proof.
  split.
  - intros Hne. unfold Monitored.
    change (Nat.ltb (length (firstn t all_data)) 0) with false.
    cbv iota. unfold last_slice. cbn [Nat.eqb].
    change (0 / 2)%nat with 0%nat. cbn [firstn skipn].
    change (np_sum []) with 0.
    assert (Hlen : (1 <= length all_data)%nat).
    { destruct all_data; [congruence | simpl; lia]. }
    assert (Hn : 1 <= INR (length all_data)).
    { change 1 with (INR 1). apply le_INR, Hlen. }
    rewrite np_log_pos by (unfold NB_ARMS; simpl INR; nra).
    cbn [fmul np_sqrt]. change (INR 0) with 0.
    replace (0 / 2 * ln (2 * INR NB_ARMS * INR (length all_data) ^ 2)) with 0
      by (unfold Rdiv; ring).
    rewrite Rltb_false by lra. rewrite sqrt_0, fgt_Fin.
    replace (0 - np_sum (firstn t all_data)) with (- np_sum (firstn t all_data)) by ring.
    rewrite Rabs_Ropp. split.
    + intros H E. rewrite E, Rabs_R0 in H. lra.
    + intros H. apply Rabs_pos_lt, H.
  - unfold Monitored. rewrite firstn_nil.
    change (Nat.ltb (length (@nil R)) 0) with false. cbv iota.
    change (INR (length (@nil R))) with 0. change (INR 0) with 0.
    replace (2 * INR NB_ARMS * 0 ^ 2) with 0 by ring.
    unfold np_log. rewrite Rltb_false by lra. rewrite Reqb_true by reflexivity.
    cbn [fmul]. rewrite !Rltb_false by lra. reflexivity.
Qed.

Lemma Monitored_window_of_size_zero_witness :
  ([1; -1; 1] <> [] ->
   (Monitored [1; -1; 1] 2 0 None = true <-> np_sum (firstn 2 [1; -1; 1]) <> 0)) /\
  Monitored [] 2 0 None = false.
Proof.
  apply (Monitored_window_of_size_zero [1; -1; 1] 2).
Defined.

(** ** The measures of a test *)

Lemma range_nil (a b : Z) : (b <= a)%Z -> range a b = [].
Proof.
  intros H. unfold range. replace (Z.to_nat (b - a)) with 0%nat by lia. reflexivity.
Qed.

Lemma range_cons (a b : Z) : (a < b)%Z -> range a b = a :: range (a + 1) b.
Proof.
  intros H. unfold range.
  replace (Z.to_nat (b - a)) with (S (Z.to_nat (b - (a + 1)))) by lia.
  cbn [seq map]. f_equal; [lia|].
  rewrite <- seq_shift, map_map. apply map_ext. intros i. lia.
Qed.

Lemma first_answer_range (CD : CDAlgorithm) (data : list R) (n : nat) :
  forall a b, Z.to_nat (b - a) = n ->
  match first_answer CD data (range a b) with
  | None => forall t, (a <= t < b)%Z -> CD data t = Some false
  | Some (t, r) =>
      (a <= t < b)%Z /\ CD data t = r /\ r <> Some false /\
      forall t', (a <= t' < t)%Z -> CD data t' = Some false
  end.
Proof.
  induction n as [|n IH]; intros a b Hn.
  - rewrite range_nil by lia. cbn [first_answer]. intros t Ht. lia.
  - rewrite range_cons by lia. cbn [first_answer].
    specialize (IH (a + 1)%Z b ltac:(lia)).
    destruct (CD data a) as [[|]|] eqn:E.
    + repeat split; try lia; try exact E; discriminate.
    + destruct (first_answer CD data (range (a + 1) b)) as [[t r]|].
      * destruct IH as (Ht & Hr & Hne & Hbefore).
        repeat split; try lia; try assumption.
        intros t' Ht'. destruct (Z.eq_dec t' a) as [->|Hneq]; [exact E|].
        apply Hbefore. lia.
      * intros t Ht. destruct (Z.eq_dec t a) as [->|Hneq]; [exact E|].
        apply IH. lia.
    + repeat split; try lia; try exact E; discriminate.
Qed.

Lemma first_answer_spec (CD : CDAlgorithm) (data : list R) (a b : Z) :
  match first_answer CD data (range a b) with
  | None => forall t, (a <= t < b)%Z -> CD data t = Some false
  | Some (t, r) =>
      (a <= t < b)%Z /\ CD data t = r /\ r <> Some false /\
      forall t', (a <= t' < t)%Z -> CD data t' = Some false
  end.
Proof. apply (first_answer_range CD data (Z.to_nat (b - a))). reflexivity. Qed.

(** The first time that is not answered by no is the only such time. *)
Lemma first_answer_unique (CD : CDAlgorithm) (data : list R) (a b t : Z) :
  (a <= t < b)%Z -> CD data t <> Some false ->
  (forall t', (a <= t' < t)%Z -> CD data t' = Some false) ->
  first_answer CD data (range a b) = Some (t, CD data t).
Proof.
  intros Ht Hne Hbefore. pose proof (first_answer_spec CD data a b) as H.
  destruct (first_answer CD data (range a b)) as [[t0 r]|].
  - destruct H as (Ht0 & Hr & Hne0 & Hbefore0).
    destruct (Z.lt_trichotomy t t0) as [Hlt|[->|Hgt]].
    + exfalso. apply Hne, Hbefore0. lia.
    + rewrite Hr. reflexivity.
    + exfalso. apply Hne0. rewrite <- Hr. apply Hbefore. lia.
  - exfalso. apply Hne, H, Ht.
Qed.

Lemma detection_delay_loop_first (CD : CDAlgorithm) (data : list R)
    (tau horizon : Z) (ts : list Z) :
  detection_delay_loop CD data tau horizon ts =
  match first_answer CD data ts with
  | None => Some (horizon - tau)%Z
  | Some (t, Some true) => Some (t - tau)%Z
  | Some (t, _) => None
  end.
Proof.
  induction ts as [|t ts IH]; [reflexivity|]. cbn [detection_delay_loop first_answer].
  destruct (CD data t) as [[|]|]; [reflexivity | exact IH | reflexivity].
Qed.

Lemma false_alarm_loop_first (CD : CDAlgorithm) (data : list R) (ts : list Z) :
  false_alarm_loop CD data ts =
  match first_answer CD data ts with
  | None => Some false
  | Some (t, Some true) => Some true
  | Some (t, _) => None
  end.
Proof.
  induction ts as [|t ts IH]; [reflexivity|]. cbn [false_alarm_loop first_answer].
  destruct (CD data t) as [[|]|]; [reflexivity | exact IH | reflexivity].
Qed.

Lemma missed_detection_loop_first (CD : CDAlgorithm) (data : list R) (ts : list Z) :
  missed_detection_loop CD data ts =
  match first_answer CD data ts with
  | None => Some true
  | Some (t, Some true) => Some false
  | Some (t, _) => None
  end.
Proof.
  induction ts as [|t ts IH]; [reflexivity|]. cbn [missed_detection_loop first_answer].
  destruct (CD data t) as [[|]|]; [reflexivity | exact IH | reflexivity].
Qed.

(** X18: when the test raises at no time from [tau] to the horizon,
    [detection_delay] returns [t - tau] for the first time [t] of
    [tau .. horizon] at which the test answers yes, and
    [horizon - tau] when there is none: the delay of a test that never
    answers yes is that of a test that answers yes at the horizon. *)
Theorem detection_delay_first_detection (data : list R) (tau : ChangePoint)
    (CD : CDAlgorithm) :
  (forall t, (tau_of tau (length data) <= t <= Z.of_nat (length data))%Z ->
     CD data t <> None) ->
  exists d,
    detection_delay data tau CD = Some d /\
    ((exists t,
        (tau_of tau (length data) <= t <= Z.of_nat (length data))%Z /\
        d = (t - tau_of tau (length data))%Z /\
        CD data t = Some true /\
        forall t', (tau_of tau (length data) <= t' < t)%Z ->
          CD data t' = Some false) \/
     (d = (Z.of_nat (length data) - tau_of tau (length data))%Z /\
      forall t, (tau_of tau (length data) <= t <= Z.of_nat (length data))%Z ->
        CD data t = Some false)).
Proof.
  intros Hsafe. unfold detection_delay. cbv zeta.
  set (h := Z.of_nat (length data)) in *.
  set (tau' := tau_of tau (length data)) in *.
  rewrite detection_delay_loop_first.
  pose proof (first_answer_spec CD data tau' (h + 1)) as H.
  destruct (first_answer CD data (range tau' (h + 1))) as [[t r]|].
  - destruct H as (Ht & Hr & Hne & Hbefore).
    destruct r as [[|]|].
    + eexists. split; [reflexivity|]. left. exists t.
      repeat split; try lia; assumption.
    + congruence.
    + exfalso. apply (Hsafe t); [lia | exact Hr].
  - eexists. split; [reflexivity|]. right. split; [reflexivity|].
    intros t Ht. apply H. lia.
Qed.

Lemma detection_delay_first_detection_witness :
  exists d,
    detection_delay [0; 1; 1] (TauInt 1) (fun _ t => Some (2 <=? t)%Z) = Some d /\
    ((exists t,
        (tau_of (TauInt 1) (length [0; 1; 1]) <= t <= Z.of_nat (length [0; 1; 1]))%Z /\
        d = (t - tau_of (TauInt 1) (length [0; 1; 1]))%Z /\
        (fun (_ : list R) t => Some (2 <=? t)%Z) [0; 1; 1] t = Some true /\
        forall t', (tau_of (TauInt 1) (length [0; 1; 1]) <= t' < t)%Z ->
          (fun (_ : list R) t => Some (2 <=? t)%Z) [0; 1; 1] t' = Some false) \/
     (d = (Z.of_nat (length [0; 1; 1]) - tau_of (TauInt 1) (length [0; 1; 1]))%Z /\
      forall t, (tau_of (TauInt 1) (length [0; 1; 1]) <= t <= Z.of_nat (length [0; 1; 1]))%Z ->
        (fun (_ : list R) t => Some (2 <=? t)%Z) [0; 1; 1] t = Some false)).
Proof.
  apply (detection_delay_first_detection [0; 1; 1] (TauInt 1)
           (fun _ t => Some (2 <=? t)%Z)).
  intros t _. discriminate.
Defined.

(** X19: [missed_detection] and [detection_delay] read the same times.
    When the one raises, so does the other; a missed detection has the
    delay [horizon - tau]; a detection has a delay from 0 to
    [horizon - tau]. When [tau] is after the horizon no time is read:
    the detection is missed and the delay is negative. *)
Theorem missed_detection_and_delay (data : list R) (tau : ChangePoint)
    (CD : CDAlgorithm) :
  match missed_detection data tau CD with
  | None => detection_delay data tau CD = None
  | Some true =>
      detection_delay data tau CD
      = Some (Z.of_nat (length data) - tau_of tau (length data))%Z
  | Some false =>
      exists d, detection_delay data tau CD = Some d /\
        (0 <= d <= Z.of_nat (length data) - tau_of tau (length data))%Z
  end /\
  ((Z.of_nat (length data) < tau_of tau (length data))%Z ->
   missed_detection data tau CD = Some true).
Proof.
  unfold missed_detection, detection_delay. cbv zeta.
  set (h := Z.of_nat (length data)) in *.
  set (tau' := tau_of tau (length data)) in *.
  rewrite missed_detection_loop_first, detection_delay_loop_first.
  split.
  - pose proof (first_answer_spec CD data tau' (h + 1)) as H.
    destruct (first_answer CD data (range tau' (h + 1))) as [[t r]|].
    + destruct H as (Ht & Hr & Hne & Hbefore).
      destruct r as [[|]|]; [|reflexivity|reflexivity].
      eexists. split; [reflexivity|]. lia.
    + reflexivity.
  - intros Hlate. rewrite range_nil by lia. reflexivity.
Qed.

Lemma missed_detection_and_delay_witness :
  match missed_detection [0; 1] (TauInt 5) (fun _ _ => None) with
  | None => detection_delay [0; 1] (TauInt 5) (fun _ _ => None) = None
  | Some true =>
      detection_delay [0; 1] (TauInt 5) (fun _ _ => None)
      = Some (Z.of_nat (length [0; 1]) - tau_of (TauInt 5) (length [0; 1]))%Z
  | Some false =>
      exists d, detection_delay [0; 1] (TauInt 5) (fun _ _ => None) = Some d /\
        (0 <= d <= Z.of_nat (length [0; 1]) - tau_of (TauInt 5) (length [0; 1]))%Z
  end /\
  ((Z.of_nat (length [0; 1]) < tau_of (TauInt 5) (length [0; 1]))%Z ->
   missed_detection [0; 1] (TauInt 5) (fun _ _ => None) = Some true).
Proof.
  apply (missed_detection_and_delay [0; 1] (TauInt 5) (fun _ _ => None)).
Defined.

Lemma false_alarm_all_no (data : list R) (tau : ChangePoint) (CD : CDAlgorithm) :
  (forall t, (0 <= t < tau_of tau (length data))%Z -> CD data t = Some false) ->
  false_alarm data tau CD = Some false.
Proof.
  intros Hall. unfold false_alarm. cbv zeta. rewrite false_alarm_loop_first.
  pose proof (first_answer_spec CD data 0 (tau_of tau (length data))) as H.
  destruct (first_answer CD data _) as [[t r]|]; [|reflexivity].
  destruct H as (Ht & Hr & Hne & Hbefore).
  exfalso. apply Hne. rewrite <- Hr. apply Hall, Ht.
Qed.

(** X20: [false_alarm] answers yes exactly when the test answers yes at
    a time of [0 .. tau - 1] and no at the times before it, and answers no
    exactly when the test answers no at every time of [0 .. tau - 1]; so
    for [tau <= 0] it answers no without calling the test. *)
Theorem false_alarm_first_detection (data : list R) (tau : ChangePoint)
    (CD : CDAlgorithm) :
  (false_alarm data tau CD = Some true <->
   exists t, (0 <= t < tau_of tau (length data))%Z /\
     CD data t = Some true /\
     forall t', (0 <= t' < t)%Z -> CD data t' = Some false) /\
  (false_alarm data tau CD = Some false <->
   forall t, (0 <= t < tau_of tau (length data))%Z -> CD data t = Some false).
Proof.
  unfold false_alarm. cbv zeta.
  set (tau' := tau_of tau (length data)) in *.
  rewrite false_alarm_loop_first.
  pose proof (first_answer_spec CD data 0 tau') as H.
  split; split.
  - destruct (first_answer CD data (range 0 tau')) as [[t r]|]; [|discriminate].
    destruct H as (Ht & Hr & Hne & Hbefore).
    destruct r as [[|]|]; try discriminate.
    intros _. exists t. repeat split; try lia; assumption.
  - intros (t & Ht & Hyes & Hbefore).
    rewrite (first_answer_unique CD data 0 tau' t Ht); [|congruence|exact Hbefore].
    rewrite Hyes. reflexivity.
  - destruct (first_answer CD data (range 0 tau')) as [[t r]|].
    + destruct r as [[|]|]; discriminate.
    + intros _. exact H.
  - intros Hall. rewrite <- false_alarm_loop_first.
    apply (false_alarm_all_no data tau CD Hall).
Qed.

Lemma false_alarm_first_detection_witness :
  (false_alarm [0; 1; 1] (TauInt 3) (fun _ t => Some (2 <=? t)%Z) = Some true <->
   exists t, (0 <= t < tau_of (TauInt 3) (length [0; 1; 1]))%Z /\
     (fun (_ : list R) t => Some (2 <=? t)%Z) [0; 1; 1] t = Some true /\
     forall t', (0 <= t' < t)%Z ->
       (fun (_ : list R) t => Some (2 <=? t)%Z) [0; 1; 1] t' = Some false) /\
  (false_alarm [0; 1; 1] (TauInt 3) (fun _ t => Some (2 <=? t)%Z) = Some false <->
   forall t, (0 <= t < tau_of (TauInt 3) (length [0; 1; 1]))%Z ->
     (fun (_ : list R) t => Some (2 <=? t)%Z) [0; 1; 1] t = Some false).
Proof.
  apply (false_alarm_first_detection [0; 1; 1] (TauInt 3)
           (fun _ t => Some (2 <=? t)%Z)).
Defined.

(** ** The measures of [Monitored] and of [CUSUM] *)

Lemma Monitored_before_window (all_data : list R) (t w : nat)
    (threshold_b : option fval) :
  (t < w)%nat \/ (length all_data < w)%nat ->
  Monitored all_data t w threshold_b = false.
Proof.
  intros H. unfold Monitored.
  destruct (Nat.ltb_spec (length (firstn t all_data)) w) as [_|Hge]; [reflexivity|].
  rewrite length_firstn in Hge. lia.
Qed.

Lemma CUSUM_before_M (all_data : list R) (t : nat) (epsilon : R) (M : nat) :
  (t <= M + 1)%nat \/ (length all_data <= M + 1)%nat ->
  epsilon <> 1 -> epsilon <> -1 ->
  CUSUM all_data t epsilon M None = Some false.
Proof.
  intros Ht H1 H2. unfold CUSUM, CUSUM_run.
  destruct (default_threshold_h (length all_data) epsilon M None) as [h|] eqn:E.
  - cbn [option_map]. rewrite CUSUM_loop_skips; [reflexivity|].
    rewrite length_firstn. lia.
  - apply default_threshold_h_raises in E. destruct E; contradiction.
Qed.

(** X21: [Monitored] answers no until its window is full, so with a
    window of size [w] it gives no false alarm for a change point
    [tau <= w], and, for [0 <= tau <= horizon], its detection delay is at
    least [min(w, horizon) - tau]. *)
Theorem Monitored_measures (data : list R) (tau : ChangePoint)
    (CD : CDAlgorithm) (w : nat) (threshold_b : option fval) :
  (forall t, (0 <= t)%Z ->
     CD data t = Some (Monitored data (Z.to_nat t) w threshold_b)) ->
  ((tau_of tau (length data) <= Z.of_nat w)%Z ->
   false_alarm data tau CD = Some false) /\
  ((0 <= tau_of tau (length data) <= Z.of_nat (length data))%Z ->
   exists d, detection_delay data tau CD = Some d /\
     (Z.of_nat (Nat.min w (length data)) - tau_of tau (length data) <= d)%Z).
Proof.
  intros HCD. split.
  - intros Htau. apply false_alarm_all_no. intros t Ht.
    rewrite HCD by lia. f_equal. apply Monitored_before_window. left. lia.
  - intros Htau. unfold detection_delay. cbv zeta.
    set (h := Z.of_nat (length data)) in *.
    set (tau' := tau_of tau (length data)) in *.
    rewrite detection_delay_loop_first.
    pose proof (first_answer_spec CD data tau' (h + 1)) as H.
    destruct (first_answer CD data (range tau' (h + 1))) as [[t r]|].
    + destruct H as (Ht & Hr & Hne & Hbefore).
      rewrite HCD in Hr by lia. subst r.
      destruct (Monitored data (Z.to_nat t) w threshold_b) eqn:E; [|congruence].
      eexists. split; [reflexivity|].
      destruct (le_lt_dec w (Z.to_nat t)) as [Hw|Hw]; [lia|].
      rewrite Monitored_before_window in E by (left; exact Hw). discriminate.
    + eexists. split; [reflexivity|]. lia.
Qed.

Lemma Monitored_measures_witness :
  ((tau_of (TauInt 1) (length [0; 0; 1; 1]) <= Z.of_nat 2)%Z ->
   false_alarm [0; 0; 1; 1] (TauInt 1)
     (fun data t => Some (Monitored data (Z.to_nat t) 2 None)) = Some false) /\
  ((0 <= tau_of (TauInt 1) (length [0; 0; 1; 1]) <= Z.of_nat (length [0; 0; 1; 1]))%Z ->
   exists d,
     detection_delay [0; 0; 1; 1] (TauInt 1)
       (fun data t => Some (Monitored data (Z.to_nat t) 2 None)) = Some d /\
     (Z.of_nat (Nat.min 2 (length [0; 0; 1; 1])) - tau_of (TauInt 1) (length [0; 0; 1; 1])
      <= d)%Z).
Proof.
  apply (Monitored_measures [0; 0; 1; 1] (TauInt 1)
           (fun data t => Some (Monitored data (Z.to_nat t) 2 None)) 2 None).
  intros t _. reflexivity.
Defined.

(** X22: on a stream of at most [M + 1] samples, [CUSUM] with the
    threshold of the default (for [epsilon] other than 1 and -1) answers
    no at every time, so for a change point [tau >= 0] the measures see
    no false alarm, a missed detection and the delay [horizon - tau].
    With the [M = 100] of the default this is every stream of at most
    101 samples. *)
Theorem CUSUM_measures_on_short_streams (data : list R) (tau : ChangePoint)
    (CD : CDAlgorithm) (epsilon : R) (M : nat) :
  (forall t, (0 <= t)%Z -> CD data t = CUSUM data (Z.to_nat t) epsilon M None) ->
  epsilon <> 1 -> epsilon <> -1 ->
  (length data <= M + 1)%nat ->
  (0 <= tau_of tau (length data))%Z ->
  false_alarm data tau CD = Some false /\
  missed_detection data tau CD = Some true /\
  detection_delay data tau CD
  = Some (Z.of_nat (length data) - tau_of tau (length data))%Z.
Proof.
  intros HCD H1 H2 Hlen Htau.
  assert (Hno : forall t, (0 <= t)%Z -> CD data t = Some false).
  { intros t Ht. rewrite HCD by exact Ht. apply CUSUM_before_M; auto. }
  split; [|split].
  - apply false_alarm_all_no. intros t Ht. apply Hno. lia.
  - unfold missed_detection. cbv zeta. rewrite missed_detection_loop_first.
    pose proof (first_answer_spec CD data (tau_of tau (length data))
                  (Z.of_nat (length data) + 1)) as H.
    destruct (first_answer CD data _) as [[t r]|]; [|reflexivity].
    destruct H as (Ht & Hr & Hne & _). exfalso. apply Hne.
    rewrite <- Hr. apply Hno. lia.
  - unfold detection_delay. cbv zeta. rewrite detection_delay_loop_first.
    pose proof (first_answer_spec CD data (tau_of tau (length data))
                  (Z.of_nat (length data) + 1)) as H.
    destruct (first_answer CD data _) as [[t r]|]; [|reflexivity].
    destruct H as (Ht & Hr & Hne & _). exfalso. apply Hne.
    rewrite <- Hr. apply Hno. lia.
Qed.

Lemma CUSUM_measures_on_short_streams_witness :
  false_alarm [0; 0; 1; 1] (TauInt 2)
    (fun data t => CUSUM data (Z.to_nat t) EPSILON
                     MIN_NUMBER_OF_OBSERVATION_BETWEEN_CHANGE_POINT None)
  = Some false /\
  missed_detection [0; 0; 1; 1] (TauInt 2)
    (fun data t => CUSUM data (Z.to_nat t) EPSILON
                     MIN_NUMBER_OF_OBSERVATION_BETWEEN_CHANGE_POINT None)
  = Some true /\
  detection_delay [0; 0; 1; 1] (TauInt 2)
    (fun data t => CUSUM data (Z.to_nat t) EPSILON
                     MIN_NUMBER_OF_OBSERVATION_BETWEEN_CHANGE_POINT None)
  = Some (Z.of_nat (length [0; 0; 1; 1]) - tau_of (TauInt 2) (length [0; 0; 1; 1]))%Z.
Proof.
  apply (CUSUM_measures_on_short_streams [0; 0; 1; 1] (TauInt 2)
           (fun data t => CUSUM data (Z.to_nat t) EPSILON
                            MIN_NUMBER_OF_OBSERVATION_BETWEEN_CHANGE_POINT None)
           EPSILON MIN_NUMBER_OF_OBSERVATION_BETWEEN_CHANGE_POINT).
  - intros t _. reflexivity.
  - unfold EPSILON. lra.
  - unfold EPSILON. lra.
  - unfold MIN_NUMBER_OF_OBSERVATION_BETWEEN_CHANGE_POINT. simpl. lia.
  - simpl. lia.
Defined.

(** ** Instances of the lemmas on the constant streams and the thresholds *)

Lemma PHT_constant_stream_witness :
  2%nat <> 1%nat /\
  PHT_run (repeat 1 2) 1 EPSILON 3 None = Some (false, (0, 0)).
Proof.
  split; [lia|]. apply (PHT_constant_stream 1 2 1 3). lia.
Defined.

(** ** Piece-wise stationary problems *)

Section History.

Variable means : list (list R).
Variable cps : list Z.
Variable nbArms : nat.

(** The change points after the first are not negative and increase,
    and every segment has a mean for every arm. *)
Hypothesis cps_nonneg : (1 < length cps)%nat -> (0 <= nth 1 cps 0)%Z.
Hypothesis cps_increasing :
  forall i j, (1 <= i)%nat -> (i < j)%nat -> (j < length cps)%nat ->
    (nth i cps 0 < nth j cps 0)%Z.
Hypothesis means_enough : (Nat.max 1 (length cps) <= length means)%nat.
Hypothesis means_wide :
  forall row, In row means -> (nbArms <= length row)%nat.

Lemma segment_unique (nb j : nat) (t : Z) :
  segment_of cps nb t -> segment_of cps j t -> nb = j.
Proof.
  intros [[H0|[Hlt Hle]] Hnext] [[J0|[Jlt Jle]] Jnext].
  - congruence.
  - subst nb. destruct (Nat.eq_dec j 0) as [->|Hj]; [reflexivity|]. exfalso.
    specialize (Hnext ltac:(simpl; lia)). simpl in Hnext.
    destruct (Nat.eq_dec j 1) as [->|Hj1]; [lia|].
    pose proof (cps_increasing 1 j ltac:(lia) ltac:(lia) Jlt). lia.
  - subst j. destruct (Nat.eq_dec nb 0) as [->|Hn]; [reflexivity|]. exfalso.
    specialize (Jnext ltac:(simpl; lia)). simpl in Jnext.
    destruct (Nat.eq_dec nb 1) as [->|Hn1]; [lia|].
    pose proof (cps_increasing 1 nb ltac:(lia) ltac:(lia) Hlt). lia.
  - destruct (Nat.lt_trichotomy nb j) as [Hlt'|[E|Hgt]]; [|exact E|]; exfalso.
    + specialize (Hnext ltac:(lia)).
      destruct (Nat.eq_dec (nb + 1) j) as [<-|Hne]; [lia|].
      destruct (Nat.eq_dec nb 0) as [->|Hn].
      * pose proof (cps_increasing 1 j ltac:(lia) ltac:(lia) Jlt).
        simpl in Hnext. lia.
      * pose proof (cps_increasing (nb + 1) j ltac:(lia) ltac:(lia) Jlt). lia.
    + specialize (Jnext ltac:(lia)).
      destruct (Nat.eq_dec (j + 1) nb) as [<-|Hne]; [lia|].
      destruct (Nat.eq_dec j 0) as [->|Hj].
      * pose proof (cps_increasing 1 nb ltac:(lia) ltac:(lia) Hlt).
        simpl in Jnext. lia.
      * pose proof (cps_increasing (j + 1) nb ltac:(lia) ltac:(lia) Hlt). lia.
Qed.

(** One time step moves the counter to the segment of the time. *)
Lemma counter_step (nb : nat) (t : nat) :
  segment_of cps nb (Z.of_nat t - 1) ->
  segment_of cps
    (if (Z.of_nat nb <? Z.of_nat (length cps) - 1)%Z
        && (nth (nb + 1) cps 0 <=? Z.of_nat t)%Z
     then (nb + 1)%nat else nb) (Z.of_nat t).
Proof.
  intros [Hpassed Hnext].
  destruct (Z.ltb_spec (Z.of_nat nb) (Z.of_nat (length cps) - 1)) as [Hin|Hout];
    cbn [andb].
  - destruct (Z.leb_spec (nth (nb + 1) cps 0%Z) (Z.of_nat t)) as [Hle|Hgt].
    + split.
      * right. split; [lia | exact Hle].
      * intros Hlen. specialize (Hnext ltac:(lia)).
        pose proof (cps_increasing (nb + 1) (nb + 1 + 1)
                      ltac:(lia) ltac:(lia) Hlen). lia.
    + split.
      * destruct Hpassed as [H0|[Hlt Hle]]; [left; exact H0 | right; split; [exact Hlt | lia]].
      * intros _. exact Hgt.
  - split.
    + destruct Hpassed as [H0|[Hlt Hle]]; [left; exact H0 | right; split; [exact Hlt | lia]].
    + intros Hlen. lia.
Qed.

Lemma segment_in_range (nb : nat) (t : Z) :
  segment_of cps nb t -> (nb < Nat.max 1 (length cps))%nat.
Proof. intros [[->|[Hlt _]] _]; lia. Qed.

Lemma means_of_arm_run (armId : nat) (n : nat) :
  (armId < nbArms)%nat ->
  forall (start nb : nat),
    segment_of cps nb (Z.of_nat start - 1) ->
    exists row,
      means_of_arm means cps armId nb (seq start n) = Returns row /\
      length row = n /\
      forall i j, (i < n)%nat -> segment_of cps j (Z.of_nat (start + i)) ->
        exists m, nth_error means j = Some m /\
                  nth_error row i = nth_error m armId /\
                  nth_error m armId <> None.
Proof.
  intros Harm. induction n as [|n IH]; intros start nb Hseg.
  - exists []. split; [reflexivity|]. split; [reflexivity|]. intros i j Hi. lia.
  - cbn [seq means_of_arm].
    pose proof (counter_step nb start Hseg) as Hnow.
    set (nb' := if (Z.of_nat nb <? Z.of_nat (length cps) - 1)%Z
                   && (nth (nb + 1) cps 0 <=? Z.of_nat start)%Z
                then (nb + 1)%nat else nb) in *.
    pose proof (segment_in_range nb' _ Hnow) as Hrange.
    destruct (nth_error means nb') as [m|] eqn:Em.
    2:{ apply nth_error_None in Em. lia. }
    destruct (nth_error m armId) as [x|] eqn:Ex.
    2:{ apply nth_error_None in Ex.
        pose proof (means_wide m (nth_error_In _ _ Em)). lia. }
    destruct (IH (S start) nb') as (row & Hrun & Hlen & Hrow).
    { replace (Z.of_nat (S start) - 1)%Z with (Z.of_nat start) by lia. exact Hnow. }
    rewrite Hrun. exists (x :: row). split; [reflexivity|].
    split; [simpl; lia|].
    intros i j Hi Hj. destruct i as [|i].
    + rewrite Nat.add_0_r in Hj.
      rewrite <- (segment_unique nb' j _ Hnow Hj).
      exists m. split; [exact Em|]. split; [simpl; symmetry; exact Ex | congruence].
    + cbn [nth_error]. apply (Hrow i j); [lia|].
      replace (S start + i)%nat with (start + S i)%nat by lia. exact Hj.
Qed.

Lemma means_of_arms_run (horizon : nat) (n : nat) :
  forall start, (start + n <= nbArms)%nat ->
    exists rows,
      means_of_arms means cps horizon (seq start n) = Returns rows /\
      length rows = n /\
      (forall row, In row rows -> length row = horizon) /\
      forall a t j, (a < n)%nat -> (t < horizon)%nat ->
        segment_of cps j (Z.of_nat t) ->
        exists m x, nth_error means j = Some m /\
                    nth_error m (start + a) = Some x /\
                    mean_at rows a t = Some x.
Proof.
  induction n as [|n IH]; intros start Hn.
  - exists []. split; [reflexivity|]. split; [reflexivity|].
    split; [intros row []|]. intros a t j Ha. lia.
  - cbn [seq means_of_arms].
    destruct (means_of_arm_run start horizon ltac:(lia) 0%nat 0%nat)
      as (row & Hrun & Hlen & Hrow).
    { split; [left; reflexivity|]. intros H1. simpl.
      pose proof (cps_nonneg ltac:(simpl in H1; lia)). simpl. lia. }
    rewrite Hrun.
    destruct (IH (S start) ltac:(lia)) as (rows & Hruns & Hlens & Hall & Hrows).
    rewrite Hruns. exists (row :: rows). split; [reflexivity|].
    split; [simpl; lia|]. split.
    + intros r [<-|Hr]; [exact Hlen | apply Hall, Hr].
    + intros a t j Ha Ht Hj. destruct a as [|a].
      * rewrite Nat.add_0_r. destruct (Hrow t j Ht Hj) as (m & Em & Erow & Hsome).
        destruct (nth_error m start) as [x|] eqn:Ex; [|congruence].
        exists m, x. repeat split; auto.
      * destruct (Hrows a t j ltac:(lia) Ht Hj) as (m & x & Em & Ex & Hat).
        exists m, x. split; [exact Em|]. split; [|exact Hat].
        replace (start + S a)%nat with (S start + a)%nat by lia. exact Ex.
Qed.

End History.

(** X23: for a horizon [T >= 0] and a problem whose change points after
    the first are not negative and increase, with a mean for every arm
    in every segment, [getFullHistoryOfMeans] returns [nbArms] rows of
    length [T], and the entry of the arm [a] at the time [t] is
    [listOfMeans[j][a]] for the segment [j] of [t]: the last change
    point [changePoints[j] <= t], the first segment beginning at the
    time 0 whatever [changePoints[0]] is. *)
Theorem getFullHistoryOfMeans_segments (problem : option Z -> Problem)
    (T : nat) (means0 : list R) (means : list (list R)) (cps : list Z) :
  problem (Some (Z.of_nat T)) = mkProblem (means0 :: means) cps ->
  ((1 < length cps)%nat -> (0 <= nth 1 cps 0)%Z) ->
  (forall i j, (1 <= i)%nat -> (i < j)%nat -> (j < length cps)%nat ->
     (nth i cps 0 < nth j cps 0)%Z) ->
  (length cps <= length (means0 :: means))%nat ->
  (forall row, In row (means0 :: means) -> (length means0 <= length row)%nat) ->
  exists meansOfArms,
    getFullHistoryOfMeans problem (Some (Z.of_nat T)) = Returns meansOfArms /\
    length meansOfArms = length means0 /\
    (forall row, In row meansOfArms -> length row = T) /\
    forall a t j, (a < length means0)%nat -> (t < T)%nat ->
      segment_of cps j (Z.of_nat t) ->
      exists m x, nth_error (means0 :: means) j = Some m /\
                  nth_error m a = Some x /\
                  mean_at meansOfArms a t = Some x.
Proof.
  intros Hpb Hnonneg Hincr Henough Hwide.
  unfold getFullHistoryOfMeans. cbv zeta. rewrite Hpb. cbn [listOfMeans changePoints].
  destruct (Z.ltb_spec (Z.of_nat T) 0) as [Hneg|_]; [lia|].
  rewrite Nat2Z.id.
  assert (Hen : (Nat.max 1 (length cps) <= length (means0 :: means))%nat)
    by (cbn [length] in *; lia).
  destruct (means_of_arms_run (means0 :: means) cps (length means0)
              Hnonneg Hincr Hen Hwide T (length means0) 0%nat
              ltac:(lia))
    as (rows & Hrun & Hlen & Hall & Hrows).
  exists rows. split; [exact Hrun|]. split; [exact Hlen|]. split; [exact Hall|].
  intros a t j Ha Ht Hj. apply (Hrows a t j Ha Ht Hj).
Qed.

Lemma getFullHistoryOfMeans_segments_witness :
  exists meansOfArms,
    getFullHistoryOfMeans (fun _ => mkProblem [[0; 1]; [1; 0]] [0%Z; 2%Z])
      (Some (Z.of_nat 4)) = Returns meansOfArms /\
    length meansOfArms = length [0; 1] /\
    (forall row, In row meansOfArms -> length row = 4%nat) /\
    forall a t j, (a < length [0; 1])%nat -> (t < 4)%nat ->
      segment_of [0%Z; 2%Z] j (Z.of_nat t) ->
      exists m x, nth_error ([0; 1] :: [[1; 0]]) j = Some m /\
                  nth_error m a = Some x /\
                  mean_at meansOfArms a t = Some x.
Proof.
  apply (getFullHistoryOfMeans_segments
           (fun _ => mkProblem [[0; 1]; [1; 0]] [0%Z; 2%Z]) 4 [0; 1] [[1; 0]]
           [0%Z; 2%Z]).
  - reflexivity.
  - intros _. simpl. lia.
  - intros i j Hi Hij Hj. simpl in Hj. lia.
  - simpl. lia.
  - intros row [<-|[<-|[]]]; simpl; lia.
Defined.

(** ** The first change point *)

Lemma means_of_arm_first_change_point (means : list (list R)) (c c' : Z)
    (cps : list Z) (armId : nat) (ts : list nat) :
  forall nb,
    means_of_arm means (c :: cps) armId nb ts
    = means_of_arm means (c' :: cps) armId nb ts.
Proof.
  induction ts as [|t ts IH]; intros nb; [reflexivity|].
  cbn [means_of_arm length].
  replace (nth (nb + 1) (c :: cps) 0%Z) with (nth (nb + 1) (c' :: cps) 0%Z)
    by (rewrite Nat.add_1_r; reflexivity).
  destruct (nth_error means _) as [m|]; [|reflexivity].
  destruct (nth_error m armId); [|reflexivity].
  rewrite IH. reflexivity.
Qed.

Lemma means_of_arms_first_change_point (means : list (list R)) (c c' : Z)
    (cps : list Z) (horizon : nat) (armIds : list nat) :
  means_of_arms means (c :: cps) horizon armIds
  = means_of_arms means (c' :: cps) horizon armIds.
Proof.
  induction armIds as [|a armIds IH]; [reflexivity|].
  cbn [means_of_arms].
  rewrite (means_of_arm_first_change_point means c c').
  rewrite IH. reflexivity.
Qed.

(** X24: when the horizon is given, [getFullHistoryOfMeans] never reads
    [changePoints[0]]: two problems that differ only in their first
    change point have the same history of means, or raise the same
    exception. *)
Theorem getFullHistoryOfMeans_ignores_first_change_point
    (problem problem' : option Z -> Problem) (horizon : Z)
    (means : list (list R)) (c c' : Z) (cps : list Z) :
  problem (Some horizon) = mkProblem means (c :: cps) ->
  problem' (Some horizon) = mkProblem means (c' :: cps) ->
  getFullHistoryOfMeans problem (Some horizon)
  = getFullHistoryOfMeans problem' (Some horizon).
Proof.
  intros H H'. unfold getFullHistoryOfMeans. cbv zeta. rewrite H, H'.
  cbn [listOfMeans changePoints].
  destruct means as [|means0 means]; [reflexivity|].
  destruct (horizon <? 0)%Z; [reflexivity|].
  apply means_of_arms_first_change_point.
Qed.

Lemma getFullHistoryOfMeans_ignores_first_change_point_witness :
  getFullHistoryOfMeans (toy_problem_piecewise 0 1 2) (Some 4%Z)
  = getFullHistoryOfMeans (fun _ => mkProblem [[0]; [1]] [3%Z; 2%Z]) (Some 4%Z).
Proof.
  apply (getFullHistoryOfMeans_ignores_first_change_point
           (toy_problem_piecewise 0 1 2)
           (fun _ => mkProblem [[0]; [1]] [3%Z; 2%Z]) 4 [[0]; [1]] 0 3 [2%Z]);
    reflexivity.
Defined.

(** ** The toy problem *)

Lemma toy_row (firstMean secondMean : R) (tau : Z) (n : nat) :
  forall start nb,
    (nb = 0%nat /\ (Z.of_nat start <= tau)%Z) \/
    (nb = 1%nat /\ (tau < Z.of_nat start)%Z) ->
    means_of_arm [[firstMean]; [secondMean]] [0%Z; tau] 0 nb (seq start n)
    = Returns (map (fun t => if (Z.of_nat t <? tau)%Z then firstMean else secondMean)
                 (seq start n)).
Proof.
  induction n as [|n IH]; intros start nb Hnb; [reflexivity|].
  cbn [seq map means_of_arm length].
  change (Z.of_nat 2 - 1)%Z with 1%Z.
  destruct Hnb as [[-> Hle]|[-> Hlt]].
  - change (nth (0 + 1) [0%Z; tau] 0%Z) with tau.
    change (Z.of_nat 0 <? 1)%Z with true. cbn [andb].
    destruct (Z.leb_spec tau (Z.of_nat start)) as [Hpass|Hnot].
    + change (0 + 1)%nat with 1%nat. cbn [nth_error].
      rewrite (IH (S start) 1%nat) by (right; split; [reflexivity|lia]).
      destruct (Z.ltb_spec (Z.of_nat start) tau); [lia|]. reflexivity.
    + cbn [nth_error]. rewrite (IH (S start) 0%nat) by (left; split; [reflexivity|lia]).
      destruct (Z.ltb_spec (Z.of_nat start) tau); [|lia]. reflexivity.
  - change (Z.of_nat 1 <? 1)%Z with false. cbn [andb nth_error].
    rewrite (IH (S start) 1%nat) by (right; split; [reflexivity|lia]).
    destruct (Z.ltb_spec (Z.of_nat start) tau); [lia|]. reflexivity.
Qed.

(** X25: the history of means of the toy problem, for a change point
    [tau] of any sign and a horizon [T >= 0], is one row of length [T]:
    [firstMean] at the times [t < tau] and [secondMean] from [tau] on. *)
Theorem toy_problem_history (firstMean secondMean : R) (tau : Z) (T : nat) :
  getFullHistoryOfMeans (toy_problem_piecewise firstMean secondMean tau)
    (Some (Z.of_nat T))
  = Returns [map (fun t => if (Z.of_nat t <? tau)%Z then firstMean else secondMean)
               (seq 0 T)].
Proof.
  unfold getFullHistoryOfMeans, toy_problem_piecewise. cbv zeta.
  cbn [listOfMeans changePoints length seq].
  destruct (Z.ltb_spec (Z.of_nat T) 0) as [Hneg|_]; [lia|].
  rewrite Nat2Z.id. cbn [means_of_arms].
  destruct (Z.le_gt_cases 0 tau) as [Hpos|Hneg].
  - rewrite (toy_row firstMean secondMean tau T 0 0)
      by (left; split; [reflexivity | simpl; lia]).
    reflexivity.
  - destruct T as [|T]; [reflexivity|].
    cbn [seq map means_of_arm length].
    change (nth (0 + 1) [0%Z; tau] 0%Z) with tau.
    change (Z.of_nat 0 <? Z.of_nat 2 - 1)%Z with true. cbn [andb].
    destruct (Z.leb_spec tau (Z.of_nat 0)) as [_|Hgt]; [|simpl in Hgt; lia].
    change (0 + 1)%nat with 1%nat. cbn [nth_error].
    rewrite (toy_row firstMean secondMean tau T 1 1)
      by (right; split; [reflexivity | lia]).
    destruct (Z.ltb_spec (Z.of_nat 0) tau) as [Hlt|_]; [simpl in Hlt; lia|].
    reflexivity.
Qed.

(** ** The policy UCB-alpha *)

Lemma length_map2 {A B C : Type} (f : A -> B -> C) (a : list A) (b : list B) :
  length a = length b -> length (map2 f a b) = length a.
Proof.
  intros H. unfold map2. rewrite length_map, length_combine. lia.
Qed.

Lemma nth_error_combine {A B : Type} (a : list A) (b : list B) (i : nat) :
  nth_error (combine a b) i =
  match nth_error a i, nth_error b i with
  | Some x, Some y => Some (x, y)
  | _, _ => None
  end.
Proof.
  revert b i. induction a as [|x a IH]; intros b i.
  - destruct i; reflexivity.
  - destruct b as [|y b].
    + destruct i; cbn [combine nth_error]; [reflexivity|].
      destruct (nth_error a i); reflexivity.
    + destruct i; cbn [combine nth_error]; [reflexivity | apply IH].
Qed.

Lemma nth_error_map2 {A B C : Type} (f : A -> B -> C) (a : list A) (b : list B)
    (i : nat) (x : A) (y : B) :
  nth_error a i = Some x -> nth_error b i = Some y ->
  nth_error (map2 f a b) i = Some (f x y).
Proof.
  intros Ha Hb. unfold map2.
  rewrite nth_error_map, nth_error_combine, Ha, Hb. reflexivity.
Qed.

Lemma broadcast_same_length {A B C : Type} (f : A -> B -> C) (a : list A) (b : list B) :
  length a = length b -> broadcast f a b = Returns (map2 f a b).
Proof. intros H. unfold broadcast. rewrite H, Nat.eqb_refl. reflexivity. Qed.

Lemma set_where_same_length {A : Type} (mask : list bool) (v : A) (a : list A) :
  length mask = length a ->
  set_where mask v a = Returns (map2 (fun (m : bool) x => if m then v else x) mask a).
Proof. intros H. unfold set_where. rewrite H, Nat.eqb_refl. reflexivity. Qed.

(** What [computeAllIndex] gives when the two arrays have the same
    length: entry by entry. *)
Lemma computeAllIndex_entries (self : UCBalpha.policy) :
  length (UCBalpha.rewards self) = length (UCBalpha.pulls self) ->
  exists index,
    UCBalpha.computeAllIndex self = Returns index /\
    length index = length (UCBalpha.pulls self) /\
    forall arm n r,
      nth_error (UCBalpha.pulls self) arm = Some n ->
      nth_error (UCBalpha.rewards self) arm = Some r ->
      nth_error index arm =
      Some (if (n <? 1)%Z then PInf
            else fadd (fdiv (Fin r) (Fin (IZR n)))
                   (np_sqrt (fdiv (fmul (Fin (UCBalpha.alpha self))
                                        (np_log (IZR (UCBalpha.t self))))
                                  (Fin (IZR (2 * n)))))).
Proof.
  intros Hlen. unfold UCBalpha.computeAllIndex.
  rewrite broadcast_same_length by (rewrite !length_map; exact Hlen).
  cbv zeta.
  rewrite broadcast_same_length
    by (rewrite length_map2, !length_map by (rewrite !length_map; exact Hlen);
        exact Hlen).
  rewrite set_where_same_length
    by (rewrite !length_map2, !length_map;
        rewrite ?length_map2, ?length_map; auto;
        rewrite ?length_map; auto).
  eexists. split; [reflexivity|]. split.
  - rewrite length_map2, length_map; [reflexivity|].
    rewrite !length_map2, !length_map;
      rewrite ?length_map2, ?length_map; auto; rewrite ?length_map; auto.
  - intros arm n r Hn Hr.
    erewrite nth_error_map2; [reflexivity | |].
    + rewrite nth_error_map, Hn. reflexivity.
    + erewrite nth_error_map2; [reflexivity | |].
      * erewrite nth_error_map2; [reflexivity | |].
        -- rewrite nth_error_map, Hr. reflexivity.
        -- rewrite nth_error_map, Hn. reflexivity.
      * rewrite nth_error_map, Hn. reflexivity.
Qed.

Lemma IZR_pulls_pos (n : Z) : (1 <= n)%Z -> 1 <= IZR n /\ 2 <= IZR (2 * n).
Proof.
  intros H. split.
  - apply (IZR_le 1 n H).
  - apply (IZR_le 2 (2 * n)). lia.
Qed.

(** X26: from the time 1 on and for [alpha >= 0], with as many rewards
    as pulls, [computeAllIndex] returns one index per arm and
    [computeIndex] returns, for every arm, the index that
    [computeAllIndex] gives it: [+inf] for an arm with no pull, and the
    mean of the rewards plus [sqrt(alpha * log(t) / (2 * pulls))]
    otherwise. *)
Theorem UCBalpha_indexes_agree (self : UCBalpha.policy) :
  length (UCBalpha.rewards self) = length (UCBalpha.pulls self) ->
  (1 <= UCBalpha.t self)%Z ->
  0 <= UCBalpha.alpha self ->
  exists index,
    UCBalpha.computeAllIndex self = Returns index /\
    length index = length (UCBalpha.pulls self) /\
    forall arm n r,
      nth_error (UCBalpha.pulls self) arm = Some n ->
      nth_error (UCBalpha.rewards self) arm = Some r ->
      exists v,
        nth_error index arm = Some v /\
        UCBalpha.computeIndex self arm = Returns v /\
        v = (if (n <? 1)%Z then PInf
             else Fin (r / IZR n
                       + sqrt (UCBalpha.alpha self * ln (IZR (UCBalpha.t self))
                               / IZR (2 * n)))).
Proof.
  intros Hlen Ht Halpha.
  destruct (computeAllIndex_entries self Hlen) as (index & Hrun & Hlen' & Hentries).
  exists index. split; [exact Hrun|]. split; [exact Hlen'|].
  intros arm n r Hn Hr. rewrite (Hentries arm n r Hn Hr).
  unfold UCBalpha.computeIndex. rewrite Hn, Hr.
  destruct (Z.ltb_spec n 1) as [Hnone|Hsome].
  - eexists. repeat split.
  - destruct (Z.leb_spec (UCBalpha.t self) 0) as [Hbad|_]; [lia|].
    destruct (IZR_pulls_pos n Hsome) as [Hn1 Hn2].
    assert (HT : 1 <= IZR (UCBalpha.t self)) by (apply (IZR_le 1 _ Ht)).
    assert (Hx : 0 <= UCBalpha.alpha self * ln (IZR (UCBalpha.t self)) / IZR (2 * n)).
    { apply Rmult_le_pos.
      - apply Rmult_le_pos; [exact Halpha | apply ln_nonneg, HT].
      - left. apply Rinv_0_lt_compat. lra. }
    cbv zeta. rewrite (Rltb_false _ 0) by lra.
    rewrite np_log_pos by lra. cbn [fmul fdiv].
    rewrite !Reqb_false by lra. cbn [np_sqrt fadd].
    rewrite (Rltb_false _ 0) by lra. cbn [fadd].
    eexists. repeat split.
Qed.

Lemma UCBalpha_indexes_agree_witness :
  exists index,
    UCBalpha.computeAllIndex (UCBalpha.mkPolicy 4 3 [0%Z; 2%Z] [0; 1])
    = Returns index /\
    length index = length (UCBalpha.pulls (UCBalpha.mkPolicy 4 3 [0%Z; 2%Z] [0; 1])) /\
    forall arm n r,
      nth_error (UCBalpha.pulls (UCBalpha.mkPolicy 4 3 [0%Z; 2%Z] [0; 1])) arm = Some n ->
      nth_error (UCBalpha.rewards (UCBalpha.mkPolicy 4 3 [0%Z; 2%Z] [0; 1])) arm = Some r ->
      exists v,
        nth_error index arm = Some v /\
        UCBalpha.computeIndex (UCBalpha.mkPolicy 4 3 [0%Z; 2%Z] [0; 1]) arm = Returns v /\
        v = (if (n <? 1)%Z then PInf
             else Fin (r / IZR n
                       + sqrt (UCBalpha.alpha (UCBalpha.mkPolicy 4 3 [0%Z; 2%Z] [0; 1])
                               * ln (IZR (UCBalpha.t (UCBalpha.mkPolicy 4 3 [0%Z; 2%Z] [0; 1])))
                               / IZR (2 * n)))).
Proof.
  apply (UCBalpha_indexes_agree (UCBalpha.mkPolicy 4 3 [0%Z; 2%Z] [0; 1])).
  - reflexivity.
  - simpl. lia.
  - simpl. lra.
Defined.

(** X27: before the time 1 the two methods differ on an arm that has a
    pull: [computeIndex] raises [ValueError] (the [log] of [math] has no
    value at [t <= 0]), where [computeAllIndex] returns, with [nan] as
    the index of the arm, for [alpha >= 0]. *)
Theorem UCBalpha_indexes_differ_before_time_1 (self : UCBalpha.policy)
    (arm : nat) (n : Z) (r : R) :
  length (UCBalpha.rewards self) = length (UCBalpha.pulls self) ->
  (UCBalpha.t self <= 0)%Z ->
  0 <= UCBalpha.alpha self ->
  nth_error (UCBalpha.pulls self) arm = Some n ->
  (1 <= n)%Z ->
  nth_error (UCBalpha.rewards self) arm = Some r ->
  UCBalpha.computeIndex self arm = Raises E_ValueError /\
  exists index,
    UCBalpha.computeAllIndex self = Returns index /\
    nth_error index arm = Some NaN.
Proof.
  intros Hlen Ht Halpha Hn Hpos Hr. split.
  - unfold UCBalpha.computeIndex. rewrite Hn, Hr.
    destruct (Z.ltb_spec n 1) as [Hnone|_]; [lia|].
    destruct (Z.leb_spec (UCBalpha.t self) 0) as [_|Hbad]; [reflexivity | lia].
  - destruct (computeAllIndex_entries self Hlen) as (index & Hrun & _ & Hentries).
    exists index. split; [exact Hrun|]. rewrite (Hentries arm n r Hn Hr).
    destruct (Z.ltb_spec n 1) as [Hnone|_]; [lia|].
    destruct (IZR_pulls_pos n Hpos) as [Hn1 Hn2]. f_equal.
    assert (HT : IZR (UCBalpha.t self) <= 0) by (apply (IZR_le _ 0 Ht)).
    cbn [fdiv]. rewrite (Reqb_false (IZR n) 0) by lra.
    unfold np_log. rewrite Rltb_false by lra.
    destruct (Req_dec_T (IZR (UCBalpha.t self)) 0) as [E0|Hne].
    + rewrite (Reqb_true _ _ E0). cbn [fmul].
      destruct (Rlt_dec 0 (UCBalpha.alpha self)) as [Hpa|Hza].
      * rewrite (Rltb_true _ _ Hpa). cbn [fdiv].
        rewrite Rltb_false by lra. reflexivity.
      * rewrite (Rltb_false _ _ Hza). rewrite Rltb_false by lra. reflexivity.
    + rewrite (Reqb_false _ _ Hne). reflexivity.
Qed.

Lemma UCBalpha_indexes_differ_before_time_1_witness :
  UCBalpha.computeIndex (UCBalpha.mkPolicy 4 0 [0%Z; 2%Z] [0; 1]) 1
  = Raises E_ValueError /\
  exists index,
    UCBalpha.computeAllIndex (UCBalpha.mkPolicy 4 0 [0%Z; 2%Z] [0; 1]) = Returns index /\
    nth_error index 1 = Some NaN.
Proof.
  apply (UCBalpha_indexes_differ_before_time_1
           (UCBalpha.mkPolicy 4 0 [0%Z; 2%Z] [0; 1]) 1 2 1).
  - reflexivity.
  - simpl. lia.
  - simpl. lra.
  - reflexivity.
  - lia.
  - reflexivity.
Defined.

(** ** The accumulators of a simulation *)

Lemma np_index_lt (len : nat) (i : Z) (k : nat) :
  np_index len i = Some k -> (k < len)%nat.
Proof.
  unfold np_index.
  destruct ((0 <=? i)%Z && (i <? Z.of_nat len)%Z) eqn:E1.
  - apply andb_prop in E1. destruct E1 as [H1 H2].
    apply Z.leb_le in H1. apply Z.ltb_lt in H2. intros [= <-]. lia.
  - destruct ((- Z.of_nat len <=? i)%Z && (i <? 0)%Z) eqn:E2; [|discriminate].
    apply andb_prop in E2. destruct E2 as [H1 H2].
    apply Z.leb_le in H1. apply Z.ltb_lt in H2. intros [= <-]. lia.
Qed.

Lemma np_index_nonneg (len : nat) (i : Z) :
  (0 <= i)%Z ->
  np_index len i = if (i <? Z.of_nat len)%Z then Some (Z.to_nat i) else None.
Proof.
  intros H. unfold np_index.
  destruct (Z.leb_spec 0 i) as [_|F]; [|lia]. cbn [andb].
  destruct (Z.ltb_spec i (Z.of_nat len)); [reflexivity|].
  destruct (Z.ltb_spec i 0) as [F|_]; [lia|]. rewrite andb_false_r. reflexivity.
Qed.

Lemma init_inv (nbArms horizon delta : Z) (self : ResultClass.result) :
  ResultClass.__init__ nbArms horizon delta = Returns self ->
  delta <> 0%Z /\ (0 <= Z.quot horizon delta)%Z /\ (0 <= nbArms)%Z /\
  result_inv (Z.to_nat (Z.quot horizon delta)) (Z.to_nat nbArms) delta self /\
  ResultClass.pulls self = repeat 0%Z (Z.to_nat nbArms).
Proof.
  unfold ResultClass.__init__, np_zeros.
  destruct (Z.eqb_spec delta 0) as [E|Hne]; [discriminate|].
  cbv zeta.
  destruct (Z.ltb_spec (Z.quot horizon delta) 0) as [Hneg|Hpos]; [discriminate|].
  destruct (Z.ltb_spec nbArms 0) as [Hneg|Harms]; [discriminate|].
  intros [= <-]. split; [exact Hne|]. split; [exact Hpos|]. split; [exact Harms|].
  split; [|reflexivity].
  unfold result_inv. cbn. rewrite !repeat_length.
  repeat split.
  intros i x Hx.
  assert (Hi : (i < Z.to_nat (Z.quot horizon delta))%nat).
  { rewrite <- (repeat_length 0 (Z.to_nat (Z.quot horizon delta))).
    apply nth_error_Some. congruence. }
  apply nth_error_In, repeat_spec in Hx. subst x.
  rewrite nth_error_repeat by exact Hi. f_equal. ring.
Qed.

(** A call of [store] that returns keeps the shape and the squares, and
    adds 1 to the pulls of the arm of the choice. *)
Lemma store_step (duration nbArms : nat) (delta : Z) (self self' : ResultClass.result)
    (time choice : Z) (reward : R) :
  result_inv duration nbArms delta self ->
  ResultClass.store self time choice reward = (self', None) ->
  result_inv duration nbArms delta self' /\
  exists a, np_index nbArms choice = Some a /\
    ResultClass.pulls self'
    = list_update (ResultClass.pulls self) a (nth a (ResultClass.pulls self) 0 + 1)%Z.
Proof.
  intros (Hd & Hc & Hr & Hs & Hp & Hsq). unfold ResultClass.store.
  destruct (ResultClass.delta_t_save self =? 0)%Z; [discriminate|].
  cbv zeta. cbn [ResultClass.choices ResultClass.rewards ResultClass.rewardsSquared
                 ResultClass.pulls ResultClass.delta_t_save].
  rewrite Hc, Hr, Hs, Hp.
  destruct (np_index duration (Z.quot time (ResultClass.delta_t_save self)))
    as [k|] eqn:Ek; [|discriminate].
  destruct (np_index nbArms choice) as [a|] eqn:Ea; [|discriminate].
  intros [= <-]. split.
  - unfold result_inv.
    cbn [ResultClass.choices ResultClass.rewards ResultClass.rewardsSquared
         ResultClass.pulls ResultClass.delta_t_save].
    rewrite !list_update_length. repeat split; auto.
    intros i x Hx.
    pose proof (np_index_lt _ _ _ Ek) as Hk.
    destruct (Nat.eq_dec i k) as [->|Hne].
    + rewrite nth_error_list_update_eq in Hx by lia. inversion Hx; subst x.
      apply nth_error_list_update_eq. lia.
    + rewrite nth_error_list_update_neq in Hx by auto.
      rewrite nth_error_list_update_neq by auto. apply Hsq, Hx.
  - exists a. split; reflexivity.
Qed.

Lemma nth_list_update_eq {A : Type} (l : list A) (i : nat) (x d : A) :
  (i < length l)%nat -> nth i (list_update l i x) d = x.
Proof.
  intros H. apply nth_error_nth, nth_error_list_update_eq, H.
Qed.

Lemma nth_list_update_neq {A : Type} (l : list A) (i j : nat) (x d : A) :
  i <> j -> nth j (list_update l i x) d = nth j l d.
Proof.
  revert i j; induction l as [|y l IH]; intros [|i] [|j] H; simpl; auto; try lia.
Qed.

Lemma stores_of_cons (nbArms a : nat) (time choice : Z) (reward : R)
    (calls : list (Z * Z * R)) (a' : nat) :
  np_index nbArms choice = Some a' ->
  stores_of nbArms a ((time, choice, reward) :: calls)
  = ((if Nat.eqb a' a then 1 else 0) + stores_of nbArms a calls)%Z.
Proof.
  intros H. unfold stores_of. cbn [filter fst snd]. rewrite H.
  destruct (Nat.eqb a' a); cbn [length]; lia.
Qed.

Lemma store_all_counts (duration nbArms : nat) (delta : Z)
    (calls : list (Z * Z * R)) :
  forall self self',
    result_inv duration nbArms delta self ->
    ResultClass.store_all self calls = (self', None) ->
    result_inv duration nbArms delta self' /\
    forall a, (a < nbArms)%nat ->
      nth a (ResultClass.pulls self') 0%Z
      = (nth a (ResultClass.pulls self) 0 + stores_of nbArms a calls)%Z.
Proof.
  induction calls as [|[[time choice] reward] calls IH]; intros self self' Hinv Hrun.
  - cbn in Hrun. inversion Hrun; subst self'. split; [exact Hinv|].
    intros a Ha. unfold stores_of. cbn. lia.
  - cbn [ResultClass.store_all] in Hrun.
    destruct (ResultClass.store self time choice reward) as [self1 [e|]] eqn:Estore;
      [discriminate|].
    destruct (store_step _ _ _ _ _ _ _ _ Hinv Estore) as (Hinv1 & a' & Ea' & Hpulls).
    destruct (IH self1 self' Hinv1 Hrun) as (Hinv' & Hcount).
    split; [exact Hinv'|]. intros a Ha.
    rewrite (Hcount a Ha), (stores_of_cons _ _ _ _ _ _ _ Ea'), Hpulls.
    assert (Hlen : length (ResultClass.pulls self) = nbArms) by apply Hinv.
    pose proof (np_index_lt _ _ _ Ea') as Ha'.
    destruct (Nat.eqb_spec a' a) as [->|Hne].
    + rewrite nth_list_update_eq by lia. lia.
    + rewrite nth_list_update_neq by exact Hne. lia.
Qed.

(** X28: for a [Result] as [__init__] builds it, after any sequence of
    calls of [store] that all return, the arrays have the lengths of the
    beginning, the pulls of every arm are the number of the calls whose
    choice is that arm (a negative choice counting from the end), and
    [rewardsSquared] holds the square of every entry of [rewards]. *)
Theorem Result_store_counts (nbArms horizon delta : Z)
    (self self' : ResultClass.result) (calls : list (Z * Z * R)) :
  ResultClass.__init__ nbArms horizon delta = Returns self ->
  ResultClass.store_all self calls = (self', None) ->
  length (ResultClass.choices self') = Z.to_nat (Z.quot horizon delta) /\
  length (ResultClass.rewards self') = Z.to_nat (Z.quot horizon delta) /\
  length (ResultClass.rewardsSquared self') = Z.to_nat (Z.quot horizon delta) /\
  length (ResultClass.pulls self') = Z.to_nat nbArms /\
  (forall a, (a < Z.to_nat nbArms)%nat ->
     nth a (ResultClass.pulls self') 0%Z = stores_of (Z.to_nat nbArms) a calls) /\
  (forall i x, nth_error (ResultClass.rewards self') i = Some x ->
     nth_error (ResultClass.rewardsSquared self') i = Some (x ^ 2)).
Proof.
  intros Hinit Hrun.
  destruct (init_inv _ _ _ _ Hinit) as (_ & _ & _ & Hinv & Hzero).
  destruct (store_all_counts _ _ _ calls self self' Hinv Hrun)
    as ((_ & Hc & Hr & Hs & Hp & Hsq) & Hcount).
  repeat split; auto.
  intros a Ha. rewrite (Hcount a Ha), Hzero.
  rewrite (nth_error_nth _ _ _ (nth_error_repeat 0%Z Ha)). lia.
Qed.

Lemma Result_store_counts_witness :
  length (ResultClass.choices
            (fst (ResultClass.store_all
                    (ResultClass.mkResult 1 [0%Z; 0%Z] [0; 0] [0; 0] [0%Z; 0%Z])
                    [(0%Z, 1%Z, 1); (1%Z, (-1)%Z, 0)])))
  = Z.to_nat (Z.quot 2 1) /\
  length (ResultClass.rewards
            (fst (ResultClass.store_all
                    (ResultClass.mkResult 1 [0%Z; 0%Z] [0; 0] [0; 0] [0%Z; 0%Z])
                    [(0%Z, 1%Z, 1); (1%Z, (-1)%Z, 0)])))
  = Z.to_nat (Z.quot 2 1) /\
  length (ResultClass.rewardsSquared
            (fst (ResultClass.store_all
                    (ResultClass.mkResult 1 [0%Z; 0%Z] [0; 0] [0; 0] [0%Z; 0%Z])
                    [(0%Z, 1%Z, 1); (1%Z, (-1)%Z, 0)])))
  = Z.to_nat (Z.quot 2 1) /\
  length (ResultClass.pulls
            (fst (ResultClass.store_all
                    (ResultClass.mkResult 1 [0%Z; 0%Z] [0; 0] [0; 0] [0%Z; 0%Z])
                    [(0%Z, 1%Z, 1); (1%Z, (-1)%Z, 0)])))
  = Z.to_nat 2 /\
  (forall a, (a < Z.to_nat 2)%nat ->
     nth a (ResultClass.pulls
              (fst (ResultClass.store_all
                      (ResultClass.mkResult 1 [0%Z; 0%Z] [0; 0] [0; 0] [0%Z; 0%Z])
                      [(0%Z, 1%Z, 1); (1%Z, (-1)%Z, 0)]))) 0%Z
     = stores_of (Z.to_nat 2) a [(0%Z, 1%Z, 1); (1%Z, (-1)%Z, 0)]) /\
  (forall i x,
     nth_error (ResultClass.rewards
                  (fst (ResultClass.store_all
                          (ResultClass.mkResult 1 [0%Z; 0%Z] [0; 0] [0; 0] [0%Z; 0%Z])
                          [(0%Z, 1%Z, 1); (1%Z, (-1)%Z, 0)]))) i = Some x ->
     nth_error (ResultClass.rewardsSquared
                  (fst (ResultClass.store_all
                          (ResultClass.mkResult 1 [0%Z; 0%Z] [0; 0] [0; 0] [0%Z; 0%Z])
                          [(0%Z, 1%Z, 1); (1%Z, (-1)%Z, 0)]))) i = Some (x ^ 2)).
Proof.
  apply (Result_store_counts 2 2 1
           (ResultClass.mkResult 1 [0%Z; 0%Z] [0; 0] [0; 0] [0%Z; 0%Z])).
  - reflexivity.
  - reflexivity.
Defined.

(** X29: on a [Result] as [__init__] builds it, for [delta_t_save >= 1],
    a time [time >= 0] and a choice that is an arm, [store] returns
    exactly when [time < int(horizon / delta_t_save) * delta_t_save]:
    when [delta_t_save] does not divide the horizon, the last times
    before the horizon raise [IndexError]. *)
Theorem Result_store_last_times (nbArms horizon delta : Z)
    (self : ResultClass.result) (time choice : Z) (reward : R) :
  ResultClass.__init__ nbArms horizon delta = Returns self ->
  (1 <= delta)%Z -> (0 <= time)%Z -> (0 <= choice < nbArms)%Z ->
  (snd (ResultClass.store self time choice reward) = None <->
   (time < Z.quot horizon delta * delta)%Z) /\
  ((Z.quot horizon delta * delta <= time)%Z ->
   ResultClass.store self time choice reward = (self, Some E_IndexError)).
Proof.
  intros Hinit Hdelta Htime Hchoice.
  destruct (init_inv _ _ _ _ Hinit) as (_ & Hdur & _ & (Hd & Hc & Hr & Hs & Hp & _) & _).
  unfold ResultClass.store. rewrite Hd.
  destruct (Z.eqb_spec delta 0) as [E|_]; [lia|].
  cbv zeta. cbn [ResultClass.choices ResultClass.rewards ResultClass.rewardsSquared
                 ResultClass.pulls ResultClass.delta_t_save].
  rewrite Hc, Hr, Hs, Hp.
  assert (Hslot : (0 <= Z.quot time delta)%Z) by (apply Z.quot_pos; lia).
  rewrite (np_index_nonneg _ _ Hslot), Z2Nat.id by exact Hdur.
  rewrite (np_index_nonneg _ choice) by lia. rewrite Z2Nat.id by lia.
  assert (Hiff : (Z.quot time delta < Z.quot horizon delta <->
                  time < Z.quot horizon delta * delta)%Z).
  { rewrite (Z.quot_div_nonneg time delta) by lia.
    pose proof (Z.div_mod time delta ltac:(lia)) as Hdm.
    pose proof (Z.mod_pos_bound time delta ltac:(lia)) as Hmod.
    split; intros H; nia. }
  destruct (Z.ltb_spec (Z.quot time delta) (Z.quot horizon delta)) as [Hin|Hout].
  - destruct (Z.ltb_spec choice nbArms) as [_|F]; [|lia].
    cbn [snd]. split.
    + split; [intros _; apply Hiff, Hin | reflexivity].
    + intros Hlate. apply Hiff in Hin. lia.
  - cbn [snd]. split.
    + split; [discriminate|]. intros H. apply Hiff in H. lia.
    + intros _. reflexivity.
Qed.

Lemma Result_store_last_times_witness :
  (snd (ResultClass.store
          (ResultClass.mkResult 2 [0%Z; 0%Z] [0; 0] [0; 0] [0%Z; 0%Z; 0%Z])
          4 1 1) = None <->
   (4 < Z.quot 5 2 * 2)%Z) /\
  ((Z.quot 5 2 * 2 <= 4)%Z ->
   ResultClass.store
     (ResultClass.mkResult 2 [0%Z; 0%Z] [0; 0] [0; 0] [0%Z; 0%Z; 0%Z]) 4 1 1
   = (ResultClass.mkResult 2 [0%Z; 0%Z] [0; 0] [0; 0] [0%Z; 0%Z; 0%Z],
      Some E_IndexError)).
Proof.
  apply (Result_store_last_times 3 5 2
           (ResultClass.mkResult 2 [0%Z; 0%Z] [0; 0] [0; 0] [0%Z; 0%Z; 0%Z]) 4 1 1).
  - reflexivity.
  - lia.
  - lia.
  - lia.
Defined.

(** X30: [store] is not all or nothing: on a [Result] as [__init__]
    builds it, for [delta_t_save >= 1], a call at a time that has an
    entry and with a choice that is not an arm raises [IndexError] after
    it has written the choice, the reward and its square at the entry
    of the time; only the pulls are left as they were. *)
Theorem Result_store_bad_choice (nbArms horizon delta : Z)
    (self : ResultClass.result) (time choice : Z) (reward : R) :
  ResultClass.__init__ nbArms horizon delta = Returns self ->
  (1 <= delta)%Z ->
  (0 <= time < Z.quot horizon delta * delta)%Z ->
  (nbArms <= choice)%Z ->
  exists self',
    ResultClass.store self time choice reward = (self', Some E_IndexError) /\
    nth_error (ResultClass.choices self') (Z.to_nat (Z.quot time delta)) = Some choice /\
    nth_error (ResultClass.rewards self') (Z.to_nat (Z.quot time delta)) = Some reward /\
    nth_error (ResultClass.rewardsSquared self') (Z.to_nat (Z.quot time delta))
    = Some (reward ^ 2) /\
    ResultClass.pulls self' = ResultClass.pulls self.
Proof.
  intros Hinit Hdelta Htime Hchoice.
  destruct (init_inv _ _ _ _ Hinit)
    as (_ & Hdur & Harms & (Hd & Hc & Hr & Hs & Hp & _) & _).
  unfold ResultClass.store. rewrite Hd.
  destruct (Z.eqb_spec delta 0) as [E|_]; [lia|].
  cbv zeta. cbn [ResultClass.choices ResultClass.rewards ResultClass.rewardsSquared
                 ResultClass.pulls ResultClass.delta_t_save].
  rewrite Hc, Hr, Hs, Hp.
  assert (Hslot : (0 <= Z.quot time delta)%Z) by (apply Z.quot_pos; lia).
  assert (Hin : (Z.quot time delta < Z.quot horizon delta)%Z).
  { rewrite (Z.quot_div_nonneg time delta) by lia.
    apply Z.div_lt_upper_bound; lia. }
  rewrite (np_index_nonneg _ _ Hslot), Z2Nat.id by exact Hdur.
  destruct (Z.ltb_spec (Z.quot time delta) (Z.quot horizon delta)) as [_|F]; [|lia].
  rewrite (np_index_nonneg _ choice) by lia. rewrite Z2Nat.id by lia.
  destruct (Z.ltb_spec choice nbArms) as [F|_]; [lia|].
  eexists. split; [reflexivity|].
  cbn [ResultClass.choices ResultClass.rewards ResultClass.rewardsSquared
       ResultClass.pulls].
  repeat split; apply nth_error_list_update_eq; lia.
Qed.

Lemma Result_store_bad_choice_witness :
  exists self',
    ResultClass.store
      (ResultClass.mkResult 1 [0%Z; 0%Z] [0; 0] [0; 0] [0%Z; 0%Z]) 1 2 1
    = (self', Some E_IndexError) /\
    nth_error (ResultClass.choices self') (Z.to_nat (Z.quot 1 1)) = Some 2%Z /\
    nth_error (ResultClass.rewards self') (Z.to_nat (Z.quot 1 1)) = Some 1 /\
    nth_error (ResultClass.rewardsSquared self') (Z.to_nat (Z.quot 1 1))
    = Some (1 ^ 2) /\
    ResultClass.pulls self'
    = ResultClass.pulls (ResultClass.mkResult 1 [0%Z; 0%Z] [0; 0] [0; 0] [0%Z; 0%Z]).
Proof.
  apply (Result_store_bad_choice 2 2 1
           (ResultClass.mkResult 1 [0%Z; 0%Z] [0; 0] [0; 0] [0%Z; 0%Z]) 1 2 1).
  - reflexivity.
  - lia.
  - simpl. lia.
  - lia.
Defined.

Lemma comb_1_2 : comb 1 2 = 0.
Proof. reflexivity. Qed.

(** X13: the threshold that [CUSUM] and [PHT] compute when the caller
    gives none, that is [compute_h__CUSUM] with 1 for [M], is for a
    precision in (0, 1) a real number that is not negative. For a
    precision above 1/2 it is [log(max(1, horizon))]:
    [ceil(2 * epsilon)] is 2 and [comb(1, 2)] is 0, so [C1_plus] is
    [log(1) = 0], the minimum [C1] is 0, and the guard replaces it
    by 1. *)
Theorem default_threshold_h_nonneg (horizon : nat) (epsilon : R) (M : nat) :
  0 < epsilon < 1 ->
  (exists h,
     default_threshold_h horizon epsilon M None = Some (Fin h) /\ 0 <= h) /\
  (1 / 2 < epsilon ->
   default_threshold_h horizon epsilon M None
   = Some (Fin (ln (INR (Nat.max 1 horizon))))).
Proof.
  intros [H0 H1]. unfold default_threshold_h, compute_h__CUSUM.
  assert (Hm : (1 - epsilon) ^ 2 <> 0) by (apply pow_nonzero; lra).
  assert (Hp : (1 + epsilon) ^ 2 <> 0) by (apply pow_nonzero; lra).
  rewrite (Reqb_false _ _ Hm), (Reqb_false _ _ Hp).
  assert (Hpow : 0 <= (2 * epsilon) ^ 1) by (apply pow_le; lra).
  assert (Hqm : 0 <= 4 * epsilon / (1 - epsilon) ^ 2).
  { apply Rmult_le_pos; [lra|]. left. apply Rinv_0_lt_compat.
    apply pow_lt. lra. }
  assert (Hqp : 0 <= 4 * epsilon / (1 + epsilon) ^ 2).
  { apply Rmult_le_pos; [lra|]. left. apply Rinv_0_lt_compat.
    apply pow_lt. lra. }
  set (am := 4 * epsilon / (1 - epsilon) ^ 2
             * comb 1 (floor (2 * epsilon * INR 1)) * (2 * epsilon) ^ 1 + 1).
  set (ap := 4 * epsilon / (1 + epsilon) ^ 2
             * comb 1 (ceil (2 * epsilon * INR 1)) * (2 * epsilon) ^ 1 + 1).
  assert (Ham : 1 <= am).
  { unfold am. pose proof (comb_nonneg 1 (floor (2 * epsilon * INR 1))) as Hc.
    pose proof (Rmult_le_pos _ _ (Rmult_le_pos _ _ Hqm Hc) Hpow). lra. }
  assert (Hap : 1 <= ap).
  { unfold ap. pose proof (comb_nonneg 1 (ceil (2 * epsilon * INR 1))) as Hc.
    pose proof (Rmult_le_pos _ _ (Rmult_le_pos _ _ Hqp Hc) Hpow). lra. }
  rewrite (np_log_pos am) by lra. rewrite (np_log_pos ap) by lra.
  assert (HT : 1 <= INR (Nat.max 1 horizon)).
  { change 1 with (INR 1). apply le_INR. lia. }
  unfold MAX_NB_RANDOM_EVENTS. change (Nat.max 1 1) with 1%nat.
  change (INR 1) with 1 in *. rewrite Rdiv_1_r. rewrite np_log_pos by lra.
  assert (HlT : 0 <= ln (INR (Nat.max 1 horizon))) by (apply ln_nonneg, HT).
  pose proof (ln_nonneg _ Ham) as Hlam.
  pose proof (ln_nonneg _ Hap) as Hlap.
  split.
  - assert (Hmin : exists c, py_min (Fin (ln am)) (Fin (ln ap)) = Fin c /\ 0 <= c).
    { unfold py_min. destruct (flt (Fin (ln ap)) (Fin (ln am))).
      - exists (ln ap). split; [reflexivity | exact Hlap].
      - exists (ln am). split; [reflexivity | exact Hlam]. }
    destruct Hmin as (c & -> & Hc). cbn [feq].
    destruct (Req_dec_T c 0) as [->|Hne].
    + rewrite Reqb_true by reflexivity. cbn [finv].
      rewrite Reqb_false by lra. cbn [fmul]. eexists. split; [reflexivity|].
      rewrite Rinv_1. lra.
    + rewrite Reqb_false by exact Hne. cbn [finv].
      rewrite Reqb_false by exact Hne. cbn [fmul]. eexists. split; [reflexivity|].
      apply Rmult_le_pos; [|exact HlT]. left. apply Rinv_0_lt_compat. lra.
  - intros Hhalf.
    assert (Ec : ceil (2 * epsilon * 1) = 2%Z) by (apply ceil_spec; lra).
    assert (Eap : ap = 1).
    { unfold ap. rewrite Ec, comb_1_2. lra. }
    assert (Emin : py_min (Fin (ln am)) (Fin (ln ap)) = Fin 0).
    { rewrite Eap, ln_1. unfold py_min, flt.
      destruct (Rlt_dec 0 (ln am)) as [Hlt|Hnlt].
      - rewrite Rltb_true by exact Hlt. reflexivity.
      - rewrite Rltb_false by exact Hnlt. f_equal. lra. }
    rewrite Emin. cbn [feq]. rewrite Reqb_true by reflexivity. cbn [finv].
    rewrite Reqb_false by lra. cbn [fmul]. rewrite Rinv_1, Rmult_1_l.
    reflexivity.
Qed.

Lemma default_threshold_h_nonneg_witness :
  0 < 3 / 4 < 1 /\
  (exists h,
     default_threshold_h 10 (3 / 4) 5 None = Some (Fin h) /\ 0 <= h) /\
  (1 / 2 < 3 / 4 ->
   default_threshold_h 10 (3 / 4) 5 None
   = Some (Fin (ln (INR (Nat.max 1 10))))).
Proof.
  split; [lra|]. apply (default_threshold_h_nonneg 10 (3 / 4) 5). lra.
Defined.
